(** * MarkovChain: a shallow embedding of
      tensorflow_probability/python/distributions/markov_chain.py

    The development follows the Python module: arrays and the handful of
    TensorFlow primitives the module calls, the statically inferred shapes
    consulted by [_assert_same_shape], the collaborators (seed splitting,
    the prior, the transition function), and then the methods of
    [MarkovChain] in source order. *)

From Stdlib Require Import String.
From Stdlib Require Import List ZArith Lia Bool Arith PeanoNat.
From Stdlib Require Import DecimalString.
Import ListNotations.
Local Open Scope string_scope.
Local Open Scope list_scope.
Local Open Scope nat_scope.

(** ** Errors and fallible computations *)

(** Python exceptions that the module and the primitives it calls can raise:
    [ValueError] is raised while Python code runs (structure mismatches,
    statically detected shape errors); [InvalidArgumentError] is what a failed
    runtime assertion or an ill-shaped runtime operation raises;
    [AttributeError] is raised by an attribute access on an object that has
    no attribute of that name. *)
Inductive error : Type :=
| ValueError (msg : string)
| InvalidArgumentError (msg : string)
| AttributeError (msg : string).

Inductive result (A : Type) : Type :=
| Ok (a : A)
| Err (e : error).
Arguments Ok {A} a.
Arguments Err {A} e.

Definition bind {A B} (r : result A) (k : A -> result B) : result B :=
  match r with
  | Ok a => k a
  | Err e => Err e
  end.

Notation "x <- e ;; k" := (bind e (fun x => k))
  (at level 61, e at next level, right associativity).
Notation "' p <- e ;; k" := (bind e (fun p => k))
  (at level 61, p pattern, e at next level, right associativity).

Definition is_ok {A} (r : result A) : bool :=
  match r with Ok _ => true | Err _ => false end.

(** ** Scalars

    The element type of floating tensors is kept abstract: the module only
    adds and subtracts log-densities (and the reductions start from zero). *)
Class Scalar (R : Type) : Type := {
  zero : R;
  add : R -> R -> R;
  sub : R -> R -> R
}.

(** Rounding-free arithmetic: the laws under which statements made
    "within tolerance" are exact equalities. *)
Class ExactScalar (R : Type) `{Scalar R} : Prop := {
  add_comm : forall a b : R, add a b = add b a;
  add_assoc : forall a b c : R, add a (add b c) = add (add a b) c;
  add_0_l : forall a : R, add zero a = a;
  sub_add : forall a b : R, add (sub a b) b = a
}.

#[export] Instance Z_Scalar : Scalar Z :=
  {| zero := 0%Z; add := Z.add; sub := Z.sub |}.

#[export] Instance Z_ExactScalar : ExactScalar Z.
Proof. constructor; simpl; intros; lia. Qed.

(** A finite scalar is one that subtracted from itself gives zero; among
    the floats the infinities and NaN are the others ([inf - inf] is
    NaN). *)
Definition finite {R : Type} `{Scalar R} (a : R) : Prop := sub a a = zero.

(** ** Arrays: a shape and row-major data *)

Record ndarray (A : Type) : Type := mk_ndarray {
  shape : list nat;
  data : list A
}.
Arguments mk_ndarray {A} shape data.
Arguments shape {A} n.
Arguments data {A} n.

Definition numel (s : list nat) : nat := fold_right Nat.mul 1 s.

(** TensorFlow cannot represent an array whose data disagrees with its shape;
    the primitives below reject such a value when a collaborator produces it. *)
Definition well_formed {A} (t : ndarray A) : bool :=
  length (data t) =? numel (shape t).

Definition ill_formed : error := InvalidArgumentError "ill-formed tensor".

Definition scalar_tensor {A} (a : A) : ndarray A := mk_ndarray [] [a].

(** The vector [start, start + 1, ..., limit - 1]. *)
Definition range_tensor (start limit : Z) : ndarray Z :=
  let n := Z.to_nat (limit - start) in
  mk_ndarray [n] (map (fun i => (start + Z.of_nat i)%Z) (seq 0 n)).

Definition Z_str (z : Z) : string := NilZero.string_of_int (Z.to_int z).

Definition range_message (start limit : Z) : string :=
  ("Requires start <= limit when delta > 0: "
   ++ Z_str start ++ "/" ++ Z_str limit)%string.

(** [tf.range(start, limit)] (the step is 1): the op requires
    [start <= limit]; the range is empty when they are equal. *)
Definition tf_range (start limit : Z) : result (ndarray Z) :=
  if (limit <? start)%Z
  then Err (InvalidArgumentError (range_message start limit))
  else Ok (range_tensor start limit).

(** [t[i]] along the leading axis. *)
Definition index0 {A} (t : ndarray A) (i : nat) : result (ndarray A) :=
  match shape t with
  | [] => Err (ValueError "Index out of range: scalar tensor")
  | n :: s =>
      if negb (well_formed t) then Err ill_formed
      else if i <? n
      then Ok (mk_ndarray s (firstn (numel s) (skipn (i * numel s) (data t))))
      else Err (InvalidArgumentError "slice index out of bounds")
  end.

(** Python slice bounds: a negative bound counts from the end, and bounds are
    clamped to the extent. *)
Definition clamp_index (n : nat) (i : Z) : nat :=
  Z.to_nat (Z.min (Z.of_nat n)
                  (Z.max 0 (if (i <? 0)%Z then i + Z.of_nat n else i))).

(** [t[b:e]] along the leading axis. *)
Definition slice0 {A} (t : ndarray A) (b e : Z) : result (ndarray A) :=
  match shape t with
  | [] => Err (ValueError "Index out of range: scalar tensor")
  | n :: s =>
      if negb (well_formed t) then Err ill_formed
      else
        let b' := clamp_index n b in
        let len := clamp_index n e - b' in
        Ok (mk_ndarray (len :: s)
              (firstn (len * numel s) (skipn (b' * numel s) (data t))))
  end.

(** [t[tf.newaxis, ...]] *)
Definition expand0 {A} (t : ndarray A) : ndarray A :=
  mk_ndarray (1 :: shape t) (data t).

(** [tf.concat([a, b], axis=0)] *)
Definition concat0 {A} (a b : ndarray A) : result (ndarray A) :=
  match shape a, shape b with
  | na :: sa, nb :: sb =>
      if negb (well_formed a && well_formed b) then Err ill_formed
      else if list_eq_dec Nat.eq_dec sa sb
      then Ok (mk_ndarray ((na + nb) :: sa) (data a ++ data b))
      else Err (InvalidArgumentError "ConcatOp: dimensions of inputs should match")
  | _, _ => Err (ValueError "Can't concatenate scalars")
  end.

(** The stacked output of a loop that ran no iteration: extent 0 in front of
    the element shape. *)
Definition empty_like {A} (t : ndarray A) : ndarray A :=
  mk_ndarray (0 :: shape t) [].

(** [tf.nest.map_structure] over two structures.  A structure is represented
    by the list of its leaves in [tf.nest.flatten] order; two structures of
    different arity do not have the same nested structure. *)
Definition structure_mismatch : error :=
  ValueError "The two structures don't have the same nested structure.".

Fixpoint map_structure2 {A B C} (f : A -> B -> result C)
    (xs : list A) (ys : list B) : result (list C) :=
  match xs, ys with
  | [], [] => Ok []
  | x :: xs', y :: ys' =>
      c <- f x y ;;
      cs <- map_structure2 f xs' ys' ;;
      Ok (c :: cs)
  | _, _ => Err structure_mismatch
  end.

(** [tf.nest.map_structure] over one structure, with a fallible function. *)
Fixpoint map_structure {A B} (f : A -> result B) (xs : list A)
    : result (list B) :=
  match xs with
  | [] => Ok []
  | x :: xs' =>
      b <- f x ;;
      bs <- map_structure f xs' ;;
      Ok (b :: bs)
  end.

(** ** Statically inferred shapes ([tf.TensorShape]) *)

(** [None] is a shape of unknown rank; a dimension [None] is unknown. *)
Definition TensorShape : Type := option (list (option nat)).

Definition dim_compatible (a b : option nat) : bool :=
  match a, b with
  | Some x, Some y => x =? y
  | _, _ => true
  end.

Fixpoint dims_compatible (l1 l2 : list (option nat)) : bool :=
  match l1, l2 with
  | [], [] => true
  | a :: l1', b :: l2' => dim_compatible a b && dims_compatible l1' l2'
  | _, _ => false
  end.

(** [tensorshape_util.is_compatible_with]: some fully defined shape is
    represented by both. *)
Definition is_compatible_with (a b : TensorShape) : bool :=
  match a, b with
  | Some l1, Some l2 => dims_compatible l1 l2
  | _, _ => true
  end.

Definition dim_defined (d : option nat) : bool :=
  match d with Some _ => true | None => false end.

(** [tensorshape_util.is_fully_defined] *)
Definition is_fully_defined (a : TensorShape) : bool :=
  match a with
  | Some l => forallb dim_defined l
  | None => false
  end.

(** [str(d)] of a dimension and [str(shape)] of a [tf.TensorShape], as
    error messages print them. *)
Definition dim_str (d : option nat) : string :=
  match d with
  | Some n => NilEmpty.string_of_uint (Nat.to_uint n)
  | None => "None"
  end.

Definition TensorShape_str (a : TensorShape) : string :=
  match a with
  | None => "<unknown>"
  | Some [d] => ("(" ++ dim_str d ++ ",)")%string
  | Some dims => ("(" ++ String.concat ", " (map dim_str dims) ++ ")")%string
  end.

(** The static shape of a value whose shape is completely known. *)
Definition known_shape (s : list nat) : TensorShape := Some (map Some s).

(** A static shape is sound for a value when it represents the shape the
    value has at run time. *)
Definition shape_sound (st : TensorShape) (s : list nat) : bool :=
  is_compatible_with st (known_shape s).

(** Shape inference for a reduction over axis 0. *)
Definition reduced_static_shape (st : TensorShape) : TensorShape :=
  match st with
  | Some (_ :: l) => Some l
  | Some [] => Some []
  | None => None
  end.

(** ** Assertions ([assert_util]) and [tf.control_dependencies] *)

(** The assertions the module makes: on two scalars, and
    [assert_equal(tf.shape(x), tf.shape(y))] on two shape vectors. *)
Inductive assertion : Type :=
| assert_greater_equal (x y : Z) (message : string)
| assert_equal (x y : Z) (message : string)
| assert_equal_shapes (x y : list nat) (message : string).

(** [x == y] on two vectors is taken element by element after
    broadcasting: a vector of one element is compared with every element of
    the other (with none, when the other is empty), and two vectors of other,
    different lengths cannot be compared.  [Some b]: all comparisons made
    are true, or not. *)
Definition broadcast_all_equal (x y : list nat) : option bool :=
  if length x =? length y
  then Some (if list_eq_dec Nat.eq_dec x y then true else false)
  else if length x =? 1 then Some (forallb (Nat.eqb (hd 0 x)) y)
  else if length y =? 1 then Some (forallb (Nat.eqb (hd 0 y)) x)
  else None.

Definition incompatible_message : string := "Incompatible shapes".

Definition run_assertion (a : assertion) : result unit :=
  match a with
  | assert_greater_equal x y message =>
      if (y <=? x)%Z then Ok tt else Err (InvalidArgumentError message)
  | assert_equal x y message =>
      if (x =? y)%Z then Ok tt else Err (InvalidArgumentError message)
  | assert_equal_shapes x y message =>
      match broadcast_all_equal x y with
      | Some true => Ok tt
      | Some false => Err (InvalidArgumentError message)
      | None => Err (InvalidArgumentError incompatible_message)
      end
  end.

(** The body runs only after every assertion has passed. *)
Fixpoint control_dependencies (deps : list assertion) : result unit :=
  match deps with
  | [] => Ok tt
  | a :: deps' => _ <- run_assertion a ;; control_dependencies deps'
  end.

(** ** Floating tensors *)

Section Arrays.
Context {R : Type} `{Scalar R}.

Fixpoint map2 {A B C} (f : A -> B -> C) (l1 : list A) (l2 : list B)
    : list C :=
  match l1, l2 with
  | a :: l1', b :: l2' => f a b :: map2 f l1' l2'
  | _, _ => []
  end.

(** The entries of an [n x k] row-major matrix [l] that a reduction over
    axis 0 folds into element [j] of its result, in row order. *)
Definition column (k n : nat) (l : list R) (j : nat) : list R :=
  map (fun i => nth (i * k + j) l zero) (seq 0 n).

(** [tf.reduce_sum(x, axis=0)]: each element of the result accumulates its
    column in row order, starting from zero. *)
Definition reduce_sum (x : ndarray R) : result (ndarray R) :=
  match shape x with
  | [] => Err (InvalidArgumentError "Invalid reduction dimension 0")
  | n :: s =>
      if negb (well_formed x) then Err ill_formed
      else Ok (mk_ndarray s
                 (map (fun j =>
                         fold_left add (column (numel s) n (data x) j) zero)
                      (seq 0 (numel s))))
  end.

(** Modelled from the spec: [tfp_math.reduce_kahan_sum] is defined outside
    this module; compensated accumulation "tracks a running round-off
    correction term".  The accumulator pairs the running total with the
    correction, and the result is the named tuple
    [Kahan(total, correction)]. *)
Definition kahan_step (tc : R * R) (x : R) : R * R :=
  let (total, correction) := tc in
  let y := sub x correction in
  let t := add total y in
  (t, sub (sub t total) y).

Record Kahan : Type := mk_Kahan {
  total : ndarray R;
  correction : ndarray R
}.

Definition no_value_message : string :=
  "'Kahan' object has no attribute 'value'".

(** Attribute access on the named tuple: it has the two attributes
    [total] and [correction], and no other. *)
Definition Kahan_getattr (k : Kahan) (name : string)
    : result (ndarray R) :=
  if String.eqb name "total" then Ok (total k)
  else if String.eqb name "correction" then Ok (correction k)
  else Err (AttributeError
              ("'Kahan' object has no attribute '" ++ name ++ "'")%string).

Definition reduce_kahan_sum (x : ndarray R) : result Kahan :=
  match shape x with
  | [] => Err (InvalidArgumentError "Invalid reduction dimension 0")
  | n :: s =>
      if negb (well_formed x) then Err ill_formed
      else
        let acc :=
          map (fun j =>
                 fold_left kahan_step (column (numel s) n (data x) j)
                   (zero, zero))
              (seq 0 (numel s)) in
        Ok (mk_Kahan (mk_ndarray s (map fst acc))
                     (mk_ndarray s (map snd acc)))
  end.

(** *** Broadcasting binary operations ([x + y], [x - y]) *)

(** Shapes are aligned at their last axis; these work on reversed shapes. *)
Fixpoint broadcast_shapes_rev (a b : list nat) : option (list nat) :=
  match a, b with
  | [], _ => Some b
  | _, [] => Some a
  | x :: a', y :: b' =>
      match broadcast_shapes_rev a' b' with
      | None => None
      | Some r =>
          if x =? y then Some (x :: r)
          else if x =? 1 then Some (y :: r)
          else if y =? 1 then Some (x :: r)
          else None
      end
  end.

(** Flat index into an operand of (reversed) shape [s_rev] for the flat
    index [i] of the (reversed) output shape [out_rev]: an axis of extent 1
    is read at 0. *)
Fixpoint broadcast_index (out_rev s_rev : list nat) (i stride : nat) : nat :=
  match out_rev, s_rev with
  | d_out :: out', d_s :: s' =>
      (if d_s =? 1 then 0 else (i mod d_out) * stride)
      + broadcast_index out' s' (i / d_out) (stride * d_s)
  | _, _ => 0
  end.

Definition broadcast2 (f : R -> R -> R) (x y : ndarray R)
    : result (ndarray R) :=
  if negb (well_formed x && well_formed y) then Err ill_formed
  else if list_eq_dec Nat.eq_dec (shape x) (shape y)
  then Ok (mk_ndarray (shape x) (map2 f (data x) (data y)))
  else
    match broadcast_shapes_rev (rev (shape x)) (rev (shape y)) with
    | None => Err (InvalidArgumentError "Incompatible shapes")
    | Some out_rev =>
        Ok (mk_ndarray (rev out_rev)
              (map (fun i =>
                      f (nth (broadcast_index out_rev (rev (shape x)) i 1)
                             (data x) zero)
                        (nth (broadcast_index out_rev (rev (shape y)) i 1)
                             (data y) zero))
                   (seq 0 (numel out_rev))))
    end.

Definition tensor_add : ndarray R -> ndarray R -> result (ndarray R) :=
  broadcast2 add.
Definition tensor_sub : ndarray R -> ndarray R -> result (ndarray R) :=
  broadcast2 sub.

(** *** [distribution_util.move_dimension] *)

(** The array is viewed as [outer x r x c x inner] blocks and the two
    middle axes are exchanged: entry [i] of the result is read at
    [swap_index r c inner i]. *)
Definition swap_index (r c inner i : nat) : nat :=
  let d := i mod inner in
  let q := i / inner in
  let ri := q mod r in
  let q2 := q / r in
  let ci := q2 mod c in
  let a := q2 / c in
  ((a * r + ri) * c + ci) * inner + d.

Definition swap_blocks (r c inner : nat) (l : list R) : list R :=
  map (fun i => nth (swap_index r c inner i) l zero) (seq 0 (length l)).

(** Negative indices count from the end. *)
Definition normalize_axis (ndims : nat) (idx : Z) : Z :=
  if (idx <? 0)%Z then (Z.of_nat ndims + idx)%Z else idx.

Definition axis_in_range (ndims : nat) (idx : Z) : bool :=
  ((0 <=? idx)%Z && (idx <? Z.of_nat ndims)%Z).

(** Modelled from the spec: [distribution_util.move_dimension] is defined
    outside this module; it "moves that axis" to the destination position
    and keeps the order of the others.  Equal indices return the input;
    otherwise the permutation is handed to [tf.transpose], which rejects
    an index outside the rank. *)
Definition move_dimension (x : ndarray R) (source_idx dest_idx : Z)
    : result (ndarray R) :=
  let ndims := length (shape x) in
  let src := normalize_axis ndims source_idx in
  let dst := normalize_axis ndims dest_idx in
  if (src =? dst)%Z then Ok x
  else if negb (axis_in_range ndims src && axis_in_range ndims dst)
  then Err (InvalidArgumentError "transpose: invalid permutation")
  else if negb (well_formed x) then Err ill_formed
  else
    let s := Z.to_nat src in
    let d := Z.to_nat dst in
    let m := nth s (shape x) 0 in
    if s <? d
    then (* move right: [A; m; C; D] becomes [A; C; m; D] *)
      let A := firstn s (shape x) in
      let C := firstn (d - s) (skipn (S s) (shape x)) in
      let D := skipn (S d) (shape x) in
      Ok (mk_ndarray (A ++ C ++ m :: D)
            (swap_blocks m (numel C) (numel D) (data x)))
    else (* move left: [A; C; m; D] becomes [A; m; C; D] *)
      let A := firstn d (shape x) in
      let C := firstn (s - d) (skipn d (shape x)) in
      let D := skipn (S s) (shape x) in
      Ok (mk_ndarray (A ++ m :: C ++ D)
            (swap_blocks (numel C) m (numel D) (data x))).

(** A log-density as the module sees it: the value, and the shape that
    was inferred for it statically ([x.shape]). *)
Record Tensor : Type := mk_Tensor {
  static_shape : TensorShape;
  value : ndarray R
}.

End Arrays.
Arguments Tensor R : clear implicits.
Arguments Kahan R : clear implicits.

(** ** The module *)

Section MarkovChainModel.
Context {R : Type} `{Scalar R}.

(** Seeds are opaque to the module; [W] is whatever ambient state a
    collaborator may read or write when it runs (a global generator, for
    one).  The module itself never touches it. *)
Context {Seed : Type} {W : Type}.

Definition M (A : Type) : Type := W -> result (A * W).

Definition retM {A} (a : A) : M A := fun w => Ok (a, w).

Definition bindM {A B} (m : M A) (k : A -> M B) : M B :=
  fun w =>
    match m w with
    | Ok (a, w') => k a w'
    | Err e => Err e
    end.

Definition liftM {A} (r : result A) : M A :=
  fun w =>
    match r with
    | Ok a => Ok (a, w)
    | Err e => Err e
    end.

Notation "x <~ e ;; k" := (bindM e (fun x => k))
  (at level 61, e at next level, right associativity).
Notation "' p <~ e ;; k" := (bindM e (fun p => k))
  (at level 61, p pattern, e at next level, right associativity).

(** [samplers.split_seed(seed, n=2, salt=...)] *)
Variable split_seed : Seed -> option string -> M (Seed * Seed).

(** A (structure of) tensor(s), as the prior samples it. *)
Definition state : Type := list (ndarray R).

(** The part of [tfd.Distribution] that the module calls. *)
Record Distribution : Type := mk_Distribution {
  sample : list nat -> Seed -> M state;
  experimental_sample_and_log_prob :
    list nat -> Seed -> M (state * ndarray R);
  log_prob : state -> result (Tensor R);
  event_shape_tensor : list (list nat);
  batch_shape_tensor : list nat
}.

(** [num_steps] after [convert_nonref_to_tensor]: an ordinary value, or a
    reference ([tf.Variable]) whose value is read when an operation runs. *)
Inductive NumSteps : Type :=
| StaticSteps (n : Z)
| DeferredSteps (n : Z).

Definition is_ref (n : NumSteps) : bool :=
  match n with
  | StaticSteps _ => false
  | DeferredSteps _ => true
  end.

Definition steps_value (n : NumSteps) : Z :=
  match n with
  | StaticSteps n => n
  | DeferredSteps n => n
  end.

Record MarkovChain : Type := mk_MarkovChain {
  initial_state_prior : Distribution;
  transition_fn : ndarray Z -> state -> result Distribution;
  num_steps : NumSteps;
  experimental_use_kahan_sum : bool;
  validate_args : bool
}.

(** [MarkovChain._sum_fn] (the reduction is always taken over axis 0):
    with the flag, [tfp_math.reduce_kahan_sum(x, axis=axis).value]. *)
Definition _sum_fn (self : MarkovChain) (x : ndarray R)
    : result (ndarray R) :=
  if experimental_use_kahan_sum self
  then k <- reduce_kahan_sum x ;; Kahan_getattr k "value"
  else reduce_sum x.

(** [tf.get_static_value(num_steps)]: the value when it is an ordinary
    one; a reference has no static value. *)
Definition get_static_value (n : NumSteps) : option Z :=
  match n with
  | StaticSteps n => Some n
  | DeferredSteps _ => None
  end.

(** The dimension [tf.TensorShape([v])] holds: unknown for [None]; a
    negative value is no dimension. *)
Definition as_dimension (v : option Z) : result (option nat) :=
  match v with
  | None => Ok None
  | Some z =>
      if (z <? 0)%Z then Err (ValueError "Dimension must be >= 0")
      else Ok (Some (Z.to_nat z))
  end.

(** [MarkovChain._event_shape].  [prior_event_shape] is
    [self.initial_state_prior.event_shape], the statically inferred event
    shape of the prior, one [tf.TensorShape] per part ([Distribution] above
    holds what the prior does at run time only). *)
Definition _event_shape (self : MarkovChain)
    (prior_event_shape : list TensorShape) : result (list TensorShape) :=
  let _prefix_with_num_steps (event_shape : TensorShape)
      : result TensorShape :=
    match event_shape with
    | None => Ok None
    | Some dims =>
        d <- as_dimension (get_static_value (num_steps self)) ;;
        Ok (Some (d :: dims))
    end in
  map_structure _prefix_with_num_steps prior_event_shape.

(** [MarkovChain._event_shape_tensor] *)
Definition _event_shape_tensor (self : MarkovChain) : list (list Z) :=
  map (fun event_shape =>
         steps_value (num_steps self) :: map Z.of_nat event_shape)
      (event_shape_tensor (initial_state_prior self)).

(** [MarkovChain._batch_shape_tensor] *)
Definition _batch_shape_tensor (self : MarkovChain) : list nat :=
  batch_shape_tensor (initial_state_prior self).

(** [MarkovChain._step_axes]: index of the [num_steps] axis in each event
    part, as negative int(s). *)
Definition _step_axes (self : MarkovChain) : list Z :=
  map (fun nd : nat => (- (1 + Z.of_nat nd))%Z)
      (map (@length nat) (event_shape_tensor (initial_state_prior self))).

(** *** Sampling *)

Inductive sample_attr_t : Type :=
| attr_sample
| attr_experimental_sample_and_log_prob.

(** What a call through [sample_attr] returns: the sample, together with
    its log-density when the attribute is
    [experimental_sample_and_log_prob]. *)
Definition sample_result : Type := (state * option (ndarray R))%type.

(** [getattr(dist, sample_attr)(sample_shape, seed=seed)] *)
Definition call_sample_attr (dist : Distribution) (sample_attr : sample_attr_t)
    (sample_shape : list nat) (seed : Seed) : M sample_result :=
  match sample_attr with
  | attr_sample =>
      x <~ sample dist sample_shape seed ;;
      retM (x, None)
  | attr_experimental_sample_and_log_prob =>
      ' (x, lp) <~ experimental_sample_and_log_prob dist sample_shape seed ;;
      retM (x, Some lp)
  end.

(** [tf.nest.map_structure] over two results. *)
Definition map_result2 (f : ndarray R -> ndarray R -> result (ndarray R))
    (a b : sample_result) : result sample_result :=
  xs <- map_structure2 f (fst a) (fst b) ;;
  match snd a, snd b with
  | None, None => Ok (xs, None)
  | Some la, Some lb => l <- f la lb ;; Ok (xs, Some l)
  | _, _ => Err structure_mismatch
  end.

(** [_make_sample_loop_body]: builds the scan loop body to sample from a
    Markov chain. *)
Definition _make_sample_loop_body
    (transition_fn : ndarray Z -> state -> result Distribution)
    (sample_attr : sample_attr_t)
    (extract_sample_fn : sample_result -> state)
    : Seed * sample_result -> Z -> M (Seed * sample_result) :=
  fun seed_and_state step =>
    let (seed, previous_result) := seed_and_state in
    let state := extract_sample_fn previous_result in
    ' (current_step_seed, seed) <~ split_seed seed None ;;
    dist <~ liftM (transition_fn (scalar_tensor (step - 1)%Z) state) ;;
    new_result <~ call_sample_attr dist sample_attr [] current_step_seed ;;
    retM (seed, new_result).

(** [tf.scan] writes every loop output into an array whose element shape
    is the initializer's. *)
Definition same_shape (a b : ndarray R) : result (ndarray R) :=
  if list_eq_dec Nat.eq_dec (shape a) (shape b) then Ok b
  else Err (ValueError "Inconsistent shapes in scan output").

Fixpoint scan_loop
    (fn : Seed * sample_result -> Z -> M (Seed * sample_result))
    (like : sample_result) (elems : list Z) (a : Seed * sample_result)
    : M (list sample_result) :=
  match elems with
  | [] => retM []
  | e :: elems' =>
      a' <~ fn a e ;;
      _ <~ liftM (map_result2 same_shape like (snd a')) ;;
      rest <~ scan_loop fn like elems' a' ;;
      retM (snd a' :: rest)
  end.

Definition empty_result_like (r : sample_result) : sample_result :=
  (map empty_like (fst r), option_map empty_like (snd r)).

(** Stacking along a new leading axis. *)
Definition cons0 (a t : ndarray R) : result (ndarray R) :=
  concat0 (expand0 a) t.

Fixpoint stack_results (like : sample_result) (l : list sample_result)
    : result sample_result :=
  match l with
  | [] => Ok (empty_result_like like)
  | r :: l' =>
      rest <- stack_results like l' ;;
      map_result2 cons0 r rest
  end.

(** [tf.scan(fn, elems, initializer)]: the stacked loop outputs (the
    stacked seeds, which the caller drops, are left out). *)
Definition tf_scan
    (fn : Seed * sample_result -> Z -> M (Seed * sample_result))
    (elems : ndarray Z) (initializer : Seed * sample_result)
    : M sample_result :=
  outputs <~ scan_loop fn (snd initializer) (data elems) initializer ;;
  liftM (stack_results (snd initializer) outputs).

(** [MarkovChain._sample_and_log_prob_helper]: draws samples from the
    chain and optionally accumulates the log_prob. *)
Definition _sample_and_log_prob_helper (self : MarkovChain)
    (sample_shape : list nat) (seed : Seed) (compute_log_prob : bool)
    : M (state * ndarray R) :=
  ' (prior_seed, loop_seed) <~
      split_seed seed (Some "markov_chain_sample") ;;
  let sample_attr :=
    if compute_log_prob then attr_experimental_sample_and_log_prob
    else attr_sample in
  let extract_sample_fn : sample_result -> state := fst in
  let extract_lp_fn : sample_result -> result (ndarray R) :=
    if compute_log_prob
    then fun x_and_lp =>
           match snd x_and_lp with
           | Some lps => _sum_fn self lps
           | None => Err (ValueError "tuple index out of range")
           end
    else fun _ => Ok (scalar_tensor zero) in
  prior_result <~
    call_sample_attr (initial_state_prior self) sample_attr
      sample_shape prior_seed ;;
  let loop_body :=
    _make_sample_loop_body (transition_fn self) sample_attr
      extract_sample_fn in
  elems <~ liftM (tf_range 1 (steps_value (num_steps self))) ;;
  results <~ tf_scan loop_body elems (loop_seed, prior_result) ;;
  (* Concatenate prior sample (and lp) with remaining samples (and lps). *)
  results <~ liftM (map_result2 cons0 prior_result results) ;;
  let samples := extract_sample_fn results in
  lp <~ liftM (extract_lp_fn results) ;;
  (* Move leftmost [num_steps] dimension into the event shape. *)
  samples <~ liftM (map_structure2
                      (fun x axis => move_dimension x 0 axis)
                      samples (_step_axes self)) ;;
  retM (samples, lp).

(** [MarkovChain._sample_n] *)
Definition _sample_n (self : MarkovChain) (sample_shape : list nat)
    (seed : Seed) : M state :=
  ' (samples, _) <~
      _sample_and_log_prob_helper self sample_shape seed false ;;
  retM samples.

(** [MarkovChain._sample_and_log_prob] *)
Definition _sample_and_log_prob (self : MarkovChain)
    (sample_shape : list nat) (seed : Seed) : M (state * ndarray R) :=
  _sample_and_log_prob_helper self sample_shape seed true.

(** *** Density evaluation *)

(** [ps.shape(tf.nest.flatten(x)[0])[0]] *)
Definition leading_extent (x : state) : result Z :=
  match x with
  | [] => Err (ValueError "list index out of range")
  | t :: _ =>
      match shape t with
      | [] => Err (ValueError "Index out of range: scalar tensor")
      | n :: _ => Ok (Z.of_nat n)
      end
  end.

(** [MarkovChain._log_prob_parts]: returns the prior log-prob and
    elementwise transition log-probs. *)
Definition _log_prob_parts (self : MarkovChain) (x : state)
    : result (Tensor R * Tensor R) :=
  (* Move step dimension to the leftmost location. *)
  x <- map_structure2 (fun t ax => move_dimension t ax 0)
         x (_step_axes self) ;;
  x0 <- map_structure (fun state_part => index0 state_part 0) x ;;
  prior_lp <- log_prob (initial_state_prior self) x0 ;;
  num_steps <- leading_extent x ;;
  steps <- tf_range 0 (num_steps - 1) ;;
  previous <- map_structure
                (fun state_part => slice0 state_part 0 (num_steps - 1)) x ;;
  dist <- transition_fn self steps previous ;;
  current <- map_structure
               (fun state_part => slice0 state_part 1 num_steps) x ;;
  transition_lps <- log_prob dist current ;;
  Ok (prior_lp, transition_lps).

Definition shapes_message : string :=
  "The shape of the `log_prob` returned by the transition distribution does not match the `log_prob` from the initial state prior. This indicates that the transition distribution's batch shape is incorrect. Please ensure that `initial_state_prior.batch_shape == transition_fn(0, initial_state_prior.sample()).batch_shape`.".

(** [_assert_same_shape]: asserts (statically if possible) that two
    Tensor have the same shape. *)
Definition _assert_same_shape (x y : Tensor R) (message : string)
    (validate_args : bool) : result (list assertion) :=
  if negb (is_compatible_with (static_shape x) (static_shape y))
  then Err (ValueError
              (message ++ " Saw shapes: " ++ TensorShape_str (static_shape x)
                 ++ " vs " ++ TensorShape_str (static_shape y) ++ ".")%string)
  else
    Ok (if validate_args
           && negb (is_fully_defined (static_shape x)
                    && is_fully_defined (static_shape y))
        then [assert_equal_shapes (shape (value x)) (shape (value y))
                message]
        else []).

(** [MarkovChain._log_prob] *)
Definition _log_prob (self : MarkovChain) (x : state)
    : result (ndarray R) :=
  ' (prior_lp, transition_lps) <- _log_prob_parts self x ;;
  transition_lp_value <- _sum_fn self (value transition_lps) ;;
  let transition_lp :=
    mk_Tensor (reduced_static_shape (static_shape transition_lps))
              transition_lp_value in
  deps <- _assert_same_shape prior_lp transition_lp shapes_message
            (validate_args self) ;;
  _ <- control_dependencies deps ;;
  tensor_add (value prior_lp) (value transition_lp).

(** *** Validation *)

Definition num_steps_message : string :=
  "Argument `num_steps` must be at least 1.".

Definition step_axis_message : string :=
  "Input shape does not match the expected num_steps.".

(** [MarkovChain._parameter_control_dependencies] *)
Definition _parameter_control_dependencies (self : MarkovChain)
    (is_init : bool) : list assertion :=
  if negb (validate_args self) then []
  else
    if negb (Bool.eqb is_init (is_ref (num_steps self)))
    then [assert_greater_equal (steps_value (num_steps self)) 1
            num_steps_message]
    else [].

(** [ps.shape(x)[k]] for a negative [k]. *)
Definition shape_at (x : ndarray R) (k : Z) : result Z :=
  let i := normalize_axis (length (shape x)) k in
  if axis_in_range (length (shape x)) i
  then Ok (Z.of_nat (nth (Z.to_nat i) (shape x) 0))
  else Err (ValueError "list index out of range").

(** [MarkovChain._sample_control_dependencies] *)
Definition _sample_control_dependencies (self : MarkovChain) (x : state)
    : result (list assertion) :=
  if negb (validate_args self) then Ok []
  else
    parts_num_steps <- map_structure2 shape_at x (_step_axes self) ;;
    Ok (map (fun part_num_steps =>
               assert_equal part_num_steps (steps_value (num_steps self))
                 step_axis_message)
            parts_num_steps).

(** [_markov_chain_log_prob_ratio]: implements [log_prob_ratio] for
    [tfd.MarkovChain]. *)
Definition _markov_chain_log_prob_ratio (p : MarkovChain) (x : state)
    (q : MarkovChain) (y : state) : result (ndarray R) :=
  ' (p_prior_lp, p_transition_lps) <- _log_prob_parts p x ;;
  ' (q_prior_lp, q_transition_lps) <- _log_prob_parts q y ;;
  prior_lp_ratio <- tensor_sub (value p_prior_lp) (value q_prior_lp) ;;
  transition_lp_ratios <-
    tensor_sub (value p_transition_lps) (value q_transition_lps) ;;
  transition_lp_ratio <-
    (if experimental_use_kahan_sum p || experimental_use_kahan_sum q
     then k <- reduce_kahan_sum transition_lp_ratios ;;
          Kahan_getattr k "value"
     else reduce_sum transition_lp_ratios) ;;
  tensor_add prior_lp_ratio transition_lp_ratio.

(** *** The public methods

    Modelled from the spec: the base class [distribution.Distribution] is
    defined outside this module.  "User-visible failures surface at the
    call where they are detected: construction-time for a statically-known
    invalid step count": the constructor runs the assertions of
    [_parameter_control_dependencies(is_init=True)]; every public method
    runs under those of [_parameter_control_dependencies(is_init=False)],
    and a density evaluation also under
    [_sample_control_dependencies(value)]. *)
Definition MarkovChain_init (initial_state_prior : Distribution)
    (transition_fn : ndarray Z -> state -> result Distribution)
    (num_steps : NumSteps) (experimental_use_kahan_sum validate_args : bool)
    : result MarkovChain :=
  let self :=
    mk_MarkovChain initial_state_prior transition_fn num_steps
      experimental_use_kahan_sum validate_args in
  _ <- control_dependencies (_parameter_control_dependencies self true) ;;
  Ok self.

Definition chain_sample (self : MarkovChain) (sample_shape : list nat)
    (seed : Seed) : M state :=
  _ <~ liftM (control_dependencies
                (_parameter_control_dependencies self false)) ;;
  _sample_n self sample_shape seed.

Definition chain_sample_and_log_prob (self : MarkovChain)
    (sample_shape : list nat) (seed : Seed) : M (state * ndarray R) :=
  _ <~ liftM (control_dependencies
                (_parameter_control_dependencies self false)) ;;
  _sample_and_log_prob self sample_shape seed.

Definition chain_log_prob (self : MarkovChain) (x : state)
    : result (ndarray R) :=
  _ <- control_dependencies (_parameter_control_dependencies self false) ;;
  deps <- _sample_control_dependencies self x ;;
  _ <- control_dependencies deps ;;
  _log_prob self x.

(** *** The sampling recurrence, as the specification words it

    "Draw x0 from the prior.  For t = 1 .. num_steps-1: split loop_seed
    into (step_seed, loop_seed'); draw x_t from transition(t-1, x_{t-1})
    with step_seed."  [chain_steps] draws [k] consecutive steps starting
    at step [t]; with [attr_experimental_sample_and_log_prob] every draw
    comes with its log-density. *)
Fixpoint chain_steps (self : MarkovChain) (attr : sample_attr_t) (k : nat)
    (t : Z) (loop_seed : Seed) (x_prev : state) : M (list sample_result) :=
  match k with
  | 0 => retM []
  | S k' =>
      ' (step_seed, loop_seed') <~ split_seed loop_seed None ;;
      dist <~ liftM (transition_fn self (scalar_tensor (t - 1)%Z) x_prev) ;;
      r <~ call_sample_attr dist attr [] step_seed ;;
      rest <~ chain_steps self attr k' (t + 1)%Z loop_seed' (fst r) ;;
      retM (r :: rest)
  end.

(** The draws [x_0 .. x_(num_steps-1)] of one call, in order. *)
Definition realized_steps (self : MarkovChain) (attr : sample_attr_t)
    (sample_shape : list nat) (seed : Seed) : M (list sample_result) :=
  ' (prior_seed, loop_seed) <~
      split_seed seed (Some "markov_chain_sample") ;;
  r0 <~ call_sample_attr (initial_state_prior self) attr
          sample_shape prior_seed ;;
  rest <~ chain_steps self attr
            (Z.to_nat (steps_value (num_steps self) - 1)) 1%Z loop_seed
            (fst r0) ;;
  retM (r0 :: rest).

(** "Stack x0 .. x_(num_steps-1) along a new leading axis per leaf": the
    leaves of [like] give the element shapes. *)
Fixpoint stack_states (like : state) (xs : list state) : result state :=
  match xs with
  | [] => Ok (map empty_like like)
  | x :: xs' =>
      rest <- stack_states like xs' ;;
      map_structure2 cons0 x rest
  end.

(** Stacking arrays of shape [s] along a new leading axis. *)
Fixpoint stack_arrays (s : list nat) (l : list (ndarray R))
    : result (ndarray R) :=
  match l with
  | [] => Ok (mk_ndarray (0 :: s) [])
  | a :: l' => rest <- stack_arrays s l' ;; cons0 a rest
  end.

(** "... then move that axis to each leaf's step-axis position", which is
    [-(1 + event rank of the leaf)]. *)
Definition sample_spec (self : MarkovChain) (sample_shape : list nat)
    (seed : Seed) : M state :=
  steps <~ realized_steps self attr_sample sample_shape seed ;;
  let xs := map fst steps in
  stacked <~ liftM (stack_states (hd [] xs) xs) ;;
  liftM (map_structure2
           (fun leaf event_shape =>
              move_dimension leaf 0 (- (1 + Z.of_nat (length event_shape)))%Z)
           stacked (event_shape_tensor (initial_state_prior self))).

(** The log-densities that came with the draws. *)
Definition step_lps (steps : list sample_result) : list (ndarray R) :=
  flat_map (fun r => match snd r with Some lp => [lp] | None => [] end)
    steps.

(** On the draws [steps] of one joint call, density evaluation agrees with
    the log-densities the draws came with: the prior's log-density of x0 is
    the one returned with x0, and the transition function, applied once to
    the step indices [0 .. n-2] and the stacked draws [x_0 .. x_(n-2)],
    gives at the stacked draws [x_1 .. x_(n-1)] the stack of the
    log-densities returned with them.  The static shapes of both are sound
    for their values. *)
Definition densities_agree (self : MarkovChain) (steps : list sample_result)
    : Prop :=
  match steps with
  | (x0, Some lp0) :: rest =>
      let xs := x0 :: map fst rest in
      let n := Z.of_nat (length xs) in
      match
        (X <- stack_states x0 xs ;;
         prior_lp <- log_prob (initial_state_prior self) x0 ;;
         previous <- map_structure (fun p => slice0 p 0 (n - 1)) X ;;
         dist <- transition_fn self (range_tensor 0 (n - 1)) previous ;;
         current <- map_structure (fun p => slice0 p 1 n) X ;;
         lps <- log_prob dist current ;;
         stacked <- stack_arrays (shape lp0) (step_lps rest) ;;
         Ok (prior_lp, lps, stacked))
      with
      | Ok (prior_lp, lps, stacked) =>
          value prior_lp = lp0
          /\ value lps = stacked
          /\ shape_sound (static_shape prior_lp) (shape lp0) = true
          /\ shape_sound (static_shape lps) (shape stacked) = true
      | Err _ => False
      end
  | _ => False
  end.

(** [tf.expand_dims(x, axis)] for a negative [axis]. *)
Definition expand_dims (x : ndarray R) (axis : Z) : result (ndarray R) :=
  let pos := (Z.of_nat (length (shape x)) + 1 + axis)%Z in
  if negb (well_formed x) then Err ill_formed
  else if ((0 <=? pos)%Z && (pos <=? Z.of_nat (length (shape x)))%Z)
  then Ok (mk_ndarray (firstn (Z.to_nat pos) (shape x)
                         ++ 1 :: skipn (Z.to_nat pos) (shape x))
                      (data x))
  else Err (InvalidArgumentError "expand_dims: axis out of range").

(** "The chain is exactly the prior": a draw from the prior with the prior
    seed of the split, given its step axis (of extent 1). *)
Definition prior_sample_with_step_axis (self : MarkovChain)
    (sample_shape : list nat) (seed : Seed) : M state :=
  ' (prior_seed, _) <~ split_seed seed (Some "markov_chain_sample") ;;
  x0 <~ sample (initial_state_prior self) sample_shape prior_seed ;;
  liftM (map_structure2 expand_dims x0 (_step_axes self)).

(** The sum, step by step, of the first [k] rows of a stacked tensor:
    "the sum over t = 1 .. k of row t-1". *)
Fixpoint sum_steps (lps : ndarray R) (k : nat) : result (ndarray R) :=
  match k with
  | 0 => Ok (mk_ndarray (tl (shape lps)) (repeat zero (numel (tl (shape lps)))))
  | S k' =>
      acc <- sum_steps lps k' ;;
      lp_t <- index0 lps k' ;;
      tensor_add acc lp_t
  end.

Definition leading_dim {A} (t : ndarray A) : nat := hd 0 (shape t).

Definition zeros (s : list nat) : ndarray R :=
  mk_ndarray s (repeat zero (numel s)).

(** An array with no row. *)
Definition no_rows {A} (t : ndarray A) : Prop :=
  leading_dim t = 0 /\ data t = [].

(** The same chain, configured with another step count. *)
Definition with_num_steps (self : MarkovChain) (n : NumSteps)
    : MarkovChain :=
  mk_MarkovChain (initial_state_prior self) (transition_fn self) n
    (experimental_use_kahan_sum self) (validate_args self).

(** The step-axis movement at the head of [_log_prob_parts]. *)
Definition steps_leftmost (self : MarkovChain) (x : state)
    : result state :=
  map_structure2 (fun t ax => move_dimension t ax 0) x (_step_axes self).

(** What a call returns, the ambient state it leaves behind forgotten. *)
Definition outcome {A} (r : result (A * W)) : result A :=
  match r with
  | Ok (a, _) => Ok a
  | Err e => Err e
  end.

(** A computation whose result does not depend on the ambient state it is
    run in: run twice, at any two moments, it returns the same. *)
Definition ambient_independent {A} (m : M A) : Prop :=
  forall w1 w2, outcome (m w1) = outcome (m w2).

(** The collaborators' side of determinism: a draw is a function of the
    seed (and the sample shape) alone. *)
Definition seed_determined (d : Distribution) : Prop :=
  forall sample_shape seed, ambient_independent (sample d sample_shape seed).

(** [tf.range(t, t + k)] as a list. *)
Definition steps_from (t : Z) (k : nat) : list Z :=
  map (fun i => (t + Z.of_nat i)%Z) (seq 0 k).

(** A stack of arrays shaped like [l]. *)
Definition stacked_like (l sl : ndarray R) : Prop :=
  exists n, shape sl = n :: shape l.

(** The check [tf.scan] makes on a loop output. *)
Definition fits (like r : sample_result) : Prop :=
  exists r', map_result2 same_shape like r = Ok r'.

(** The collaborators' side of "sample and log-prob": the joint call of a
    distribution draws what its [sample] draws. *)
Definition joint_draws_sample (d : Distribution) : Prop :=
  forall sample_shape seed w x lp w',
    experimental_sample_and_log_prob d sample_shape seed w
      = Ok ((x, lp), w') ->
    sample d sample_shape seed w = Ok (x, w').

(** A loop output without its log-density. *)
Definition sample_only (r : sample_result) : sample_result :=
  (fst r, None).

End MarkovChainModel.

Arguments Distribution R Seed W : clear implicits.
Arguments MarkovChain R Seed W : clear implicits.
Arguments sample_result R : clear implicits.
Arguments state R : clear implicits.
Arguments M W A : clear implicits.

(** ** A concrete chain: an integer-valued random walk

    The doc-string example "Gaussian random walk" over exact integers: the
    prior is centred at 0, the transition at the previous state; a
    log-density is minus the squared distance to the centre, minus the step
    index for a transition.  The ambient state counts the seed splits. *)
Module RandomWalk.

Definition split_seed (seed : Z) (salt : option string)
    : M nat (Z * Z) :=
  fun w =>
    match salt with
    | Some _ => Ok ((3 * seed + 1, 3 * seed + 2)%Z, S w)
    | None => Ok ((2 * seed, 2 * seed + 1)%Z, S w)
    end.

(** Minus the squared distance of [y] to [loc] (broadcast), minus the
    step index of the row: [steps] is a scalar, or one index per row. *)
Definition walk_log_prob (steps : ndarray Z) (loc : ndarray Z)
    (y : state Z) : result (Tensor Z) :=
  match y with
  | [t] =>
      diff <- tensor_sub t loc ;;
      let inner := numel (tl (shape diff)) in
      let step_of (j : nat) : Z :=
        match shape steps with
        | [] => nth 0 (data steps) 0%Z
        | _ => nth (j / inner) (data steps) 0%Z
        end in
      Ok (mk_Tensor (known_shape (shape diff))
            (mk_ndarray (shape diff)
               (map (fun jv : nat * Z =>
                       (- (snd jv * snd jv) - step_of (fst jv))%Z)
                    (combine (seq 0 (length (data diff))) (data diff)))))
  | _ => Err structure_mismatch
  end.

(** A draw adds seed-derived increments to the centre. *)
Definition walk_sample (loc : ndarray Z) (sample_shape : list nat)
    (seed : Z) : M nat (state Z) :=
  fun w =>
    let s := (sample_shape ++ shape loc)%list in
    shift <- broadcast2 Z.add
               (mk_ndarray s (map (fun i => (seed + Z.of_nat i)%Z)
                                  (seq 0 (numel s))))
               loc ;;
    Ok ([shift], w).

(** The default [experimental_sample_and_log_prob]: sample, then
    evaluate. *)
Definition walk (steps : ndarray Z) (loc : ndarray Z)
    : Distribution Z Z nat :=
  {| sample := walk_sample loc;
     experimental_sample_and_log_prob := fun sample_shape seed w =>
       ' (x, w') <- walk_sample loc sample_shape seed w ;;
       lp <- walk_log_prob steps loc x ;;
       Ok ((x, value lp), w');
     log_prob := walk_log_prob steps loc;
     event_shape_tensor := [[]];
     batch_shape_tensor := shape loc |}.

Definition prior : Distribution Z Z nat :=
  walk (scalar_tensor 0%Z) (mk_ndarray [2] [0; 0]%Z).

Definition transition (step : ndarray Z) (previous : state Z)
    : result (Distribution Z Z nat) :=
  match previous with
  | [loc] => Ok (walk step loc)
  | _ => Err structure_mismatch
  end.

Definition chain (num_steps : NumSteps) (use_kahan validate : bool)
    : MarkovChain Z Z nat :=
  {| initial_state_prior := prior;
     transition_fn := transition;
     num_steps := num_steps;
     experimental_use_kahan_sum := use_kahan;
     validate_args := validate |}.

Definition walk3 : MarkovChain Z Z nat := chain (StaticSteps 3) false true.

(** A transition rule with the wrong batch shape: its log-density has a
    trailing axis of extent 3 where the prior's has extent 2.  [st] is
    what is known statically about the stacked log-densities. *)
Definition misshapen (st : TensorShape) (step : ndarray Z)
    (previous : state Z) : result (Distribution Z Z nat) :=
  Ok {| sample := fun _ _ w => Ok (previous, w);
        experimental_sample_and_log_prob := fun _ _ w =>
          Ok ((previous, mk_ndarray [3] [0; 0; 0]%Z), w);
        log_prob := fun y =>
          match y with
          | [t] =>
              Ok (mk_Tensor st
                    (mk_ndarray [hd 0 (shape t); 3]
                       (repeat 0%Z (hd 0 (shape t) * 3))))
          | _ => Err structure_mismatch
          end;
        event_shape_tensor := [[]];
        batch_shape_tensor := [3] |}.

Definition bad_chain (st : TensorShape) (validate : bool)
    : MarkovChain Z Z nat :=
  {| initial_state_prior := prior;
     transition_fn := misshapen st;
     num_steps := StaticSteps 3;
     experimental_use_kahan_sum := false;
     validate_args := validate |}.

(** A single walk (batch shape []) under the transition rule of batch
    shape [3], validation on; nothing is known statically about the
    transition log-densities. *)
Definition mismatched_ranks : MarkovChain Z Z nat :=
  {| initial_state_prior := walk (scalar_tensor 0%Z) (scalar_tensor 0%Z);
     transition_fn := misshapen None;
     num_steps := StaticSteps 4;
     experimental_use_kahan_sum := false;
     validate_args := true |}.

(** The same two walks cut after one step and after two steps. *)
Definition single_step : state Z := [mk_ndarray [2; 1] [16; 17]%Z].
Definition short_trajectory : state Z :=
  [mk_ndarray [2; 2] [16; 50; 17; 52]%Z].




(** Another pair of walks of three steps. *)
Definition trajectory' : state Z :=
  [mk_ndarray [2; 3] [1; 2; 4; 0; 3; 5]%Z].

(** Two independent walks of three steps: shape [2; 3]. *)
Definition trajectory : state Z :=
  [mk_ndarray [2; 3] [16; 50; 120; 17; 52; 123]%Z].

End RandomWalk.

(** * Properties *)

(** ** Static shapes *)

Lemma dims_compatible_known (a b : list nat) :
  dims_compatible (map Some a) (map Some b) = true -> a = b.
Proof.
  revert b; induction a as [|x a IH]; intros [|y b]; simpl;
    try discriminate; auto.
  intros E. apply andb_true_iff in E as [E1 E2].
  apply Nat.eqb_eq in E1. f_equal; auto.
Qed.

Lemma dims_compatible_defined (l : list (option nat)) (s : list nat) :
  forallb dim_defined l = true ->
  dims_compatible l (map Some s) = true ->
  l = map Some s.
Proof.
  revert s; induction l as [|[d|] l IH]; intros [|y s]; simpl;
    try discriminate; auto.
  intros D E. apply andb_true_iff in E as [E1 E2].
  apply Nat.eqb_eq in E1. f_equal; [congruence | auto].
Qed.

(** A fully defined static shape that is sound for a value is the value's
    shape. *)
Lemma fully_defined_sound (st : TensorShape) (s : list nat) :
  is_fully_defined st = true ->
  shape_sound st s = true ->
  st = known_shape s.
Proof.
  destruct st as [l|]; simpl; try discriminate.
  unfold shape_sound, known_shape; simpl. intros D E.
  f_equal. now apply dims_compatible_defined.
Qed.

Lemma compatible_known_eq (a b : list nat) :
  is_compatible_with (known_shape a) (known_shape b) = true -> a = b.
Proof. apply dims_compatible_known. Qed.

Lemma dims_compatible_refl_known (s : list nat) :
  dims_compatible (map Some s) (map Some s) = true.
Proof.
  induction s as [|x s IH]; simpl; auto.
  rewrite Nat.eqb_refl. exact IH.
Qed.

(** Two static shapes that are sound for the same run-time shape are
    compatible. *)
Lemma sound_compatible (l1 l2 : list (option nat)) (s : list nat) :
  dims_compatible l1 (map Some s) = true ->
  dims_compatible l2 (map Some s) = true ->
  dims_compatible l1 l2 = true.
Proof.
  revert l2 s; induction l1 as [|a l1 IH]; intros [|b l2] [|x s]; simpl;
    try discriminate; auto.
  intros E1 E2.
  apply andb_true_iff in E1 as [A1 B1]. apply andb_true_iff in E2 as [A2 B2].
  apply andb_true_iff; split; [|eauto].
  destruct a as [a|], b as [b|]; simpl in *; auto.
  apply Nat.eqb_eq in A1, A2. apply Nat.eqb_eq. congruence.
Qed.

Lemma shape_sound_compatible (st1 st2 : TensorShape) (s : list nat) :
  shape_sound st1 s = true ->
  shape_sound st2 s = true ->
  is_compatible_with st1 st2 = true.
Proof.
  destruct st1 as [l1|], st2 as [l2|]; simpl; auto.
  unfold shape_sound, known_shape; simpl. apply sound_compatible.
Qed.

(** Soundness is preserved by the shape inference of a reduction. *)
Lemma reduced_static_shape_sound (st : TensorShape) (n : nat) (s : list nat) :
  shape_sound st (n :: s) = true ->
  shape_sound (reduced_static_shape st) s = true.
Proof.
  destruct st as [[|d l]|]; simpl; auto; unfold shape_sound; simpl;
    try discriminate.
  intros E. apply andb_true_iff in E as [_ E]. exact E.
Qed.

(** ** Validation of the step count (C8) *)

Section StepCount.
Context {R : Type} `{Scalar R} {Seed W : Type}.
Variable split_seed : Seed -> option string -> M W (Seed * Seed).

(** C8, as the code has it: the step count is checked only when
    [validate_args] is set.  Then a count below 1 given as an ordinary
    value fails the constructor; given as a reference it passes the
    constructor and fails every later sampling or density call.  With
    validation off the constructor accepts any count. *)
Theorem invalid_step_count_gated
    (prior : Distribution R Seed W)
    (transition : ndarray Z -> state R -> result (Distribution R Seed W))
    (n : Z) (kahan : bool) (Hn : (n < 1)%Z) :
  MarkovChain_init prior transition (StaticSteps n) kahan true
    = Err (InvalidArgumentError num_steps_message)
  /\ (let self :=
        mk_MarkovChain prior transition (DeferredSteps n) kahan true in
      MarkovChain_init prior transition (DeferredSteps n) kahan true
        = Ok self
      /\ (forall sample_shape seed w,
             chain_sample split_seed self sample_shape seed w
               = Err (InvalidArgumentError num_steps_message))
      /\ (forall x,
             chain_log_prob self x
               = Err (InvalidArgumentError num_steps_message)))
  /\ (forall ns,
         MarkovChain_init prior transition ns kahan false
           = Ok (mk_MarkovChain prior transition ns kahan false)).
Proof.
  assert (E : (1 <=? n)%Z = false) by (apply Z.leb_gt; exact Hn).
  repeat split.
  - unfold MarkovChain_init, _parameter_control_dependencies; simpl.
    now rewrite E.
  - intros sample_shape seed w.
    unfold chain_sample, bindM, liftM, _parameter_control_dependencies;
      simpl. now rewrite E.
  - intros x.
    unfold chain_log_prob, _parameter_control_dependencies; simpl.
    now rewrite E.
Qed.

End StepCount.

Lemma invalid_step_count_gated_witness :
  MarkovChain_init RandomWalk.prior RandomWalk.transition (StaticSteps 0)
    false true
  = Err (InvalidArgumentError num_steps_message).
Proof.
  exact (proj1 (invalid_step_count_gated RandomWalk.split_seed
                  RandomWalk.prior RandomWalk.transition 0%Z false
                  ltac:(lia))).
Defined.

(** C8 as stated fails: with validation off (the default), a chain with
    [num_steps = 0] is constructed without any error. *)
Lemma invalid_step_count_unchecked :
  ~ (forall validate,
        is_ok (MarkovChain_init RandomWalk.prior RandomWalk.transition
                 (StaticSteps 0) false validate) = false).
Proof.
  intros C. specialize (C false). discriminate C.
Qed.

(** ** The shape check of [_log_prob] (C7) *)

Section ShapeCheck.
Context {R : Type} `{Scalar R} {Seed W : Type}.

Lemma broadcast_all_equal_same_rank (x y : list nat) :
  length x = length y ->
  x <> y ->
  broadcast_all_equal x y = Some false.
Proof.
  intros L N. unfold broadcast_all_equal. rewrite L, Nat.eqb_refl.
  destruct (list_eq_dec Nat.eq_dec x y); [contradiction | reflexivity].
Qed.

Lemma broadcast_all_equal_refl (x : list nat) :
  broadcast_all_equal x x = Some true.
Proof.
  unfold broadcast_all_equal. rewrite Nat.eqb_refl.
  destruct (list_eq_dec Nat.eq_dec x x); [reflexivity | contradiction].
Qed.

(** X15: what the shape check of [_log_prob] catches.  Once the parts are
    computed, statically incompatible shapes of the prior log-density and
    the reduced transition log-density raise [ValueError] (with both shapes
    in the message) whatever [validate_args] is; and under validation, with
    sound static shapes, two shapes of the same rank that differ never
    yield a result: they fail statically, or at the runtime assertion. *)
Theorem shape_check_same_rank
    (self : MarkovChain R Seed W) (x : state R)
    (prior_lp transition_lps : Tensor R) (transition_lp : ndarray R)
    (Hparts : _log_prob_parts self x = Ok (prior_lp, transition_lps))
    (Hsum : _sum_fn self (value transition_lps) = Ok transition_lp) :
  let st_prior := static_shape prior_lp in
  let st_trans := reduced_static_shape (static_shape transition_lps) in
  let static_error :=
    ValueError (shapes_message ++ " Saw shapes: " ++ TensorShape_str st_prior
                  ++ " vs " ++ TensorShape_str st_trans ++ ".")%string in
  (is_compatible_with st_prior st_trans = false ->
   _log_prob self x = Err static_error)
  /\ (validate_args self = true ->
      shape_sound st_prior (shape (value prior_lp)) = true ->
      shape_sound st_trans (shape transition_lp) = true ->
      length (shape (value prior_lp)) = length (shape transition_lp) ->
      shape (value prior_lp) <> shape transition_lp ->
      _log_prob self x = Err static_error
      \/ _log_prob self x = Err (InvalidArgumentError shapes_message)).
Proof.
  intros st_prior st_trans static_error.
  assert (Hstat :
    is_compatible_with st_prior st_trans = false ->
    _log_prob self x = Err static_error).
  { intros C.
    unfold _log_prob. rewrite Hparts; cbn [bind]. rewrite Hsum; cbn [bind].
    unfold _assert_same_shape; cbn [static_shape value].
    fold st_prior st_trans. now rewrite C. }
  split; [exact Hstat |].
  intros V S1 S2 L N.
  destruct (is_compatible_with st_prior st_trans) eqn:C;
    [right | left; auto].
  destruct (is_fully_defined st_prior && is_fully_defined st_trans) eqn:D.
  - exfalso. apply andb_true_iff in D as [D1 D2].
    apply fully_defined_sound in S1; auto.
    apply fully_defined_sound in S2; auto.
    rewrite S1, S2 in C. apply compatible_known_eq in C. contradiction.
  - unfold _log_prob. rewrite Hparts; cbn [bind]. rewrite Hsum; cbn [bind].
    unfold _assert_same_shape; cbn [static_shape value].
    fold st_prior st_trans. rewrite C, D, V.
    cbn [negb andb bind control_dependencies run_assertion].
    now rewrite (broadcast_all_equal_same_rank _ _ L N).
Qed.

End ShapeCheck.

Lemma shape_check_same_rank_witness :
  (forall validate,
      _log_prob (RandomWalk.bad_chain (known_shape [2; 3]) validate)
        RandomWalk.trajectory
      = Err (ValueError
               (shapes_message ++ " Saw shapes: (2,) vs (3,).")%string))
  /\ _log_prob (RandomWalk.bad_chain None true) RandomWalk.trajectory
     = Err (InvalidArgumentError shapes_message).
Proof.
  split.
  - intros validate.
    refine (proj1 (shape_check_same_rank
              (RandomWalk.bad_chain (known_shape [2; 3]) validate)
              RandomWalk.trajectory
              (mk_Tensor (known_shape [2]) (mk_ndarray [2] [-256; -289]%Z))
              (mk_Tensor (known_shape [2; 3])
                 (mk_ndarray [2; 3] (repeat 0%Z 6)))
              (mk_ndarray [3] [0; 0; 0]%Z)
              _ _) _); reflexivity.
  - assert (E := proj2 (shape_check_same_rank
              (RandomWalk.bad_chain None true)
              RandomWalk.trajectory
              (mk_Tensor (known_shape [2]) (mk_ndarray [2] [-256; -289]%Z))
              (mk_Tensor None (mk_ndarray [2; 3] (repeat 0%Z 6)))
              (mk_ndarray [3] [0; 0; 0]%Z)
              eq_refl eq_refl) eq_refl eq_refl eq_refl eq_refl
              ltac:(discriminate)).
    destruct E as [E | E]; [discriminate E | exact E].
Defined.

(** C7: a transition rule whose batch shape disagrees with the prior's goes
    undetected, validation on, when the two log-densities differ in rank and
    their shapes are not both known statically.  The prior has batch
    shape [], the transition rule batch shape [3]: the runtime assertion
    compares the shape vectors [] and [3] element by element with
    broadcasting, which makes no comparison at all, and [log_prob] returns
    the broadcast sum, of shape [3]. *)
Lemma log_prob_shape_mismatch_undetected :
  let chain := RandomWalk.mismatched_ranks in
  validate_args chain = true
  /\ batch_shape_tensor (initial_state_prior chain) = []
  /\ (forall step previous dist,
         transition_fn chain step previous = Ok dist ->
         batch_shape_tensor dist = [3])
  /\ run_assertion (assert_equal_shapes [] [3] shapes_message) = Ok tt
  /\ _log_prob chain [mk_ndarray [4] [3; 1; 1; 4]%Z]
     = Ok (mk_ndarray [3] [-9; -9; -9]%Z).
Proof.
  cbv zeta. repeat split.
  intros step previous dist [= <-]. reflexivity.
Qed.

(** ** Which step count a density evaluation uses (C9) *)

Section TrajectoryExtent.
Context {R : Type} `{Scalar R} {Seed W : Type}.

Lemma control_dependencies_assert_equal (exts : list Z) (n : Z)
    (message : string) :
  control_dependencies (map (fun e => assert_equal e n message) exts)
  = if forallb (fun e => (e =? n)%Z) exts then Ok tt
    else Err (InvalidArgumentError message).
Proof.
  induction exts as [|e exts IH]; simpl; auto.
  destruct (e =? n)%Z; simpl; auto.
Qed.

Lemma step_axes_negative (self : MarkovChain R Seed W) (ax : Z) :
  In ax (_step_axes self) -> (ax < 0)%Z.
Proof.
  unfold _step_axes. rewrite in_map_iff. intros [nd [<- _]]. lia.
Qed.

(** After the step axis has been moved to the front, the leading extent
    is the extent the input had along its step axis. *)
Lemma move_dimension_leading (t t' : ndarray R) (ax : Z) :
  (ax < 0)%Z ->
  move_dimension t ax 0 = Ok t' ->
  exists n s, shape t' = n :: s /\ shape_at t ax = Ok (Z.of_nat n).
Proof.
  intros Hax. unfold move_dimension, shape_at.
  set (ndims := length (shape t)).
  set (src := normalize_axis ndims ax).
  assert (Hdst : normalize_axis ndims 0 = 0%Z) by reflexivity.
  rewrite Hdst.
  destruct (src =? 0)%Z eqn:E.
  - apply Z.eqb_eq in E. intros [= <-]. rewrite E.
    assert (0 < ndims).
    { unfold src, normalize_axis in E.
      destruct (ax <? 0)%Z eqn:L; [lia | apply Z.ltb_ge in L; lia]. }
    unfold axis_in_range.
    replace (0 <=? 0)%Z with true by reflexivity.
    replace (0 <? Z.of_nat ndims)%Z with true
      by (symmetry; apply Z.ltb_lt; lia).
    simpl. unfold ndims in *.
    destruct (shape t) as [|n s]; simpl in *; [lia | eauto].
  - destruct (axis_in_range ndims src && axis_in_range ndims 0) eqn:Rg;
      simpl; try discriminate.
    apply andb_true_iff in Rg as [Rs _]. rewrite Rs.
    destruct (well_formed t); simpl; try discriminate.
    replace (Z.to_nat src <? Z.to_nat 0) with false
      by (symmetry; apply Nat.ltb_ge; lia).
    intros [= <-]. simpl. eauto.
Qed.

(** C9: [_log_prob] never reads the configured step count; the count it
    uses is the first leaf's extent along its step axis: with [n] that
    extent, [_log_prob_parts] is the prior's log-density of row 0 and the
    transition log-densities of one call on [tf.range(n - 1)], rows
    [0 .. n-2] and rows [1 .. n-1] of every leaf.  The configured
    count is compared with the input only by the assertions of
    [_sample_control_dependencies], which exist only under validation:
    with validation off, the public density evaluation is [_log_prob]
    whatever count the chain was configured with; with validation on, it
    is [_log_prob] when every leaf's step-axis extent equals the count,
    and the assertion's failure otherwise. *)
Theorem log_prob_steps_from_trajectory
    (self : MarkovChain R Seed W) (x : state R) :
  (forall ns,
      _log_prob_parts (with_num_steps self ns) x = _log_prob_parts self x
      /\ _log_prob (with_num_steps self ns) x = _log_prob self x)
  /\ (forall t x' ax axes' xm,
         x = t :: x' ->
         _step_axes self = ax :: axes' ->
         steps_leftmost self x = Ok xm ->
         leading_extent xm = shape_at t ax)
  /\ (forall t x' ax axes' xm n,
         x = t :: x' ->
         _step_axes self = ax :: axes' ->
         steps_leftmost self x = Ok xm ->
         shape_at t ax = Ok n ->
         _log_prob_parts self x
         = (x0 <- map_structure
                    (fun state_part => index0 state_part 0) xm ;;
            prior_lp <- log_prob (initial_state_prior self) x0 ;;
            steps <- tf_range 0 (n - 1) ;;
            previous <- map_structure
                          (fun state_part => slice0 state_part 0 (n - 1))
                          xm ;;
            dist <- transition_fn self steps previous ;;
            current <- map_structure
                         (fun state_part => slice0 state_part 1 n) xm ;;
            transition_lps <- log_prob dist current ;;
            Ok (prior_lp, transition_lps)))
  /\ (validate_args self = false ->
      _sample_control_dependencies self x = Ok []
      /\ forall ns,
           chain_log_prob (with_num_steps self ns) x = _log_prob self x)
  /\ (validate_args self = true ->
      forall extents,
        map_structure2 shape_at x (_step_axes self) = Ok extents ->
        control_dependencies (_parameter_control_dependencies self false)
          = Ok tt ->
        chain_log_prob self x
        = if forallb (fun e => (e =? steps_value (num_steps self))%Z)
               extents
          then _log_prob self x
          else Err (InvalidArgumentError step_axis_message)).
Proof.
  assert (Hparts : forall ns,
    _log_prob_parts (with_num_steps self ns) x = _log_prob_parts self x)
    by reflexivity.
  assert (Hlp : forall ns,
    _log_prob (with_num_steps self ns) x = _log_prob self x)
    by reflexivity.
  assert (Hextent : forall t x' ax axes' xm,
    x = t :: x' ->
    _step_axes self = ax :: axes' ->
    steps_leftmost self x = Ok xm ->
    leading_extent xm = shape_at t ax).
  { intros t x' ax axes' xm -> Haxes.
    unfold steps_leftmost. rewrite Haxes. simpl.
    destruct (move_dimension t ax 0) as [t'|] eqn:Mv; simpl;
      try discriminate.
    destruct (map_structure2 _ x' axes') as [xm'|]; simpl;
      try discriminate.
    intros [= <-]. simpl.
    assert (Hax : (ax < 0)%Z)
      by (apply (step_axes_negative self); rewrite Haxes; now left).
    destruct (move_dimension_leading t t' ax Hax Mv) as (n & s & -> & ->).
    reflexivity. }
  split; [intros ns; split; auto |].
  split; [exact Hextent |].
  split; [| split].
  - intros t x' ax axes' xm n Hx Haxes Hmove Hn.
    pose proof (Hextent _ _ _ _ _ Hx Haxes Hmove) as Hlead.
    rewrite Hn in Hlead.
    unfold _log_prob_parts. unfold steps_leftmost in Hmove.
    rewrite Hmove. cbn [bind].
    destruct (map_structure _ xm) as [x0|]; [| reflexivity]. cbn [bind].
    destruct (log_prob (initial_state_prior self) x0) as [prior_lp|];
      [| reflexivity].
    cbn [bind]. rewrite Hlead. reflexivity.
  - intros V. split.
    + unfold _sample_control_dependencies. now rewrite V.
    + intros ns. unfold chain_log_prob, _parameter_control_dependencies,
        _sample_control_dependencies; simpl. rewrite V; simpl. apply Hlp.
  - intros V extents Hext Hpar.
    unfold chain_log_prob. rewrite Hpar; simpl.
    unfold _sample_control_dependencies. rewrite V; simpl.
    rewrite Hext; simpl.
    rewrite control_dependencies_assert_equal.
    destruct (forallb _ extents); reflexivity.
Qed.

End TrajectoryExtent.

Lemma log_prob_steps_from_trajectory_witness :
  chain_log_prob (RandomWalk.chain (StaticSteps 5) false false)
    RandomWalk.trajectory
  = Ok (mk_ndarray [2] [-6313; -6556]%Z)
  /\ chain_log_prob (RandomWalk.chain (StaticSteps 5) false true)
       RandomWalk.trajectory
     = Err (InvalidArgumentError step_axis_message)
  /\ _log_prob_parts (RandomWalk.chain (StaticSteps 5) false false)
       RandomWalk.trajectory
     = (let xm := [mk_ndarray [3; 2] [16; 17; 50; 52; 120; 123]%Z] in
        x0 <- map_structure (fun state_part => index0 state_part 0) xm ;;
        prior_lp <- log_prob RandomWalk.prior x0 ;;
        steps <- tf_range 0 (3 - 1) ;;
        previous <- map_structure
                      (fun state_part => slice0 state_part 0 (3 - 1)) xm ;;
        dist <- RandomWalk.transition steps previous ;;
        current <- map_structure
                     (fun state_part => slice0 state_part 1 3) xm ;;
        transition_lps <- log_prob dist current ;;
        Ok (prior_lp, transition_lps)).
Proof.
  split; [| split].
  - destruct (log_prob_steps_from_trajectory
                (RandomWalk.chain (StaticSteps 3) false false)
                RandomWalk.trajectory) as (_ & _ & _ & C & _).
    destruct (C eq_refl) as [_ C'].
    transitivity (_log_prob (RandomWalk.chain (StaticSteps 3) false false)
                    RandomWalk.trajectory);
      [exact (C' (StaticSteps 5)) | reflexivity].
  - destruct (log_prob_steps_from_trajectory
                (RandomWalk.chain (StaticSteps 5) false true)
                RandomWalk.trajectory) as (_ & _ & _ & _ & D).
    rewrite (D eq_refl [3%Z] eq_refl eq_refl). reflexivity.
  - destruct (log_prob_steps_from_trajectory
                (RandomWalk.chain (StaticSteps 5) false false)
                RandomWalk.trajectory) as (_ & _ & P & _).
    exact (P _ _ _ _ _ 3%Z eq_refl eq_refl eq_refl eq_refl).
Defined.

(** ** The reduction over the step axis *)

Section Summation.
Context {R : Type} `{Scalar R} {Seed W : Type}.

Lemma Kahan_getattr_value (k : Kahan R) :
  Kahan_getattr k "value" = Err (AttributeError no_value_message).
Proof. reflexivity. Qed.

Lemma sum_fn_plain (self : MarkovChain R Seed W) (x : ndarray R) :
  experimental_use_kahan_sum self = false ->
  _sum_fn self x = reduce_sum x.
Proof. unfold _sum_fn. now intros ->. Qed.

(** With the flag, the reduction runs and its result has no [value]. *)
Lemma sum_fn_flagged (self : MarkovChain R Seed W) (x : ndarray R) :
  experimental_use_kahan_sum self = true ->
  _sum_fn self x
  = (_ <- reduce_kahan_sum x ;; Err (AttributeError no_value_message)).
Proof. unfold _sum_fn. now intros ->. Qed.

Lemma sum_fn_returns (self : MarkovChain R Seed W) (x t : ndarray R) :
  _sum_fn self x = Ok t ->
  experimental_use_kahan_sum self = false /\ reduce_sum x = Ok t.
Proof.
  unfold _sum_fn. destruct (experimental_use_kahan_sum self); [| auto].
  destruct (reduce_kahan_sum x); discriminate.
Qed.

End Summation.

(** ** A trajectory of one step (C10) *)

Section SingleStep.
Context {R : Type} `{Scalar R} {Seed W : Type}.

Lemma slice0_empty {A} (p : ndarray A) (n : nat) (s : list nat) (b : Z) :
  shape p = n :: s ->
  well_formed p = true ->
  slice0 p b b = Ok (mk_ndarray (0 :: s) []).
Proof.
  intros Hs Hw. unfold slice0. rewrite Hs, Hw. simpl.
  now rewrite Nat.sub_diag.
Qed.

Lemma slices_empty {A} (xm out : list (ndarray A)) (b : Z) :
  map_structure (fun p => slice0 p b b) xm = Ok out ->
  Forall no_rows out.
Proof.
  revert out; induction xm as [|p xm IH]; simpl; intros out.
  - intros [= <-]. constructor.
  - destruct (slice0 p b b) as [q|] eqn:E; simpl; try discriminate.
    destruct (map_structure _ xm) as [qs|]; simpl; try discriminate.
    intros [= <-]. constructor; auto.
    unfold slice0 in E. destruct (shape p); try discriminate.
    destruct (negb (well_formed p)); try discriminate.
    injection E as <-. rewrite Nat.sub_diag. split; reflexivity.
Qed.

Lemma map_const_seq {A} (c : A) (start k : nat) :
  map (fun _ => c) (seq start k) = repeat c k.
Proof. revert start; induction k; intros start; simpl; congruence. Qed.

(** The plain reduction of a stack without rows is zero. *)
Lemma reduce_sum_empty (lps : ndarray R) (s : list nat) :
  shape lps = 0 :: s ->
  well_formed lps = true ->
  reduce_sum lps = Ok (zeros s).
Proof.
  intros Hs Hw. unfold reduce_sum. rewrite Hs, Hw. simpl.
  unfold zeros. now rewrite map_const_seq.
Qed.

Lemma sum_fn_empty (self : MarkovChain R Seed W) (lps : ndarray R)
    (s : list nat) :
  experimental_use_kahan_sum self = false ->
  shape lps = 0 :: s ->
  well_formed lps = true ->
  _sum_fn self lps = Ok (zeros s).
Proof.
  intros Hflag Hs Hw. rewrite sum_fn_plain by exact Hflag.
  now apply reduce_sum_empty.
Qed.

(** X16: on a trajectory of one step, [_log_prob] still calls the
    transition function, on the empty range of step indices and on state
    slices without rows; a transition function that rejects such
    arguments makes [_log_prob] fail; when it accepts them and the chain
    sums plainly (no compensated-sum flag), the reduction of the row-less
    transition log-densities is zero, and that zero is what is added to
    the prior's log-density. *)
Theorem single_step_log_prob
    (self : MarkovChain R Seed W) (x xm : state R)
    (Hmove : steps_leftmost self x = Ok xm)
    (Hone : leading_extent xm = Ok 1%Z) :
  let steps := mk_ndarray [0] [] in
  tf_range 0 (1 - 1) = Ok steps
  /\ forall x0 prior_lp previous,
      map_structure (fun p => index0 p 0) xm = Ok x0 ->
      log_prob (initial_state_prior self) x0 = Ok prior_lp ->
      map_structure (fun p => slice0 p 0 (1 - 1)) xm = Ok previous ->
      Forall no_rows previous
      /\ (forall e,
             transition_fn self steps previous = Err e ->
             _log_prob self x = Err e)
      /\ (forall dist current lps s,
             transition_fn self steps previous = Ok dist ->
             map_structure (fun p => slice0 p 1 1) xm = Ok current ->
             log_prob dist current = Ok lps ->
             shape (value lps) = 0 :: s ->
             well_formed (value lps) = true ->
             experimental_use_kahan_sum self = false ->
             Forall no_rows current
             /\ _sum_fn self (value lps) = Ok (zeros s)
             /\ _log_prob self x
                = (deps <- _assert_same_shape prior_lp
                             (mk_Tensor
                                (reduced_static_shape (static_shape lps))
                                (zeros s))
                             shapes_message (validate_args self) ;;
                   _ <- control_dependencies deps ;;
                   tensor_add (value prior_lp) (zeros s))).
Proof.
  intros steps. split; [reflexivity |].
  intros x0 prior_lp previous Hx0 Hp Hprev.
  unfold steps_leftmost in Hmove.
  split; [exact (slices_empty _ _ _ Hprev) | split].
  - intros e He. unfold steps in He.
    unfold _log_prob, _log_prob_parts. rewrite Hmove; cbn [bind].
    rewrite Hx0; cbn [bind]. rewrite Hp; cbn [bind].
    rewrite Hone; cbn [bind].
    change (tf_range 0 (1 - 1)) with (Ok (mk_ndarray (A := Z) [0] [])).
    cbn [bind]. rewrite Hprev; cbn [bind].
    now rewrite He.
  - intros dist current lps s Hd Hcur Hl Hs Hw Hflag. unfold steps in Hd.
    split; [exact (slices_empty _ _ _ Hcur) |].
    split; [now apply sum_fn_empty |].
    unfold _log_prob, _log_prob_parts. rewrite Hmove; cbn [bind].
    rewrite Hx0; cbn [bind]. rewrite Hp; cbn [bind].
    rewrite Hone; cbn [bind].
    change (tf_range 0 (1 - 1)) with (Ok (mk_ndarray (A := Z) [0] [])).
    cbn [bind]. rewrite Hprev; cbn [bind].
    rewrite Hd; cbn [bind]. rewrite Hcur; cbn [bind].
    rewrite Hl; cbn [bind].
    rewrite (sum_fn_empty self _ _ Hflag Hs Hw). reflexivity.
Qed.

End SingleStep.

Lemma single_step_log_prob_witness :
  _log_prob (RandomWalk.chain (StaticSteps 1) false true)
    RandomWalk.single_step
  = tensor_add (mk_ndarray [2] [-256; -289]%Z) (zeros [2]).
Proof.
  pose proof (single_step_log_prob
                (RandomWalk.chain (StaticSteps 1) false true)
                RandomWalk.single_step
                [mk_ndarray [1; 2] [16; 17]%Z] eq_refl eq_refl) as T.
  destruct T as [_ T].
  destruct (T [mk_ndarray [2] [16; 17]%Z]
              (mk_Tensor (known_shape [2]) (mk_ndarray [2] [-256; -289]%Z))
              [mk_ndarray [0; 2] []] eq_refl eq_refl eq_refl)
    as (_ & _ & T3).
  destruct (T3 (RandomWalk.walk (mk_ndarray [0] [])
                  (mk_ndarray [0; 2] []))
              [mk_ndarray [0; 2] []]
              (mk_Tensor (known_shape [0; 2]) (mk_ndarray [0; 2] []))
              [2] eq_refl eq_refl eq_refl eq_refl eq_refl eq_refl)
    as (_ & _ & E).
  rewrite E. reflexivity.
Defined.

(** C10: with the compensated-sum flag, the empty reduction of a one-step
    trajectory contributes no zero: the transition function is called on
    the empty range and the row-less slices and answers with row-less
    log-densities, whose plain reduction is zeros, but [_sum_fn] asks the
    result of [reduce_kahan_sum] for its [value], an attribute the named
    tuple [Kahan(total, correction)] does not have, and [_log_prob]
    raises. *)
Lemma single_step_flagged_raises :
  let chain := RandomWalk.chain (StaticSteps 1) true false in
  let previous := [mk_ndarray [0; 2] []] in
  exists dist lps,
    transition_fn chain (mk_ndarray [0] []) previous = Ok dist
    /\ log_prob dist previous = Ok lps
    /\ shape (value lps) = [0; 2]
    /\ reduce_sum (value lps) = Ok (zeros [2])
    /\ _sum_fn chain (value lps) = Err (AttributeError no_value_message)
    /\ _log_prob chain RandomWalk.single_step
       = Err (AttributeError no_value_message).
Proof.
  cbv zeta. do 2 eexists. repeat split.
Qed.

(** ** Determinism of sampling (C6) *)

Section Determinism.
Context {R : Type} `{Scalar R} {Seed W : Type}.
Variable split_seed : Seed -> option string -> M W (Seed * Seed).

Lemma ambient_independent_ret {A} (a : A) :
  ambient_independent (W := W) (retM a).
Proof. intros w1 w2. reflexivity. Qed.

Lemma ambient_independent_lift {A} (r : result A) :
  ambient_independent (W := W) (liftM r).
Proof. intros w1 w2. unfold liftM. destruct r; reflexivity. Qed.

Lemma ambient_independent_bind {A B} (m : M W A) (k : A -> M W B) :
  ambient_independent m ->
  (forall a, ambient_independent (k a)) ->
  ambient_independent (bindM m k).
Proof.
  intros Hm Hk w1 w2. unfold bindM.
  specialize (Hm w1 w2).
  destruct (m w1) as [[a1 w1']|e1], (m w2) as [[a2 w2']|e2];
    simpl in Hm; try discriminate.
  - injection Hm as <-. apply Hk.
  - injection Hm as <-. reflexivity.
Qed.

Lemma ambient_independent_bind_lift {A B} (r : result A) (k : A -> M W B) :
  (forall a, r = Ok a -> ambient_independent (k a)) ->
  ambient_independent (bindM (liftM r) k).
Proof.
  intros Hk w1 w2. unfold bindM, liftM.
  destruct r as [a|e]; [now apply Hk | reflexivity].
Qed.

Section WithChain.
Variable self : MarkovChain R Seed W.
Hypothesis split_pure :
  forall seed salt, ambient_independent (split_seed seed salt).
Hypothesis prior_pure : seed_determined (initial_state_prior self).
Hypothesis transition_pure :
  forall step x dist,
    transition_fn self step x = Ok dist -> seed_determined dist.

Lemma call_sample_independent (dist : Distribution R Seed W)
    (sample_shape : list nat) (seed : Seed) :
  seed_determined dist ->
  ambient_independent (call_sample_attr dist attr_sample sample_shape seed).
Proof.
  intros Hd. simpl. apply ambient_independent_bind; [apply Hd |].
  intros a. apply ambient_independent_ret.
Qed.

Lemma loop_body_independent (a : Seed * sample_result R) (step : Z) :
  ambient_independent
    (_make_sample_loop_body split_seed (transition_fn self) attr_sample fst
       a step).
Proof.
  destruct a as [seed previous_result]. unfold _make_sample_loop_body.
  apply ambient_independent_bind; [apply split_pure |].
  intros [current_step_seed seed'].
  apply ambient_independent_bind_lift. intros dist Hd.
  apply ambient_independent_bind.
  - apply call_sample_independent. eapply transition_pure; eassumption.
  - intros r. apply ambient_independent_ret.
Qed.

Lemma scan_loop_independent (like : sample_result R) (elems : list Z) :
  forall a,
    ambient_independent
      (scan_loop
         (_make_sample_loop_body split_seed (transition_fn self) attr_sample
            fst)
         like elems a).
Proof.
  induction elems as [|e elems IH]; intros a; simpl.
  - apply ambient_independent_ret.
  - apply ambient_independent_bind; [apply loop_body_independent |].
    intros a'. apply ambient_independent_bind;
      [apply ambient_independent_lift |].
    intros _. apply ambient_independent_bind; [apply IH |].
    intros rest. apply ambient_independent_ret.
Qed.

Lemma sample_n_independent (sample_shape : list nat) (seed : Seed) :
  ambient_independent (_sample_n split_seed self sample_shape seed).
Proof.
  unfold _sample_n, _sample_and_log_prob_helper.
  apply ambient_independent_bind.
  - apply ambient_independent_bind; [apply split_pure |].
    intros [prior_seed loop_seed].
    apply ambient_independent_bind;
      [apply call_sample_independent, prior_pure |].
    intros prior_result.
    apply ambient_independent_bind; [apply ambient_independent_lift |].
    intros elems.
    apply ambient_independent_bind.
    + unfold tf_scan. apply ambient_independent_bind;
        [apply scan_loop_independent |].
      intros outputs. apply ambient_independent_lift.
    + intros results. apply ambient_independent_bind;
        [apply ambient_independent_lift |].
      intros results'. apply ambient_independent_bind;
        [apply ambient_independent_lift |].
      intros lp. apply ambient_independent_bind;
        [apply ambient_independent_lift |].
      intros samples. apply ambient_independent_ret.
  - intros [samples lp]. apply ambient_independent_ret.
Qed.

End WithChain.

(** C6: when the result of a seed split is a function of its inputs, and
    so is every draw of the prior and of the transition distributions, two
    calls to [sample] with the same sample shape and seed return the same
    trajectory (or fail alike), whatever the ambient state at each call. *)
Theorem sample_deterministic (self : MarkovChain R Seed W)
    (split_pure : forall seed salt, ambient_independent (split_seed seed salt))
    (prior_pure : seed_determined (initial_state_prior self))
    (transition_pure :
       forall step x dist,
         transition_fn self step x = Ok dist -> seed_determined dist)
    (sample_shape : list nat) (seed : Seed) (w1 w2 : W) :
  outcome (chain_sample split_seed self sample_shape seed w1)
  = outcome (chain_sample split_seed self sample_shape seed w2).
Proof.
  unfold chain_sample.
  apply ambient_independent_bind; [apply ambient_independent_lift |].
  intros _. now apply sample_n_independent.
Qed.

End Determinism.

Lemma walk_seed_determined (steps loc : ndarray Z) :
  seed_determined (RandomWalk.walk steps loc).
Proof.
  intros sample_shape seed w1 w2. simpl. unfold RandomWalk.walk_sample.
  destruct (broadcast2 _ _ _); reflexivity.
Qed.

Lemma sample_deterministic_witness :
  outcome (chain_sample RandomWalk.split_seed RandomWalk.walk3 [2] 5%Z 0)
  = outcome (chain_sample RandomWalk.split_seed RandomWalk.walk3 [2] 5%Z 7).
Proof.
  apply (sample_deterministic RandomWalk.split_seed RandomWalk.walk3).
  - intros seed [salt|] w1 w2; reflexivity.
  - apply walk_seed_determined.
  - intros step [|loc [|? ?]] dist; simpl; try discriminate.
    intros [= <-]. apply walk_seed_determined.
Defined.

(** ** Successful runs, step by step *)

Lemma bind_Ok {A B} (r : result A) (k : A -> result B) (v : B) :
  bind r k = Ok v <-> exists a, r = Ok a /\ k a = Ok v.
Proof.
  destruct r as [a|e]; simpl; split.
  - eauto.
  - intros (a' & [= <-] & K). exact K.
  - discriminate.
  - intros (a' & E & _). discriminate E.
Qed.

Lemma bindM_Ok {W A B} (m : M W A) (k : A -> M W B) (w : W) (v : B * W) :
  bindM m k w = Ok v <-> exists a w1, m w = Ok (a, w1) /\ k a w1 = Ok v.
Proof.
  unfold bindM. destruct (m w) as [[a w1]|e]; split.
  - eauto.
  - intros (a' & w1' & [= <- <-] & K). exact K.
  - discriminate.
  - intros (a' & w1' & E & _). discriminate E.
Qed.

Lemma liftM_Ok {W A} (r : result A) (w : W) (v : A * W) :
  liftM r w = Ok v <-> exists a, r = Ok a /\ v = (a, w).
Proof.
  unfold liftM. destruct r as [a|e]; split.
  - intros [= <-]. eauto.
  - intros (a' & [= <-] & ->). reflexivity.
  - discriminate.
  - intros (a' & E & _). discriminate E.
Qed.

Lemma retM_Ok {W A} (a : A) (w : W) (v : A * W) :
  retM a w = Ok v <-> v = (a, w).
Proof. unfold retM. split; [intros [= <-] | intros ->]; reflexivity. Qed.

(** Inversion of a successful monadic run in a hypothesis. *)
Ltac invert_run H :=
  repeat match type of H with
  | bindM _ _ _ = Ok _ =>
      let a := fresh "a" in let w := fresh "w" in
      let E := fresh "E" in
      apply bindM_Ok in H; destruct H as (a & w & E & H)
  | bind _ _ = Ok _ =>
      let a := fresh "a" in let E := fresh "E" in
      apply bind_Ok in H; destruct H as (a & E & H)
  | liftM _ _ = Ok _ =>
      let a := fresh "a" in let E := fresh "E" in
      apply liftM_Ok in H; destruct H as (a & E & H)
  | retM _ _ = Ok _ => apply retM_Ok in H
  end.

Lemma map_structure2_map_r {A B B' C} (f : A -> B -> result C) (g : B' -> B)
    (xs : list A) (ys : list B') :
  map_structure2 f xs (map g ys)
  = map_structure2 (fun x y => f x (g y)) xs ys.
Proof.
  revert ys; induction xs as [|x xs IH]; intros [|y ys]; simpl; auto.
  now rewrite IH.
Qed.

Lemma steps_from_S (t : Z) (k : nat) :
  steps_from t (S k) = t :: steps_from (t + 1) k.
Proof.
  unfold steps_from. simpl. f_equal; [lia |].
  rewrite <- seq_shift, map_map. apply map_ext. intros i. lia.
Qed.

Lemma range_tensor_data (t n : Z) :
  data (range_tensor t n) = steps_from t (Z.to_nat (n - t)).
Proof. reflexivity. Qed.

Lemma tf_range_Ok (t n : Z) :
  (t <= n)%Z -> tf_range t n = Ok (range_tensor t n).
Proof.
  intros Hle. unfold tf_range.
  destruct (n <? t)%Z eqn:E; [apply Z.ltb_lt in E; lia | reflexivity].
Qed.

Lemma tf_range_inv (t n : Z) (r : ndarray Z) :
  tf_range t n = Ok r -> (t <= n)%Z /\ r = range_tensor t n.
Proof.
  unfold tf_range. destruct (n <? t)%Z eqn:E; [discriminate |].
  apply Z.ltb_ge in E. intros [= <-]. auto.
Qed.

Lemma tf_range_Err (t n : Z) :
  (n < t)%Z -> tf_range t n = Err (InvalidArgumentError (range_message t n)).
Proof.
  intros Hlt. unfold tf_range.
  destruct (n <? t)%Z eqn:E; [reflexivity | apply Z.ltb_ge in E; lia].
Qed.

(** ** The scan loop is the recurrence (C2) *)

Ltac invert_steps :=
  repeat match goal with
  | H : bindM _ _ _ = Ok _ |- _ =>
      apply bindM_Ok in H; destruct H as (? & ? & ? & H)
  | H : bind _ _ = Ok _ |- _ =>
      apply bind_Ok in H; destruct H as (? & ? & H)
  | H : liftM _ _ = Ok _ |- _ =>
      apply liftM_Ok in H; destruct H as (? & ? & H)
  | H : retM _ _ = Ok _ |- _ => apply retM_Ok in H
  | H : context [let (_, _) := ?p in _] |- _ => is_var p; destruct p
  | H : (_, _) = (_, _) |- _ => injection H; clear H; intros; subst
  | H : Ok _ = Ok _ |- _ => injection H; clear H; intros; subst
  | H : _ = Ok _ |- _ => progress cbn beta iota in H
  end.

(** Construction of a successful run from its steps. *)
Ltac build_run :=
  cbn beta iota;
  first
    [ eassumption
    | apply retM_Ok; reflexivity
    | apply liftM_Ok; eexists; split; [eassumption | reflexivity]
    | apply bindM_Ok; do 2 eexists; split; [build_run | build_run]
    | apply bind_Ok; eexists; split; [build_run | build_run]
    | idtac ].

Section Recurrence.
Context {R : Type} `{Scalar R} {Seed W : Type}.
Variable split_seed : Seed -> option string -> M W (Seed * Seed).
Variable self : MarkovChain R Seed W.
Variable attr : sample_attr_t.

(** [tf.scan] over the step indices [t .. t+k-1] makes the draws of the
    recurrence, and checks each against the initializer's shapes. *)
Lemma scan_loop_steps (like : sample_result R) (k : nat) :
  forall t seed r_prev w outs w',
    scan_loop
      (_make_sample_loop_body split_seed (transition_fn self) attr fst)
      like (steps_from t k) (seed, r_prev) w = Ok (outs, w')
    <-> chain_steps split_seed self attr k t seed (fst r_prev) w
          = Ok (outs, w')
        /\ Forall (fits like) outs.
Proof.
  induction k as [|k IH]; intros t seed r_prev w outs w'.
  - unfold steps_from; simpl. rewrite !retM_Ok. split.
    + intros [= -> ->]. split; [reflexivity | constructor].
    + intros [[= -> ->] _]. reflexivity.
  - rewrite steps_from_S. simpl scan_loop. simpl chain_steps. split.
    + intros Hrun. invert_steps.
      match goal with
      | E : scan_loop _ _ _ _ _ = Ok _ |- _ => apply IH in E as [E1 F1]
      end.
      simpl in E1.
      split; [build_run | constructor; [eexists; eassumption | assumption]].
    + intros [Hrun F]. invert_steps.
      inversion F as [|r' rest' [r'' Fr] Frest]; subst.
      build_run. simpl.
      apply IH. split; assumption.
Qed.

End Recurrence.

Section SampleRecurrence.
Context {R : Type} `{Scalar R} {Seed W : Type}.
Variable split_seed : Seed -> option string -> M W (Seed * Seed).
Variable self : MarkovChain R Seed W.

Lemma call_sample_attr_sample (dist : Distribution R Seed W)
    (sample_shape : list nat) (seed : Seed) (w w' : W) (r : sample_result R) :
  call_sample_attr dist attr_sample sample_shape seed w = Ok (r, w') ->
  snd r = None.
Proof. unfold call_sample_attr. intros E. invert_steps. reflexivity. Qed.

Lemma chain_steps_sample_only (k : nat) :
  forall t seed x w outs w',
    chain_steps split_seed self attr_sample k t seed x w = Ok (outs, w') ->
    Forall (fun r => snd r = None) outs.
Proof.
  induction k as [|k IH]; intros t seed x w outs w' E; simpl in E.
  - invert_steps. constructor.
  - invert_steps. constructor.
    + reflexivity.
    + eapply IH; eassumption.
Qed.

Lemma stack_results_sample (x0 : state R) (outs : list (sample_result R)) :
  Forall (fun r => snd r = None) outs ->
  stack_results (x0, None) outs
  = (s <- stack_states x0 (map fst outs) ;; Ok (s, None)).
Proof.
  induction 1 as [|[x o] outs Hx _ IH]; simpl in *; [reflexivity |].
  subst o. rewrite IH.
  destruct (stack_states x0 (map fst outs)) as [s|e]; simpl; [|reflexivity].
  unfold map_result2; simpl.
  destruct (map_structure2 cons0 x s); reflexivity.
Qed.

(** What stacking one more array on top requires and produces. *)
Lemma cons0_shape (a r c : ndarray R) (n : nat) (sl : list nat) :
  shape r = n :: sl ->
  cons0 a r = Ok c ->
  shape a = sl /\ shape c = S n :: sl.
Proof.
  intros Hr. unfold cons0, concat0. simpl. rewrite Hr.
  destruct (negb _); try discriminate.
  destruct (list_eq_dec Nat.eq_dec (shape a) sl) as [<-|]; try discriminate.
  intros [= <-]. auto.
Qed.

Lemma cons0_like (like x rest s : state R) :
  Forall2 stacked_like like rest ->
  map_structure2 cons0 x rest = Ok s ->
  map_structure2 same_shape like x = Ok x /\ Forall2 stacked_like like s.
Proof.
  intros F. revert x s.
  induction F as [|l r like rest [n Hr] F IH]; intros [|a x] s; simpl;
    try discriminate.
  - intros [= <-]. split; [reflexivity | constructor].
  - intros E. invert_steps.
    match goal with
    | E : cons0 _ _ = Ok _ |- _ =>
        destruct (cons0_shape _ _ _ _ _ Hr E) as [Sa Sc]
    end.
    match goal with
    | E : map_structure2 cons0 _ _ = Ok _ |- _ =>
        destruct (IH _ _ E) as [IH1 IH2]
    end.
    rewrite IH1. unfold same_shape.
    destruct (list_eq_dec Nat.eq_dec (shape l) (shape a)); [|congruence].
    split; [reflexivity |].
    constructor; [exists (S n); congruence | assumption].
Qed.

Lemma stack_states_like (like : state R) (xs : list (state R)) :
  forall s,
    stack_states like xs = Ok s ->
    Forall (fun x => map_structure2 same_shape like x = Ok x) xs
    /\ Forall2 stacked_like like s.
Proof.
  induction xs as [|x xs IH]; simpl; intros s E.
  - invert_steps. split; [constructor |].
    induction like; simpl; constructor; auto. exists 0. reflexivity.
  - invert_steps.
    match goal with
    | E : stack_states _ _ = Ok _ |- _ => destruct (IH _ E) as [IH1 IH2]
    end.
    match goal with
    | E : map_structure2 cons0 _ _ = Ok _ |- _ =>
        destruct (cons0_like _ _ _ _ IH2 E) as [C1 C2]
    end.
    split; [constructor |]; assumption.
Qed.

(** C2: for a chain of at least one step, [sample] returns a trajectory
    exactly when the recurrence of the specification does, and the same
    one: the seed is split into a prior seed and a loop seed, x0 is drawn
    from the prior, each following step splits the loop seed and draws from
    the transition at the previous state, the draws are stacked along a new
    leading axis per leaf, and that axis is moved to position
    -(1 + event rank) of the leaf. *)
Theorem sample_is_recurrence (sample_shape : list nat) (seed : Seed)
    (w w' : W) (x : state R) :
  (1 <= steps_value (num_steps self))%Z ->
  _sample_n split_seed self sample_shape seed w = Ok (x, w')
  <-> sample_spec split_seed self sample_shape seed w = Ok (x, w').
Proof.
  intros Hn. pose proof (tf_range_Ok 1 _ Hn) as Hrange.
  unfold _sample_n, _sample_and_log_prob_helper, sample_spec, realized_steps,
    tf_scan.
  unfold _step_axes.
  split; intros E.
  - invert_steps.
    match goal with
    | E : tf_range _ _ = Ok _ |- _ => apply tf_range_inv in E as [_ ->]
    end.
    match goal with
    | E : scan_loop _ _ _ _ _ = Ok _ |- _ =>
        rewrite range_tensor_data in E;
        apply scan_loop_steps in E as [Esteps _]
    end.
    pose proof Esteps as Hnone. apply chain_steps_sample_only in Hnone.
    match goal with
    | E : call_sample_attr _ _ _ _ _ = Ok (?r, _) |- _ =>
        pose proof E as Hr0; apply call_sample_attr_sample in Hr0;
        destruct r as [x0 o]; simpl in Hr0; subst o
    end.
    cbn [fst snd] in *.
    match goal with
    | E : stack_results _ _ = Ok _ |- _ =>
        rewrite (stack_results_sample _ _ Hnone) in E
    end.
    invert_steps.
    match goal with
    | E : map_result2 cons0 _ _ = Ok _ |- _ =>
        unfold map_result2 in E; simpl in E
    end.
    invert_steps.
    match goal with
    | E : map_structure2 _ _ (map _ (map _ _)) = Ok _ |- _ =>
        rewrite map_map, map_structure2_map_r in E
    end.
    build_run.
  - invert_steps.
    match goal with
    | E : call_sample_attr _ _ _ _ _ = Ok (?r, _) |- _ =>
        pose proof E as Hr0; apply call_sample_attr_sample in Hr0;
        destruct r as [x0 o]; simpl in Hr0; subst o
    end.
    cbn [fst snd map hd stack_states] in *. invert_steps.
    match goal with
    | E : stack_states _ _ = Ok _ |- _ =>
        destruct (stack_states_like _ _ _ E) as [Hfit _];
        rename E into Estack
    end.
    match goal with
    | E : chain_steps _ _ _ ?k ?t ?ls ?x ?w2 = Ok (?outs, ?w3) |- _ =>
        pose proof E as Hnone; apply chain_steps_sample_only in Hnone;
        assert (Hscan :
          scan_loop
            (_make_sample_loop_body split_seed (transition_fn self)
               attr_sample fst)
            (x, None)
            (data (range_tensor 1 (steps_value (num_steps self))))
            (ls, (x, None)) w2 = Ok (outs, w3));
        [ rewrite range_tensor_data; apply scan_loop_steps;
          split; [exact E |] |]
    end.
    { clear - Hfit Hnone. induction Hnone as [|[x' o] outs Ho _ IH];
        [constructor |].
      simpl in *. subst o. inversion Hfit; subst.
      constructor; [| auto].
      exists (x', None). unfold fits, map_result2; simpl.
      match goal with E : map_structure2 _ _ _ = Ok _ |- _ => rewrite E end.
      reflexivity. }
    build_run; cbn [fst snd].
    + rewrite (stack_results_sample _ _ Hnone), Estack. reflexivity.
    + eassumption.
    + reflexivity.
    + cbn [fst]. rewrite map_map, map_structure2_map_r. eassumption.
Qed.

End SampleRecurrence.

Lemma sample_is_recurrence_witness :
  _sample_n RandomWalk.split_seed RandomWalk.walk3 [2] 5%Z 0
  = Ok ([mk_ndarray [2; 2; 3]
           [16; 50; 120; 17; 52; 123; 18; 54; 126; 19; 56; 129]%Z], 3).
Proof.
  apply (sample_is_recurrence RandomWalk.split_seed RandomWalk.walk3);
    [simpl; lia | reflexivity].
Defined.

(** ** Arrays: rows, stacks and the movement of an axis *)

Section ArrayFacts.
Context {R : Type} `{Scalar R}.

Lemma swap_index_unit (c inner i : nat) : swap_index 1 c inner i = i.
Proof.
  unfold swap_index. rewrite Nat.mod_1_r, Nat.div_1_r, Nat.mul_1_r, Nat.add_0_r.
  rewrite (Nat.mul_comm (i / inner / c) c), <- Nat.div_mod_eq.
  rewrite (Nat.mul_comm (i / inner) inner), <- Nat.div_mod_eq.
  reflexivity.
Qed.

Lemma map_nth_seq (l : list R) (d : R) :
  map (fun i => nth i l d) (seq 0 (length l)) = l.
Proof.
  apply nth_ext with (d := d) (d' := d).
  - now rewrite length_map, length_seq.
  - intros n Hn. rewrite length_map, length_seq in Hn.
    rewrite (nth_indep _ d (nth 0 l d)) by now rewrite length_map, length_seq.
    rewrite (map_nth (fun i => nth i l d)).
    rewrite seq_nth by assumption. reflexivity.
Qed.

Lemma swap_blocks_unit (c inner : nat) (l : list R) :
  swap_blocks 1 c inner l = l.
Proof.
  unfold swap_blocks.
  transitivity (map (fun i => nth i l zero) (seq 0 (length l)));
    [| apply map_nth_seq].
  apply map_ext. intros i. now rewrite swap_index_unit.
Qed.

Lemma nth_map_seq {A} (f : nat -> A) (n j : nat) (d : A) :
  j < n -> nth j (map f (seq 0 n)) d = f j.
Proof.
  intros Hj.
  rewrite (nth_indep _ d (f 0)) by now rewrite length_map, length_seq.
  rewrite map_nth, seq_nth by assumption. reflexivity.
Qed.

(** Exchanging the two middle axes twice gives back every index. *)
Lemma swap_index_inverse (r c inner outer i : nat) :
  i < outer * (c * (r * inner)) ->
  swap_index r c inner i < outer * (c * (r * inner))
  /\ swap_index c r inner (swap_index r c inner i) = i.
Proof.
  intros Hi.
  assert (Hinner : inner <> 0) by (intros ->; lia).
  assert (Hr : r <> 0) by (intros ->; lia).
  assert (Hc : c <> 0) by (intros ->; lia).
  unfold swap_index.
  set (d := i mod inner). set (q := i / inner).
  set (ri := q mod r). set (q2 := q / r).
  set (ci := q2 mod c). set (a := q2 / c).
  assert (Hd : d < inner) by now apply Nat.mod_upper_bound.
  assert (Hri : ri < r) by now apply Nat.mod_upper_bound.
  assert (Hci : ci < c) by now apply Nat.mod_upper_bound.
  assert (Ei : i = inner * q + d) by apply Nat.div_mod_eq.
  assert (Eq : q = r * q2 + ri) by apply Nat.div_mod_eq.
  assert (Eq2 : q2 = c * a + ci) by apply Nat.div_mod_eq.
  assert (Ha : a < outer).
  { apply Nat.Div0.div_lt_upper_bound, Nat.Div0.div_lt_upper_bound,
      Nat.Div0.div_lt_upper_bound. lia. }
  clearbody d q ri q2 ci a.
  split.
  { assert (B1 : a * r + ri < outer * r) by nia.
    assert (B2 : (a * r + ri) * c + ci < outer * r * c) by nia.
    nia. }
  set (j := ((a * r + ri) * c + ci) * inner + d).
  assert (J1 : j mod inner = d)
    by (symmetry; apply Nat.mod_unique with ((a * r + ri) * c + ci);
        unfold j; lia).
  assert (J2 : j / inner = (a * r + ri) * c + ci)
    by (symmetry; apply Nat.div_unique with d; unfold j; lia).
  rewrite J1, J2.
  assert (K1 : ((a * r + ri) * c + ci) mod c = ci)
    by (symmetry; apply Nat.mod_unique with (a * r + ri); lia).
  assert (K2 : ((a * r + ri) * c + ci) / c = a * r + ri)
    by (symmetry; apply Nat.div_unique with ci; lia).
  rewrite K1, K2.
  assert (L1 : (a * r + ri) mod r = ri)
    by (symmetry; apply Nat.mod_unique with a; lia).
  assert (L2 : (a * r + ri) / r = a)
    by (symmetry; apply Nat.div_unique with ri; lia).
  rewrite L1, L2. nia.
Qed.

Lemma length_swap_blocks (r c inner : nat) (l : list R) :
  length (swap_blocks r c inner l) = length l.
Proof. unfold swap_blocks. now rewrite length_map, length_seq. Qed.

Lemma swap_blocks_involutive (r c inner outer : nat) (l : list R) :
  length l = outer * (c * (r * inner)) ->
  swap_blocks c r inner (swap_blocks r c inner l) = l.
Proof.
  intros Hl. unfold swap_blocks at 1. rewrite length_swap_blocks.
  transitivity (map (fun i => nth i l zero) (seq 0 (length l)));
    [| apply map_nth_seq].
  apply map_ext_in. intros i Hi. apply in_seq in Hi.
  assert (Hi' : i < outer * (r * (c * inner))) by lia.
  destruct (swap_index_inverse c r inner outer i Hi') as [B E].
  unfold swap_blocks. rewrite nth_map_seq by lia. now rewrite E.
Qed.

Lemma numel_app (a b : list nat) : numel (a ++ b) = numel a * numel b.
Proof.
  induction a as [|x a IH]; simpl; [lia |]. rewrite IH. lia.
Qed.

Lemma normalize_axis_neg (ndims : nat) (ax : Z) :
  (ax < 0)%Z -> normalize_axis ndims ax = (Z.of_nat ndims + ax)%Z.
Proof.
  intros Hax. unfold normalize_axis.
  now replace (ax <? 0)%Z with true by (symmetry; apply Z.ltb_lt; exact Hax).
Qed.

(** What moving the leading axis of [m :: rest] to a step-axis position
    [ax] does: nothing when the position is the first, and otherwise the
    [d] axes that followed come first. *)
Lemma move_dimension_from_front (m : nat) (rest : list nat) (dat : list R)
    (ax : Z) (y : ndarray R) :
  (ax < 0)%Z ->
  let d := Z.to_nat (Z.of_nat (S (length rest)) + ax) in
  move_dimension (mk_ndarray (m :: rest) dat) 0 ax = Ok y
  <-> ((Z.of_nat (S (length rest)) + ax = 0)%Z
       /\ y = mk_ndarray (m :: rest) dat)
      \/ (0 < d <= length rest
          /\ (0 < Z.of_nat (S (length rest)) + ax)%Z
          /\ length dat = m * numel rest
          /\ y = mk_ndarray (firstn d rest ++ m :: skipn d rest)
                    (swap_blocks m (numel (firstn d rest))
                       (numel (skipn d rest)) dat)).
Proof.
  intros Hax. unfold move_dimension. cbn [shape data length].
  rewrite (normalize_axis_neg _ _ Hax).
  change (normalize_axis (S (length rest)) 0) with 0%Z.
  set (dst := (Z.of_nat (S (length rest)) + ax)%Z).
  unfold well_formed. cbn [shape data numel fold_right]. fold (numel rest).
  destruct (0 =? dst)%Z eqn:E0.
  { apply Z.eqb_eq in E0. split.
    - intros [= <-]. left. split; [lia | reflexivity].
    - intros [[_ ->] | (? & ? & _)]; [reflexivity | lia]. }
  apply Z.eqb_neq in E0.
  unfold axis_in_range.
  replace (0 <=? 0)%Z with true by reflexivity.
  replace (0 <? Z.of_nat (S (length rest)))%Z with true
    by (symmetry; apply Z.ltb_lt; lia).
  cbn [andb].
  destruct (0 <=? dst)%Z eqn:Rg1; cbn [andb negb].
  2:{ apply Z.leb_gt in Rg1. split; [discriminate |].
      intros [[? _] | (_ & ? & _)]; lia. }
  apply Z.leb_le in Rg1.
  destruct (dst <? Z.of_nat (S (length rest)))%Z eqn:Rg2; cbn [negb].
  2:{ apply Z.ltb_ge in Rg2. split; [discriminate |].
      intros [[? _] | (? & _)]; lia. }
  apply Z.ltb_lt in Rg2.
  destruct (length dat =? m * numel rest) eqn:Wf; cbn [negb].
  2:{ apply Nat.eqb_neq in Wf. split; [discriminate |].
      intros [[? _] | (_ & _ & ? & _)]; [lia | contradiction]. }
  apply Nat.eqb_eq in Wf.
  change (Z.to_nat 0) with 0.
  replace (0 <? Z.to_nat dst) with true
    by (symmetry; apply Nat.ltb_lt; lia).
  rewrite Nat.sub_0_r. cbn [firstn nth app].
  destruct (Z.to_nat dst) as [|d'] eqn:Ed; [lia |].
  change (skipn 1 (m :: rest)) with rest.
  change (skipn (S (S d')) (m :: rest)) with (skipn (S d') rest).
  split.
  - intros [= <-]. right. repeat split; lia.
  - intros [[? _] | (_ & _ & _ & ->)]; [lia | reflexivity].
Qed.

(** Moving the leading axis to a step-axis position, and back. *)
Lemma move_dimension_round_trip (x y : ndarray R) (ax : Z) :
  (ax < 0)%Z ->
  move_dimension x 0 ax = Ok y ->
  move_dimension y ax 0 = Ok x.
Proof.
  intros Hax Hmv. destruct x as [[|m rest] dat].
  { exfalso. unfold move_dimension in Hmv. cbn [shape length] in Hmv.
    rewrite (normalize_axis_neg _ _ Hax) in Hmv.
    change (normalize_axis 0 0) with 0%Z in Hmv.
    match type of Hmv with
    | (if ?b then _ else _) = _ => destruct b eqn:E0
    end; [apply Z.eqb_eq in E0; lia |].
    match type of Hmv with
    | (if negb ?b then _ else _) = _ => destruct b eqn:E1
    end; [| discriminate].
    apply andb_true_iff in E1 as [_ E1]. unfold axis_in_range in E1.
    apply andb_true_iff in E1 as [E1 _]. apply Z.leb_le in E1. lia. }
  apply move_dimension_from_front in Hmv; [| exact Hax].
  destruct Hmv as [[E0 ->] | (Hd & Hpos & Wf & ->)].
  - unfold move_dimension. cbn [shape length].
    rewrite (normalize_axis_neg _ _ Hax), E0. reflexivity.
  - set (dst := (Z.of_nat (S (length rest)) + ax)%Z) in *.
    set (d := Z.to_nat dst) in *.
    set (C := firstn d rest). set (D := skipn d rest).
    assert (HC : length C = d) by (unfold C; rewrite length_firstn; lia).
    assert (Hrest : rest = C ++ D) by (symmetry; apply firstn_skipn).
    assert (Hnum : numel rest = numel C * numel D)
      by (rewrite Hrest at 1; apply numel_app).
    assert (Hlen : length (C ++ m :: D) = S (length rest)).
    { rewrite length_app. cbn [length]. unfold D.
      rewrite length_skipn. lia. }
    unfold move_dimension. cbn [shape data]. rewrite Hlen.
    rewrite (normalize_axis_neg _ _ Hax). fold dst.
    change (normalize_axis (S (length rest)) 0) with 0%Z.
    replace (dst =? 0)%Z with false by (symmetry; apply Z.eqb_neq; lia).
    unfold axis_in_range.
    replace (0 <=? dst)%Z with true by (symmetry; apply Z.leb_le; lia).
    replace (dst <? Z.of_nat (S (length rest)))%Z with true
      by (symmetry; apply Z.ltb_lt; lia).
    replace (0 <=? 0)%Z with true by reflexivity.
    replace (0 <? Z.of_nat (S (length rest)))%Z with true
      by (symmetry; apply Z.ltb_lt; lia).
    cbn [andb negb].
    unfold well_formed. cbn [shape data].
    rewrite length_swap_blocks, numel_app. cbn [numel fold_right].
    fold (numel D).
    replace (length dat =? numel C * (m * numel D)) with true
      by (symmetry; apply Nat.eqb_eq; rewrite Wf, Hnum; lia).
    cbn [negb]. fold d. change (Z.to_nat 0) with 0.
    replace (d <? 0) with false by reflexivity.
    rewrite Nat.sub_0_r.
    change (skipn 0 (C ++ m :: D)) with (C ++ m :: D).
    cbn [firstn app].
    rewrite app_nth2 by lia. rewrite HC, Nat.sub_diag. cbn [nth].
    rewrite firstn_app, HC, Nat.sub_diag. cbn [firstn].
    rewrite app_nil_r.
    replace (firstn d C) with C
      by (symmetry; rewrite <- HC; apply firstn_all).
    replace (skipn (S d) (C ++ m :: D)) with D.
    2:{ rewrite skipn_app, HC.
        replace (S d - d) with 1 by lia.
        rewrite skipn_all2 by lia. reflexivity. }
    rewrite (swap_blocks_involutive m (numel C) (numel D) 1)
      by (rewrite Wf, Hnum; lia).
    now rewrite <- Hrest.
Qed.

(** Stacking a single array: the first row of an empty stack. *)
Lemma cons0_empty_like (a : ndarray R) :
  cons0 a (empty_like a)
  = if well_formed a then Ok (mk_ndarray (1 :: shape a) (data a))
    else Err ill_formed.
Proof.
  unfold cons0, concat0, expand0, empty_like, well_formed.
  cbn [shape data length numel fold_right]. fold (numel (shape a)).
  rewrite Nat.mul_1_l, Nat.mul_0_l. cbn [Nat.eqb andb].
  rewrite andb_true_r.
  destruct (length (data a) =? numel (shape a)); cbn [negb];
    [| reflexivity].
  destruct (list_eq_dec Nat.eq_dec (shape a) (shape a)); [| contradiction].
  now rewrite app_nil_r.
Qed.

(** A single draw, stacked and with its leading axis moved to the step
    axis, is the draw with a unit axis inserted there. *)
Lemma expand_dims_as_move (a y : ndarray R) (ax : Z) :
  (ax < 0)%Z ->
  (exists c, cons0 a (empty_like a) = Ok c /\ move_dimension c 0 ax = Ok y)
  <-> expand_dims a ax = Ok y.
Proof.
  intros Hax. rewrite cons0_empty_like. unfold expand_dims.
  destruct (well_formed a) eqn:Wf; cbn [negb].
  2:{ split; [intros (c & E & _) |]; discriminate. }
  unfold well_formed in Wf. apply Nat.eqb_eq in Wf.
  set (pos := (Z.of_nat (length (shape a)) + 1 + ax)%Z).
  assert (Epos : (Z.of_nat (S (length (shape a))) + ax)%Z = pos)
    by (unfold pos; lia).
  split.
  - intros (c & [= <-] & Mv).
    apply move_dimension_from_front in Mv; [| exact Hax].
    rewrite Epos in Mv.
    destruct Mv as [[E0 ->] | (Hd & Hpos & _ & ->)].
    + rewrite E0.
      replace (0 <=? Z.of_nat (length (shape a)))%Z with true
        by (symmetry; apply Z.leb_le; lia).
      reflexivity.
    + replace (0 <=? pos)%Z with true by (symmetry; apply Z.leb_le; lia).
      replace (pos <=? Z.of_nat (length (shape a)))%Z with true
        by (symmetry; apply Z.leb_le; lia).
      cbn [andb]. now rewrite swap_blocks_unit.
  - destruct (0 <=? pos)%Z eqn:P1; cbn [andb]; try discriminate.
    destruct (pos <=? Z.of_nat (length (shape a)))%Z eqn:P2;
      try discriminate.
    apply Z.leb_le in P1, P2. intros [= <-].
    eexists; split; [reflexivity |].
    apply move_dimension_from_front; [exact Hax |]. rewrite Epos.
    destruct (Z.eq_dec pos 0) as [-> | Hne].
    + left. split; reflexivity.
    + right. rewrite swap_blocks_unit. repeat split; lia.
Qed.

Lemma expand_dims_structure (x0 : list (ndarray R)) :
  forall (axes : list Z) (samples : list (ndarray R)),
    Forall (fun ax => (ax < 0)%Z) axes ->
    (exists xs,
        map_structure2 cons0 x0 (map empty_like x0) = Ok xs
        /\ map_structure2 (fun x axis => move_dimension x 0 axis) xs axes
           = Ok samples)
    <-> map_structure2 expand_dims x0 axes = Ok samples.
Proof.
  induction x0 as [|a x0 IH]; intros axes samples Hneg.
  - cbn [map map_structure2]. split.
    + intros (xs & [= <-] & E). exact E.
    + intros E. exists []. split; [reflexivity | exact E].
  - cbn [map map_structure2]. destruct axes as [|ax axes].
    { split; [| discriminate].
      intros (xs & E & Mv). apply bind_Ok in E as (c & _ & E).
      apply bind_Ok in E as (cs & _ & [= <-]). discriminate Mv. }
    inversion Hneg as [|? ? Hax Hneg']; subst.
    split.
    + intros (xs & E & Mv).
      apply bind_Ok in E as (c & Ec & E).
      apply bind_Ok in E as (cs & Ecs & [= <-]).
      cbn [map_structure2] in Mv.
      apply bind_Ok in Mv as (y & Ey & Mv).
      apply bind_Ok in Mv as (ys & Eys & [= <-]).
      apply bind_Ok. exists y. split.
      * apply expand_dims_as_move; [exact Hax | eauto].
      * apply bind_Ok. exists ys. split; [| reflexivity].
        apply IH; [exact Hneg' | eauto].
    + intros E. apply bind_Ok in E as (y & Ey & E).
      apply bind_Ok in E as (ys & Eys & [= <-]).
      apply expand_dims_as_move in Ey as (c & Ec & Mc); [| exact Hax].
      apply IH in Eys as (cs & Ecs & Mcs); [| exact Hneg'].
      exists (c :: cs). split.
      * rewrite Ec, Ecs. reflexivity.
      * cbn [map_structure2]. now rewrite Mc, Mcs.
Qed.

(** *** Rounding-free arithmetic *)

Section Exact.
Context `{!ExactScalar R}.

Lemma add_0_r (a : R) : add a zero = a.
Proof. now rewrite add_comm, add_0_l. Qed.

Lemma map2_add_zeros (l : list R) :
  map2 add l (repeat zero (length l)) = l.
Proof.
  induction l as [|a l IH]; cbn [length repeat map2]; [reflexivity |].
  now rewrite add_0_r, IH.
Qed.

Lemma tensor_add_zeros (p : ndarray R) :
  well_formed p = true ->
  tensor_add p (zeros (shape p)) = Ok p.
Proof.
  intros Wf. unfold tensor_add, broadcast2. rewrite Wf.
  unfold zeros at 1, well_formed at 1. cbn [shape data].
  rewrite repeat_length, Nat.eqb_refl. cbn [andb negb].
  unfold zeros. cbn [shape data].
  destruct (list_eq_dec Nat.eq_dec (shape p) (shape p)); [| contradiction].
  unfold well_formed in Wf. apply Nat.eqb_eq in Wf.
  rewrite <- Wf, map2_add_zeros. now destruct p.
Qed.

End Exact.

End ArrayFacts.

(** ** Density evaluation, step by step *)

Section DensityFacts.
Context {R : Type} `{Scalar R} {Seed W : Type}.

Lemma step_axes_all_negative (self : MarkovChain R Seed W) :
  Forall (fun ax => (ax < 0)%Z) (_step_axes self).
Proof.
  apply Forall_forall. intros ax Hin.
  unfold _step_axes in Hin. apply in_map_iff in Hin as (nd & <- & _). lia.
Qed.

(** Where row 0 can be taken, the leading extent is at least 1, and the
    range of the step indices exists. *)
Lemma leading_extent_positive (xm x0 : state R) (n : Z) :
  map_structure (fun p => index0 p 0) xm = Ok x0 ->
  leading_extent xm = Ok n ->
  (1 <= n)%Z.
Proof.
  unfold leading_extent. destruct xm as [|t xm]; [discriminate |].
  cbn [map_structure]. intros E. apply bind_Ok in E as (b & Eb & _).
  unfold index0 in Eb. destruct (shape t) as [|k s]; [discriminate |].
  destruct (negb (well_formed t)); [discriminate |].
  destruct (0 <? k) eqn:Hk; [| discriminate].
  apply Nat.ltb_lt in Hk. intros [= <-]. lia.
Qed.

Lemma step_range (xm x0 : state R) (n : Z) :
  map_structure (fun p => index0 p 0) xm = Ok x0 ->
  leading_extent xm = Ok n ->
  tf_range 0 (n - 1) = Ok (range_tensor 0 (n - 1)).
Proof.
  intros E2 E4. apply tf_range_Ok.
  pose proof (leading_extent_positive _ _ _ E2 E4). lia.
Qed.

(** The calls [_log_prob_parts] makes, in order. *)
Lemma log_prob_parts_run (self : MarkovChain R Seed W) (x xm x0 : state R)
    (prior_lp : Tensor R) (n : Z) (previous current : state R)
    (dist : Distribution R Seed W) (lps : Tensor R) :
  steps_leftmost self x = Ok xm ->
  map_structure (fun p => index0 p 0) xm = Ok x0 ->
  log_prob (initial_state_prior self) x0 = Ok prior_lp ->
  leading_extent xm = Ok n ->
  map_structure (fun p => slice0 p 0 (n - 1)) xm = Ok previous ->
  transition_fn self (range_tensor 0 (n - 1)) previous = Ok dist ->
  map_structure (fun p => slice0 p 1 n) xm = Ok current ->
  log_prob dist current = Ok lps ->
  _log_prob_parts self x = Ok (prior_lp, lps).
Proof.
  unfold steps_leftmost, _log_prob_parts.
  intros E1 E2 E3 E4 E5 E6 E7 E8.
  rewrite E1; cbn [bind]. rewrite E2; cbn [bind]. rewrite E3; cbn [bind].
  rewrite E4; cbn [bind]. rewrite (step_range _ _ _ E2 E4); cbn [bind].
  rewrite E5; cbn [bind]. rewrite E6; cbn [bind].
  rewrite E7; cbn [bind]. rewrite E8; cbn [bind]. reflexivity.
Qed.

(** Conversely, what a successful run of [_log_prob_parts] has done. *)
Lemma log_prob_parts_inv (self : MarkovChain R Seed W) (x : state R)
    (prior_lp lps : Tensor R) :
  _log_prob_parts self x = Ok (prior_lp, lps) ->
  exists xm x0 n previous dist current,
    steps_leftmost self x = Ok xm
    /\ map_structure (fun p => index0 p 0) xm = Ok x0
    /\ log_prob (initial_state_prior self) x0 = Ok prior_lp
    /\ leading_extent xm = Ok n
    /\ (1 <= n)%Z
    /\ map_structure (fun p => slice0 p 0 (n - 1)) xm = Ok previous
    /\ transition_fn self (range_tensor 0 (n - 1)) previous = Ok dist
    /\ map_structure (fun p => slice0 p 1 n) xm = Ok current
    /\ log_prob dist current = Ok lps.
Proof.
  unfold _log_prob_parts, steps_leftmost. intros E.
  apply bind_Ok in E as (xm & E1 & E).
  apply bind_Ok in E as (x0 & E2 & E).
  apply bind_Ok in E as (p & E3 & E).
  apply bind_Ok in E as (n & E4 & E).
  apply bind_Ok in E as (steps & Er & E).
  apply bind_Ok in E as (previous & E5 & E).
  apply bind_Ok in E as (dist & E6 & E).
  apply bind_Ok in E as (current & E7 & E).
  apply bind_Ok in E as (l & E8 & E).
  injection E as <- <-.
  apply tf_range_inv in Er as [Hn ->].
  exists xm, x0, n, previous, dist, current.
  repeat split; try assumption. lia.
Qed.

Lemma log_prob_of_parts (self : MarkovChain R Seed W) (x : state R)
    (prior_lp lps : Tensor R) (transition_lp : ndarray R) :
  _log_prob_parts self x = Ok (prior_lp, lps) ->
  _sum_fn self (value lps) = Ok transition_lp ->
  _log_prob self x
  = (deps <- _assert_same_shape prior_lp
               (mk_Tensor (reduced_static_shape (static_shape lps))
                  transition_lp)
               shapes_message (validate_args self) ;;
     _ <- control_dependencies deps ;;
     tensor_add (value prior_lp) transition_lp).
Proof.
  unfold _log_prob. intros -> . cbn [bind]. intros ->. reflexivity.
Qed.

(** The shape check passes on equal shapes that are statically
    compatible. *)
Lemma same_shape_check_passes {B} (x y : Tensor R) (message : string)
    (validate : bool) (k : result B) :
  is_compatible_with (static_shape x) (static_shape y) = true ->
  shape (value x) = shape (value y) ->
  (deps <- _assert_same_shape x y message validate ;;
   _ <- control_dependencies deps ;;
   k) = k.
Proof.
  intros C E. unfold _assert_same_shape. rewrite C. cbn [negb bind].
  destruct (validate && _); cbn [control_dependencies run_assertion bind];
    [| reflexivity].
  rewrite E, broadcast_all_equal_refl. reflexivity.
Qed.

End DensityFacts.

(** ** A chain of one step is its prior (C5) *)

Section OneStep.
Context {R : Type} `{Scalar R} {Seed W : Type}.
Variable split_seed : Seed -> option string -> M W (Seed * Seed).

Lemma one_step_sample (self : MarkovChain R Seed W)
    (sample_shape : list nat) (seed : Seed) (w w' : W) (x : state R) :
  steps_value (num_steps self) = 1%Z ->
  _sample_n split_seed self sample_shape seed w = Ok (x, w')
  <-> prior_sample_with_step_axis split_seed self sample_shape seed w
      = Ok (x, w').
Proof.
  intros Hone.
  assert (Hrange : tf_range 1 (steps_value (num_steps self))
                   = Ok (mk_ndarray [0] []))
    by (rewrite Hone; reflexivity).
  unfold _sample_n, _sample_and_log_prob_helper,
    prior_sample_with_step_axis, tf_scan, call_sample_attr.
  split; intros E; invert_steps.
  - match goal with
    | E : tf_range _ _ = Ok _ |- _ =>
        rewrite Hrange in E; injection E as <-
    end.
    cbn [data scan_loop] in *. invert_steps.
    cbn [fst snd stack_results] in *. invert_steps.
    unfold empty_result_like, map_result2 in *.
    cbn [fst snd option_map] in *. invert_steps.
    cbn [fst snd option_map] in *. invert_steps.
    build_run.
    apply expand_dims_structure; [apply step_axes_all_negative |].
    cbn [fst] in *. eauto.
  - match goal with
    | E : map_structure2 expand_dims _ _ = Ok _ |- _ =>
        apply expand_dims_structure in E as (xs & Exs & Mxs);
        [| apply step_axes_all_negative]
    end.
    build_run.
Qed.

(** X17: with [num_steps = 1] the scan never runs its body and [sample]
    is a draw from the prior (with the prior seed of the split) given its
    step axis of extent 1; and, for a chain that sums plainly (no
    compensated-sum flag), the log-density of a trajectory of one step
    is the prior's log-density of that step, when the transition rule
    answers the row-less call with row-less log-densities of the prior's
    batch shape, in rounding-free arithmetic. *)
Theorem one_step_chain_is_prior (Hexact : ExactScalar R)
    (self : MarkovChain R Seed W) :
  (steps_value (num_steps self) = 1%Z ->
   tf_range 1 (steps_value (num_steps self)) = Ok (mk_ndarray [0] [])
   /\ (forall (fn : Seed * sample_result R -> Z -> M W (Seed * sample_result R))
              (init : Seed * sample_result R) (w : W),
          tf_scan fn (mk_ndarray [0] []) init w
          = Ok (empty_result_like (snd init), w))
   /\ (forall sample_shape seed w w' x,
          _sample_n split_seed self sample_shape seed w = Ok (x, w')
          <-> prior_sample_with_step_axis split_seed self sample_shape seed w
              = Ok (x, w')))
  /\ (experimental_use_kahan_sum self = false ->
      forall x xm x0 prior_lp previous current dist lps,
         steps_leftmost self x = Ok xm ->
         leading_extent xm = Ok 1%Z ->
         map_structure (fun p => index0 p 0) xm = Ok x0 ->
         log_prob (initial_state_prior self) x0 = Ok prior_lp ->
         map_structure (fun p => slice0 p 0 (1 - 1)) xm = Ok previous ->
         transition_fn self (range_tensor 0 (1 - 1)) previous = Ok dist ->
         map_structure (fun p => slice0 p 1 1) xm = Ok current ->
         log_prob dist current = Ok lps ->
         shape (value lps) = 0 :: shape (value prior_lp) ->
         well_formed (value lps) = true ->
         well_formed (value prior_lp) = true ->
         is_compatible_with (static_shape prior_lp)
           (reduced_static_shape (static_shape lps)) = true ->
         _log_prob self x = Ok (value prior_lp)).
Proof.
  split.
  - intros Hone. split; [rewrite Hone; reflexivity | split].
    + intros fn init w. reflexivity.
    + intros sample_shape seed w w' x. now apply one_step_sample.
  - intros Hflag x xm x0 prior_lp previous current dist lps
      Hmove Hext Hx0 Hprior Hprev Hdist Hcur Hlps Hshape Wl Wp Hcompat.
    rewrite (log_prob_of_parts self x prior_lp lps
               (zeros (shape (value prior_lp)))
               (log_prob_parts_run self x xm x0 prior_lp 1 previous current
                  dist lps Hmove Hx0 Hprior Hext Hprev Hdist Hcur Hlps)
               (sum_fn_empty self _ _ Hflag Hshape Wl)).
    rewrite same_shape_check_passes; [| exact Hcompat | reflexivity].
    now apply tensor_add_zeros.
Qed.

End OneStep.

Lemma one_step_chain_is_prior_witness :
  _sample_n RandomWalk.split_seed (RandomWalk.chain (StaticSteps 1) false true)
    [2] 5%Z 0
  = Ok ([mk_ndarray [2; 2; 1] [16; 17; 18; 19]%Z], 1)
  /\ _log_prob (RandomWalk.chain (StaticSteps 1) false true)
       RandomWalk.single_step
     = Ok (mk_ndarray [2] [-256; -289]%Z).
Proof.
  destruct (one_step_chain_is_prior RandomWalk.split_seed Z_ExactScalar
              (RandomWalk.chain (StaticSteps 1) false true)) as [S L].
  split.
  - apply (proj2 (proj2 (S eq_refl))). reflexivity.
  - exact (L eq_refl RandomWalk.single_step
             [mk_ndarray [1; 2] [16; 17]%Z]
             [mk_ndarray [2] [16; 17]%Z]
             (mk_Tensor (known_shape [2]) (mk_ndarray [2] [-256; -289]%Z))
             [mk_ndarray [0; 2] []]
             [mk_ndarray [0; 2] []]
             (RandomWalk.walk (mk_ndarray [0] []) (mk_ndarray [0; 2] []))
             (mk_Tensor (known_shape [0; 2]) (mk_ndarray [0; 2] []))
             eq_refl eq_refl eq_refl eq_refl eq_refl eq_refl eq_refl eq_refl
             eq_refl eq_refl eq_refl eq_refl).
Defined.

(** C5: a one-step chain constructed with the compensated-sum flag is not
    its prior.  Its sample is the prior's draw with the step axis, but the
    log-density of that one-step trajectory is not the prior's: the prior
    returns [-256; -289] for the step, and the chain raises, because
    [_sum_fn] asks the result of [reduce_kahan_sum] for its [value], an
    attribute the named tuple [Kahan(total, correction)] does not have. *)
Lemma one_step_flagged_chain_raises :
  let chain := RandomWalk.chain (StaticSteps 1) true true in
  _sample_n RandomWalk.split_seed chain [2] 5%Z 0
  = Ok ([mk_ndarray [2; 2; 1] [16; 17; 18; 19]%Z], 1)
  /\ (x0 <- map_structure (fun state_part => index0 state_part 0)
              [mk_ndarray [1; 2] [16; 17]%Z] ;;
      prior_lp <- log_prob (initial_state_prior chain) x0 ;;
      Ok (value prior_lp))
     = Ok (mk_ndarray [2] [-256; -289]%Z)
  /\ chain_log_prob chain RandomWalk.single_step
     = Err (AttributeError no_value_message).
Proof. cbv zeta. repeat split. Qed.

(** ** Reductions over the step axis *)

Section Reductions.
Context {R : Type} `{Scalar R}.

Lemma nth_firstn_skipn (l : list R) (k b j : nat) (d : R) :
  j < k -> nth j (firstn k (skipn b l)) d = nth (b + j) l d.
Proof.
  intros Hj. rewrite nth_firstn.
  replace (j <? k) with true by (symmetry; apply Nat.ltb_lt; exact Hj).
  apply nth_skipn.
Qed.


Lemma map2_map_seq {A B} (f : A -> R -> B) (g : nat -> A) (d : R)
    (k : nat) :
  forall (start : nat) (l : list R),
    length l = k ->
    map2 f (map g (seq start k)) l
    = map (fun j => f (g j) (nth (j - start) l d)) (seq start k).
Proof.
  induction k as [|k IH]; intros start [|a l]; simpl; try discriminate;
    auto.
  intros [= Hl]. rewrite Nat.sub_diag. f_equal.
  rewrite (IH (S start) l Hl). apply map_ext_in.
  intros j Hj. apply in_seq in Hj.
  replace (j - start) with (S (j - S start)) by lia. reflexivity.
Qed.

Lemma map2_seq_both {B} (f : R -> R -> B) (d : R) (l1 l2 : list R) :
  length l1 = length l2 ->
  map2 f l1 l2
  = map (fun j => f (nth j l1 d) (nth j l2 d)) (seq 0 (length l1)).
Proof.
  intros Hl. rewrite <- (map_nth_seq l1 d) at 1.
  rewrite (map2_map_seq f (fun j => nth j l1 d) d (length l1) 0 l2
             (eq_sym Hl)).
  apply map_ext. intros j. now rewrite Nat.sub_0_r.
Qed.

(** A binary operation on two arrays of one shape is elementwise. *)
Lemma broadcast2_same_shape (f : R -> R -> R) (x y : ndarray R) :
  well_formed x = true ->
  well_formed y = true ->
  shape x = shape y ->
  broadcast2 f x y = Ok (mk_ndarray (shape x) (map2 f (data x) (data y))).
Proof.
  intros Wx Wy E. unfold broadcast2. rewrite Wx, Wy. cbn [andb negb].
  destruct (list_eq_dec Nat.eq_dec (shape x) (shape y));
    [reflexivity | contradiction].
Qed.

Lemma column_S (k n : nat) (l : list R) (j : nat) :
  column k (S n) l j = column k n l j ++ [nth (n * k + j) l zero].
Proof. unfold column. now rewrite seq_S, map_app. Qed.

(** The reduction, row after row: after [k] rows each element holds the
    sum of the first [k] entries of its column. *)
Lemma sum_steps_columns (x : ndarray R) (n : nat) (s : list nat) :
  shape x = n :: s ->
  well_formed x = true ->
  forall k,
    k <= n ->
    sum_steps x k
    = Ok (mk_ndarray s
            (map (fun j => fold_left add (column (numel s) k (data x) j) zero)
                 (seq 0 (numel s)))).
Proof.
  intros Hs Wf. pose proof Wf as Wf'.
  unfold well_formed in Wf'. rewrite Hs in Wf'.
  cbn [numel fold_right] in Wf'. fold (numel s) in Wf'.
  apply Nat.eqb_eq in Wf'.
  induction k as [|k IH]; intros Hk.
  - cbn [sum_steps]. rewrite Hs. cbn [tl]. f_equal. f_equal.
    symmetry. apply (map_const_seq zero 0 (numel s)).
  - cbn [sum_steps]. rewrite IH by lia. cbn [bind].
    unfold index0. rewrite Hs, Wf. cbn [negb].
    replace (k <? n) with true by (symmetry; apply Nat.ltb_lt; lia).
    cbn [bind]. unfold tensor_add.
    rewrite broadcast2_same_shape; cbn [shape data]; try reflexivity.
    + f_equal. f_equal.
      rewrite (map2_map_seq add _ zero (numel s) 0).
      * apply map_ext_in. intros j Hj. apply in_seq in Hj.
        rewrite column_S, fold_left_app. cbn [fold_left].
        rewrite Nat.sub_0_r, nth_firstn_skipn by lia. reflexivity.
      * rewrite length_firstn, length_skipn. nia.
    + unfold well_formed. cbn [shape data].
      rewrite length_map, length_seq. apply Nat.eqb_refl.
    + unfold well_formed. cbn [shape data].
      rewrite length_firstn, length_skipn. apply Nat.eqb_eq. nia.
Qed.

Lemma reduce_sum_steps (x : ndarray R) :
  reduce_sum x
  = match shape x with
    | [] => Err (InvalidArgumentError "Invalid reduction dimension 0")
    | n :: _ =>
        if negb (well_formed x) then Err ill_formed else sum_steps x n
    end.
Proof.
  unfold reduce_sum. destruct (shape x) as [|n s] eqn:Hs; [reflexivity |].
  destruct (well_formed x) eqn:Wf; cbn [negb]; [| reflexivity].
  now rewrite (sum_steps_columns x n s Hs Wf n (Nat.le_refl n)).
Qed.

End Reductions.

(** ** Reductions in rounding-free arithmetic *)

Section ExactReductions.
Context {R : Type} `{Scalar R} `{!ExactScalar R}.

Lemma add_cancel_r (x y b : R) : add x b = add y b -> x = y.
Proof.
  intros E.
  assert (Inv : add b (sub zero b) = zero) by (rewrite add_comm; apply sub_add).
  rewrite <- (add_0_r x), <- (add_0_r y), <- Inv, !add_assoc, E.
  reflexivity.
Qed.

Lemma sub_unique (a b c : R) : add c b = a -> sub a b = c.
Proof. intros E. apply (add_cancel_r _ _ b). now rewrite sub_add. Qed.

Lemma sub_0_r (a : R) : sub a zero = a.
Proof. apply sub_unique, add_0_r. Qed.

Lemma sub_diag (a : R) : sub a a = zero.
Proof. apply sub_unique, add_0_l. Qed.

Lemma add_sub_l (t x : R) : sub (add t x) t = x.
Proof. apply sub_unique, add_comm. Qed.


(** Without rounding the correction term stays zero. *)
Lemma kahan_step_exact (t x : R) : kahan_step (t, zero) x = (add t x, zero).
Proof.
  unfold kahan_step. now rewrite sub_0_r, add_sub_l, sub_diag.
Qed.

Lemma fold_kahan_exact (l : list R) :
  forall t, fold_left kahan_step l (t, zero) = (fold_left add l t, zero).
Proof.
  induction l as [|x l IH]; intros t; cbn [fold_left]; [reflexivity |].
  now rewrite kahan_step_exact, IH.
Qed.

Lemma fold_add_shift (l : list R) :
  forall a t, fold_left add l (add a t) = add a (fold_left add l t).
Proof.
  induction l as [|x l IH]; intros a t; cbn [fold_left]; [reflexivity |].
  now rewrite <- add_assoc, IH.
Qed.


(** The total of the compensated sum and the plain sum agree. *)
Lemma reduce_kahan_sum_exact (x : ndarray R) :
  (k <- reduce_kahan_sum x ;; Ok (total k)) = reduce_sum x.
Proof.
  unfold reduce_kahan_sum, reduce_sum.
  destruct (shape x) as [|n s]; [reflexivity |].
  destruct (negb (well_formed x)); [reflexivity |].
  cbn [bind total]. f_equal. f_equal.
  rewrite map_map. apply map_ext. intros j.
  now rewrite fold_kahan_exact.
Qed.

End ExactReductions.

(** ** Slices of the trajectory *)

Section Slices.
Context {A : Type}.

Lemma map_structure_Forall2 {B} (f : A -> result B) (xs : list A) :
  forall ys,
    map_structure f xs = Ok ys ->
    Forall2 (fun x y => f x = Ok y) xs ys.
Proof.
  induction xs as [|x xs IH]; cbn [map_structure]; intros ys E.
  - injection E as <-. constructor.
  - apply bind_Ok in E as (y & Ey & E).
    apply bind_Ok in E as (ys' & Eys & [= <-]).
    constructor; auto.
Qed.

Lemma clamp_index_le (n : nat) (i : Z) : clamp_index n i <= n.
Proof. unfold clamp_index. destruct (i <? 0)%Z; lia. Qed.

Lemma clamp_index_nat (n i : nat) : i <= n -> clamp_index n (Z.of_nat i) = i.
Proof.
  intros Hi. unfold clamp_index.
  replace (Z.of_nat i <? 0)%Z with false by (symmetry; apply Z.ltb_ge; lia).
  lia.
Qed.

Lemma clamp_index_0 (n : nat) : clamp_index n 0 = 0.
Proof. unfold clamp_index. cbn [Z.ltb Z.compare]. lia. Qed.

Lemma clamp_index_1 (n : nat) : 1 <= n -> clamp_index n 1 = 1.
Proof. intros Hn. unfold clamp_index. cbn [Z.ltb Z.compare]. lia. Qed.

Lemma clamp_index_pred (n : nat) : clamp_index n (Z.of_nat n - 1) = n - 1.
Proof.
  unfold clamp_index.
  destruct (Z.of_nat n - 1 <? 0)%Z eqn:E;
    [apply Z.ltb_lt in E | apply Z.ltb_ge in E]; lia.
Qed.

(** The extent of a slice. *)
Lemma slice0_shape (t p : ndarray A) (b e : Z) (n : nat) (s : list nat) :
  shape t = n :: s ->
  slice0 t b e = Ok p ->
  shape p = (clamp_index n e - clamp_index n b) :: s
  /\ well_formed t = true.
Proof.
  intros Hs. unfold slice0. rewrite Hs.
  destruct (well_formed t); cbn [negb]; [| discriminate].
  intros [= <-]. split; reflexivity.
Qed.

(** Row [i] of a slice is row [b + i] of the array. *)
Lemma index0_slice0 (t p : ndarray A) (b e : Z) (n : nat) (s : list nat)
    (i : nat) :
  shape t = n :: s ->
  slice0 t b e = Ok p ->
  i < clamp_index n e - clamp_index n b ->
  index0 p i = index0 t (clamp_index n b + i).
Proof.
  intros Hs Hp Hi.
  pose proof (clamp_index_le n e) as He.
  set (b' := clamp_index n b) in *. set (e' := clamp_index n e) in *.
  unfold slice0 in Hp. rewrite Hs in Hp.
  destruct (well_formed t) eqn:Wf; cbn [negb] in Hp; [| discriminate].
  injection Hp as <-. fold b' e'.
  unfold well_formed in Wf. rewrite Hs in Wf.
  cbn [numel fold_right] in Wf. fold (numel s) in Wf.
  apply Nat.eqb_eq in Wf.
  unfold index0. cbn [shape data]. rewrite Hs.
  unfold well_formed. cbn [shape data numel fold_right]. fold (numel s).
  rewrite Hs. cbn [numel fold_right]. fold (numel s).
  rewrite length_firstn, length_skipn, Wf.
  replace (Nat.min ((e' - b') * numel s) (n * numel s - b' * numel s)
           =? (e' - b') * numel s) with true
    by (symmetry; apply Nat.eqb_eq; nia).
  rewrite Nat.eqb_refl. cbn [negb].
  replace (i <? e' - b') with true by (symmetry; apply Nat.ltb_lt; lia).
  replace (b' + i <? n) with true by (symmetry; apply Nat.ltb_lt; lia).
  f_equal. f_equal.
  rewrite skipn_firstn_comm, firstn_firstn, skipn_skipn.
  replace (Nat.min (numel s) ((e' - b') * numel s - i * numel s))
    with (numel s) by nia.
  f_equal. f_equal. lia.
Qed.

End Slices.

(** ** Additivity of the log-density (C1) *)

Section Additivity.
Context {R : Type} `{Scalar R} {Seed W : Type}.

Lemma leading_extent_nat (xm : state R) (z : Z) :
  leading_extent xm = Ok z ->
  exists t xm' n s, xm = t :: xm' /\ shape t = n :: s /\ z = Z.of_nat n.
Proof.
  unfold leading_extent. destruct xm as [|t xm']; [discriminate |].
  destruct (shape t) as [|n s] eqn:Hs; [discriminate |].
  intros [= <-]. eauto 8.
Qed.

(** The slices handed to the vectorized call have one row less than the
    trajectory, and their row [t-1] is step [t-1], respectively step [t],
    of the trajectory. *)
Lemma previous_rows (n : nat) (xm previous : state R) :
  map_structure (fun p => slice0 p 0 (Z.of_nat n - 1)) xm = Ok previous ->
  Forall2 (fun leaf p =>
             leading_dim leaf = n ->
             leading_dim p = n - 1
             /\ forall t, 1 <= t < n -> index0 p (t - 1) = index0 leaf (t - 1))
    xm previous.
Proof.
  intros E. apply map_structure_Forall2 in E.
  eapply Forall2_impl; [| exact E]. cbv beta.
  intros leaf p Hp Hn. unfold leading_dim in *.
  destruct (shape leaf) as [|n' s] eqn:Hs.
  { unfold slice0 in Hp. rewrite Hs in Hp. discriminate. }
  cbn [hd] in Hn. subst n'.
  destruct (slice0_shape _ _ _ _ _ _ Hs Hp) as [Sp _].
  rewrite clamp_index_0, clamp_index_pred, Nat.sub_0_r in Sp.
  split; [now rewrite Sp |].
  intros t Ht.
  rewrite (index0_slice0 _ _ _ _ _ _ (t - 1) Hs Hp);
    rewrite clamp_index_0, ?clamp_index_pred;
    [reflexivity | lia].
Qed.

Lemma current_rows (n : nat) (xm current : state R) :
  map_structure (fun p => slice0 p 1 (Z.of_nat n)) xm = Ok current ->
  Forall2 (fun leaf c =>
             leading_dim leaf = n ->
             leading_dim c = n - 1
             /\ forall t, 1 <= t < n -> index0 c (t - 1) = index0 leaf t)
    xm current.
Proof.
  intros E. apply map_structure_Forall2 in E.
  eapply Forall2_impl; [| exact E]. cbv beta.
  intros leaf c Hc Hn. unfold leading_dim in *.
  destruct (shape leaf) as [|n' s] eqn:Hs.
  { unfold slice0 in Hc. rewrite Hs in Hc. discriminate. }
  cbn [hd] in Hn. subst n'.
  destruct (slice0_shape _ _ _ _ _ _ Hs Hc) as [Sc _].
  rewrite (clamp_index_nat n n (Nat.le_refl n)) in Sc.
  destruct n as [|n].
  { split; [now rewrite Sc | intros t Ht; lia]. }
  rewrite clamp_index_1 in Sc by lia.
  split; [now rewrite Sc |].
  intros t Ht.
  rewrite (index0_slice0 _ _ _ _ _ _ (t - 1) Hs Hc);
    rewrite ?(clamp_index_nat (S n) (S n) (Nat.le_refl _)),
      clamp_index_1 by lia;
    [f_equal; lia | lia].
Qed.

Lemma range_tensor_entries (n : nat) :
  shape (range_tensor 0 (Z.of_nat n - 1)) = [n - 1]
  /\ forall t, 1 <= t < n ->
       nth (t - 1) (data (range_tensor 0 (Z.of_nat n - 1))) 0%Z
       = Z.of_nat (t - 1).
Proof.
  unfold range_tensor. cbn [shape data].
  replace (Z.to_nat (Z.of_nat n - 1 - 0)) with (n - 1) by lia.
  split; [reflexivity |].
  intros t Ht. rewrite nth_map_seq by lia. lia.
Qed.

(** C1: when [log_prob] returns, its value is the prior's log-density of
    the step-0 slice plus the sum, row after row, of the transition
    log-densities; these come from one call of the transition function on
    the step indices [0 .. n-2] and on the slices [0 .. n-2] of the
    trajectory, evaluated at the slices [1 .. n-1]: arguments with [n-1]
    rows, whose row [t-1] is step [t-1], [x_(t-1)] and [x_t].  The sum is
    the plain one, taken in row order from zero: [log_prob] returns for no
    chain that has the compensated-sum flag. *)
Theorem log_prob_additive
    (self : MarkovChain R Seed W) (x : state R) (lp : ndarray R) :
  _log_prob self x = Ok lp ->
  exists (xm x0 previous current : state R) (prior_lp lps : Tensor R)
         (dist : Distribution R Seed W) (n : nat) (total : ndarray R),
    steps_leftmost self x = Ok xm
    /\ leading_extent xm = Ok (Z.of_nat n)
    /\ map_structure (fun p => index0 p 0) xm = Ok x0
    /\ log_prob (initial_state_prior self) x0 = Ok prior_lp
    /\ map_structure (fun p => slice0 p 0 (Z.of_nat n - 1)) xm = Ok previous
    /\ map_structure (fun p => slice0 p 1 (Z.of_nat n)) xm = Ok current
    /\ tf_range 0 (Z.of_nat n - 1) = Ok (range_tensor 0 (Z.of_nat n - 1))
    /\ transition_fn self (range_tensor 0 (Z.of_nat n - 1)) previous
       = Ok dist
    /\ log_prob dist current = Ok lps
    /\ shape (range_tensor 0 (Z.of_nat n - 1)) = [n - 1]
    /\ (forall t, 1 <= t < n ->
           nth (t - 1) (data (range_tensor 0 (Z.of_nat n - 1))) 0%Z
           = Z.of_nat (t - 1))
    /\ Forall2 (fun leaf p =>
                  leading_dim leaf = n ->
                  leading_dim p = n - 1
                  /\ forall t, 1 <= t < n ->
                       index0 p (t - 1) = index0 leaf (t - 1))
         xm previous
    /\ Forall2 (fun leaf c =>
                  leading_dim leaf = n ->
                  leading_dim c = n - 1
                  /\ forall t, 1 <= t < n ->
                       index0 c (t - 1) = index0 leaf t)
         xm current
    /\ sum_steps (value lps) (leading_dim (value lps)) = Ok total
    /\ tensor_add (value prior_lp) total = Ok lp.
Proof.
  unfold _log_prob, _log_prob_parts. intros E. invert_steps.
  match goal with
  | E : leading_extent _ = Ok _ |- _ =>
      destruct (leading_extent_nat _ _ E)
        as (leaf0 & xm' & n & s & -> & Hs & ->)
  end.
  match goal with
  | E : tf_range _ _ = Ok _ |- _ =>
      pose proof E as Hrange; apply tf_range_inv in E as [_ ->]
  end.
  match goal with
  | E : _sum_fn _ _ = Ok _ |- _ =>
      apply sum_fn_returns in E as [_ E]; rewrite reduce_sum_steps in E
  end.
  cbn [value] in *.
  match goal with
  | E : match shape (value ?l) with _ => _ end = Ok _ |- _ =>
      destruct (shape (value l)) as [|m sl] eqn:Hl; [discriminate |];
      destruct (negb (well_formed (value l))); [discriminate |]
  end.
  destruct (range_tensor_entries n) as [Hr1 Hr2].
  do 9 eexists. unfold steps_leftmost.
  repeat match goal with
         | |- _ /\ _ => split
         end; try eassumption.
  - now apply previous_rows.
  - now apply current_rows.
  - unfold leading_dim. rewrite Hl. cbn [hd]. eassumption.
Qed.

End Additivity.

Lemma log_prob_additive_witness :
  exists lps total,
    log_prob (RandomWalk.walk (mk_ndarray [2] [0; 1]%Z)
                (mk_ndarray [2; 2] [16; 17; 50; 52]%Z))
      [mk_ndarray [2; 2] [50; 52; 120; 123]%Z] = Ok lps
    /\ sum_steps (value lps) 2 = Ok total
    /\ tensor_add (mk_ndarray [2] [-256; -289]%Z) total
       = Ok (mk_ndarray [2] [-6313; -6556]%Z).
Proof.
  assert (E : _log_prob RandomWalk.walk3 RandomWalk.trajectory
              = Ok (mk_ndarray [2] [-6313; -6556]%Z)) by reflexivity.
  destruct (log_prob_additive RandomWalk.walk3 RandomWalk.trajectory _ E)
    as (xm & x0 & prev & cur & P & L & D & n & total
        & Hm & Hn & Hx0 & HP & Hprev & Hcur & _ & HD & HL & _ & _ & _ & _
        & Hsum & Hadd).
  vm_compute in Hm. injection Hm as <-.
  cbn [leading_extent shape] in Hn. injection Hn as Hn.
  assert (n = 3) by lia. subst n. clear Hn.
  vm_compute in Hx0. injection Hx0 as <-.
  vm_compute in HP. injection HP as <-.
  vm_compute in Hprev. injection Hprev as <-.
  vm_compute in Hcur. injection Hcur as <-.
  vm_compute in HD. injection HD as <-.
  exists L, total. split; [exact HL |].
  vm_compute in HL. injection HL as <-.
  split; [exact Hsum | exact Hadd].
Defined.

(** ** Stacks *)

Section Stacks.
Context {R : Type} `{Scalar R}.

Lemma well_formed_expand0 (a : ndarray R) :
  well_formed (expand0 a) = well_formed a.
Proof.
  unfold well_formed, expand0. cbn [shape data numel fold_right].
  fold (numel (shape a)). now rewrite Nat.mul_1_l.
Qed.

Lemma cons0_inv (a t c : ndarray R) :
  cons0 a t = Ok c ->
  exists nb,
    shape t = nb :: shape a
    /\ well_formed a = true
    /\ well_formed t = true
    /\ c = mk_ndarray (S nb :: shape a) (data a ++ data t).
Proof.
  unfold cons0, concat0. rewrite well_formed_expand0.
  cbn [shape data expand0].
  destruct (shape t) as [|nb sb]; [discriminate |].
  destruct (well_formed a), (well_formed t); cbn [andb negb];
    try discriminate.
  destruct (list_eq_dec Nat.eq_dec (shape a) sb) as [<- |];
    [| discriminate].
  intros [= <-]. eauto.
Qed.

(** The first row of a stack is the array stacked last. *)
Lemma index0_cons0 (a t c : ndarray R) :
  cons0 a t = Ok c -> index0 c 0 = Ok a.
Proof.
  intros E. apply cons0_inv in E as (nb & St & Wa & Wt & ->).
  unfold index0. cbn [shape data].
  unfold well_formed in *. cbn [shape data numel fold_right].
  fold (numel (shape a)).
  apply Nat.eqb_eq in Wa, Wt. rewrite St in Wt.
  cbn [numel fold_right] in Wt. fold (numel (shape a)) in Wt.
  rewrite length_app, Wa, Wt.
  replace (numel (shape a) + nb * numel (shape a)
           =? S nb * numel (shape a)) with true
    by (symmetry; apply Nat.eqb_eq; lia).
  cbn [negb Nat.ltb Nat.leb Nat.mul skipn].
  rewrite <- Wa, firstn_app, Nat.sub_diag, firstn_all. cbn [firstn].
  rewrite app_nil_r. now destruct a.
Qed.

Lemma index0_stack (x0 rest X : state R) :
  map_structure2 cons0 x0 rest = Ok X ->
  map_structure (fun p => index0 p 0) X = Ok x0.
Proof.
  revert rest X; induction x0 as [|a x0 IH]; intros [|t rest] X;
    cbn [map_structure2]; try discriminate.
  - intros [= <-]. reflexivity.
  - intros E. apply bind_Ok in E as (c & Ec & E).
    apply bind_Ok in E as (cs & Ecs & [= <-]).
    cbn [map_structure]. rewrite (index0_cons0 _ _ _ Ec). cbn [bind].
    rewrite (IH _ _ Ecs). reflexivity.
Qed.

(** A stack of [k] arrays has leading extent [k]. *)
Lemma stack_states_extent (like : state R) (xs : list (state R)) :
  forall s,
    stack_states like xs = Ok s ->
    Forall2 (fun l sl => shape sl = length xs :: shape l) like s.
Proof.
  induction xs as [|x xs IH]; cbn [stack_states length]; intros s E.
  - injection E as <-. induction like; cbn [map]; constructor; auto.
  - apply bind_Ok in E as (rest & Er & E). specialize (IH _ Er).
    clear Er. revert x s E.
    induction IH as [|l r like rest Hr F IHF]; intros [|a x] s E;
      cbn [map_structure2] in E; try discriminate.
    + injection E as <-. constructor.
    + apply bind_Ok in E as (c & Ec & E).
      apply bind_Ok in E as (cs & Ecs & [= <-]).
      constructor; [| eauto].
      apply cons0_inv in Ec as (nb & St & _ & _ & ->).
      cbn [shape]. rewrite Hr in St. injection St as -> ->. reflexivity.
Qed.

Lemma stack_arrays_shape (s : list nat) (l : list (ndarray R)) :
  forall t, stack_arrays s l = Ok t -> shape t = length l :: s.
Proof.
  induction l as [|a l IH]; cbn [stack_arrays length]; intros t E.
  - injection E as <-. reflexivity.
  - apply bind_Ok in E as (rest & Er & E).
    apply cons0_inv in E as (nb & St & _ & _ & ->).
    rewrite (IH _ Er) in St. injection St as -> ->. reflexivity.
Qed.

(** Moving the leading axis of every leaf to its step axis, and back. *)
Lemma steps_leftmost_round_trip (X samples : state R) (axes : list Z) :
  Forall (fun ax => (ax < 0)%Z) axes ->
  map_structure2 (fun x axis => move_dimension x 0 axis) X axes = Ok samples ->
  map_structure2 (fun t ax => move_dimension t ax 0) samples axes = Ok X.
Proof.
  intros Hneg. revert X samples.
  induction Hneg as [|ax axes Hax Hneg IH]; intros [|a X] samples;
    cbn [map_structure2]; try discriminate.
  - intros [= <-]. reflexivity.
  - intros E. apply bind_Ok in E as (c & Ec & E).
    apply bind_Ok in E as (cs & Ecs & [= <-]).
    cbn [map_structure2].
    rewrite (move_dimension_round_trip _ _ _ Hax Ec). cbn [bind].
    rewrite (IH _ _ Ecs). reflexivity.
Qed.

End Stacks.

(** ** The joint path agrees with density evaluation (C4) *)

Section Consistency.
Context {R : Type} `{Scalar R} `{!ExactScalar R} {Seed W : Type}.
Variable split_seed : Seed -> option string -> M W (Seed * Seed).

(** Summing a stack is adding its first row to the sum of the others. *)
Lemma reduce_sum_cons0 (a t c : ndarray R) :
  cons0 a t = Ok c ->
  reduce_sum c = (s <- reduce_sum t ;; tensor_add a s).
Proof.
  intros E. apply cons0_inv in E as (nb & St & Wa & Wt & ->).
  unfold reduce_sum. cbn [shape data]. rewrite St, Wt.
  pose proof Wa as Wa'. pose proof Wt as Wt'.
  unfold well_formed in Wa', Wt'. apply Nat.eqb_eq in Wa', Wt'.
  rewrite St in Wt'. cbn [numel fold_right] in Wt'.
  fold (numel (shape a)) in Wt'.
  set (k := numel (shape a)) in *.
  unfold well_formed at 1. cbn [shape data numel fold_right].
  fold (numel (shape a)). fold k.
  rewrite length_app, Wa', Wt'.
  replace (k + nb * k =? S nb * k) with true
    by (symmetry; apply Nat.eqb_eq; lia).
  cbn [negb bind]. unfold tensor_add.
  rewrite broadcast2_same_shape; cbn [shape data]; try reflexivity;
    try exact Wa.
  2:{ unfold well_formed. cbn [shape data]. fold k.
      rewrite length_map, length_seq. apply Nat.eqb_refl. }
  f_equal. f_equal.
  rewrite (map2_seq_both add zero) by (now rewrite length_map, length_seq).
  rewrite Wa'. apply map_ext_in. intros j Hj. apply in_seq in Hj.
  rewrite nth_map_seq by lia.
  unfold column. cbn [seq map fold_left]. rewrite Nat.add_0_l.
  rewrite app_nth1 by lia.
  rewrite <- seq_shift, map_map.
  rewrite (add_comm zero), fold_add_shift. f_equal. f_equal.
  apply map_ext. intros i. rewrite app_nth2 by lia.
  f_equal. lia.
Qed.

Lemma call_sample_attr_lp (dist : Distribution R Seed W)
    (sample_shape : list nat) (seed : Seed) (w w' : W) (r : sample_result R) :
  call_sample_attr dist attr_experimental_sample_and_log_prob sample_shape
    seed w = Ok (r, w') ->
  exists lp, snd r = Some lp.
Proof. unfold call_sample_attr. intros E. invert_steps. cbn. eauto. Qed.

Lemma chain_steps_lp (self : MarkovChain R Seed W) (k : nat) :
  forall t seed x w outs w',
    chain_steps split_seed self attr_experimental_sample_and_log_prob k t
      seed x w = Ok (outs, w') ->
    Forall (fun r => exists lp, snd r = Some lp) outs.
Proof.
  induction k as [|k IH]; intros t seed x w outs w' E;
    cbn [chain_steps] in E.
  - invert_steps. constructor.
  - invert_steps. constructor.
    + eapply call_sample_attr_lp; eassumption.
    + eapply IH; eassumption.
Qed.

(** The stacked loop outputs of the joint path: the stacked draws and the
    stacked log-densities. *)
Lemma stack_results_lp (x0 : state R) (lp0 : ndarray R)
    (outs : list (sample_result R)) :
  Forall (fun r => exists lp, snd r = Some lp) outs ->
  forall r,
    stack_results (x0, Some lp0) outs = Ok r ->
    exists X L,
      r = (X, Some L)
      /\ stack_states x0 (map fst outs) = Ok X
      /\ stack_arrays (shape lp0) (step_lps outs) = Ok L.
Proof.
  induction 1 as [|[x o] outs [lp Ho] _ IH]; intros r E.
  - cbn in E. injection E as <-. cbn.
    do 2 eexists. repeat split; reflexivity.
  - cbn [snd] in Ho. subst o. cbn [stack_results] in E.
    apply bind_Ok in E as (rest & Er & E).
    destruct (IH _ Er) as (X & L & -> & EX & EL).
    unfold map_result2 in E. cbn [fst snd] in E.
    apply bind_Ok in E as (xs & Exs & E).
    apply bind_Ok in E as (l & El & [= <-]).
    exists xs, l. split; [reflexivity |].
    cbn [map fst stack_states step_lps flat_map snd app stack_arrays].
    fold (step_lps outs). rewrite EX, EL. cbn [bind]. auto.
Qed.

Lemma reduce_sum_shape (x t : ndarray R) (n : nat) (s : list nat) :
  shape x = n :: s -> reduce_sum x = Ok t -> shape t = s.
Proof.
  intros Hs. unfold reduce_sum. rewrite Hs.
  destruct (negb (well_formed x)); [discriminate |].
  intros [= <-]. reflexivity.
Qed.

(** C4: the log-density returned by the joint sample-and-log-prob path is
    what [log_prob] returns on the trajectory realized by that call, when
    density evaluation agrees with the log-densities of the draws
    ([densities_agree]) and arithmetic is free of rounding. *)
Theorem joint_log_prob_consistent (self : MarkovChain R Seed W)
    (sample_shape : list nat) (seed : Seed) (w w' : W) (x : state R)
    (lp : ndarray R) :
  _sample_and_log_prob split_seed self sample_shape seed w = Ok ((x, lp), w') ->
  x <> [] ->
  (forall steps w'',
      realized_steps split_seed self attr_experimental_sample_and_log_prob
        sample_shape seed w = Ok (steps, w'') ->
      densities_agree self steps) ->
  _log_prob self x = Ok lp.
Proof.
  intros Hrun Hleaf Hagree.
  unfold _sample_and_log_prob, _sample_and_log_prob_helper, tf_scan in Hrun.
  invert_steps.
  match goal with
  | E : tf_range _ _ = Ok _ |- _ => apply tf_range_inv in E as [_ ->]
  end.
  cbn [fst snd] in *.
  match goal with
  | |- _log_prob _ ?t = Ok ?l => rename t into traj; rename l into lpj
  end.
  match goal with
  | E : call_sample_attr _ _ _ _ _ = Ok (?r, _) |- _ =>
      destruct (call_sample_attr_lp _ _ _ _ _ _ E) as [lp0 Hr0];
      destruct r as [x0 o]; cbn [snd] in Hr0; subst o;
      rename E into Hprior
  end.
  match goal with
  | E : scan_loop _ _ _ _ _ = Ok _ |- _ =>
      rewrite range_tensor_data in E;
      apply scan_loop_steps in E as [Esteps _]
  end.
  cbn [fst snd] in *.
  match goal with
  | E : chain_steps _ _ _ _ _ _ _ _ = Ok (?o, ?w3) |- _ =>
      rename o into outs;
      assert (Hreal :
        realized_steps split_seed self attr_experimental_sample_and_log_prob
          sample_shape seed w = Ok ((x0, Some lp0) :: outs, w3))
        by (unfold realized_steps; build_run);
      pose proof (chain_steps_lp _ _ _ _ _ _ _ _ E) as Hsome
  end.
  specialize (Hagree _ _ Hreal). clear Hreal.
  match goal with
  | E : stack_results _ _ = Ok _ |- _ =>
      destruct (stack_results_lp _ _ _ Hsome _ E)
        as (Xr & Lr & -> & EXr & ELr)
  end.
  match goal with
  | E : map_result2 cons0 _ _ = Ok _ |- _ =>
      unfold map_result2 in E; cbn [fst snd] in E;
      apply bind_Ok in E as (X & EX & E);
      apply bind_Ok in E as (LPS & ELPS & E);
      injection E as <-
  end.
  cbn [fst snd] in *.
  match goal with
  | E : _sum_fn self LPS = Ok _ |- _ =>
      apply sum_fn_returns in E as [Hflag E];
      rewrite (reduce_sum_cons0 _ _ _ ELPS) in E;
      apply bind_Ok in E as (tl & Etl & Eadd)
  end.
  (* what the collaborators answer on the realized draws *)
  unfold densities_agree in Hagree.
  cbn [stack_states] in Hagree. rewrite EXr in Hagree.
  cbn [bind] in Hagree. rewrite EX in Hagree. cbn [bind] in Hagree.
  destruct (log_prob (initial_state_prior self) x0) as [prior_lp|] eqn:Hp;
    cbn [bind] in Hagree; [| contradiction].
  destruct (map_structure _ X) as [previous|] eqn:Hprev in Hagree;
    cbn [bind] in Hagree; [| contradiction].
  destruct (transition_fn self _ previous) as [dist|] eqn:Hdist;
    cbn [bind] in Hagree; [| contradiction].
  destruct (map_structure _ X) as [current|] eqn:Hcur in Hagree;
    cbn [bind] in Hagree; [| contradiction].
  destruct (log_prob dist current) as [lps|] eqn:Hlps;
    cbn [bind] in Hagree; [| contradiction].
  rewrite ELr in Hagree. cbn [bind] in Hagree.
  destruct Hagree as (Vp & Vl & Sp & Sl).
  (* the trajectory, with its step axes moved back to the front *)
  match goal with
  | E : map_structure2 _ X (_step_axes self) = Ok traj |- _ =>
      pose proof (steps_leftmost_round_trip _ _ _
                    (step_axes_all_negative self) E) as Hmove
  end.
  assert (Hext :
    leading_extent X = Ok (Z.of_nat (length (x0 :: map fst outs)))).
  { assert (HX : stack_states x0 (x0 :: map fst outs) = Ok X)
      by (cbn [stack_states]; rewrite EXr; exact EX).
    apply stack_states_extent in HX.
    destruct HX as [|l sl like' s' Hsl _].
    - exfalso. apply Hleaf.
      destruct traj as [|leaf traj]; [reflexivity |].
      cbn [map_structure2] in Hmove.
      destruct (_step_axes self); [discriminate |].
      apply bind_Ok in Hmove as (? & _ & Hmove).
      apply bind_Ok in Hmove as (? & _ & Hmove). discriminate.
    - unfold leading_extent. rewrite Hsl. reflexivity. }
  pose proof (log_prob_parts_run self traj X x0 prior_lp _ previous current
                dist lps Hmove (index0_stack _ _ _ EX) Hp Hext Hprev Hdist
                Hcur Hlps) as Hparts.
  apply cons0_inv in ELPS as (nb & SLr & _ & _ & _).
  assert (Htl : shape tl = shape lp0)
    by (eapply reduce_sum_shape; [exact SLr | exact Etl]).
  rewrite (log_prob_of_parts self traj prior_lp lps tl Hparts)
    by (rewrite (sum_fn_plain _ _ Hflag), Vl; exact Etl).
  rewrite same_shape_check_passes.
  - rewrite Vp. exact Eadd.
  - cbn [static_shape]. apply shape_sound_compatible with (shape lp0);
      [exact Sp |].
    apply reduced_static_shape_sound with nb. rewrite <- SLr. exact Sl.
  - cbn [value]. now rewrite Vp, Htl.
Qed.

End Consistency.

Lemma joint_log_prob_consistent_witness :
  _log_prob RandomWalk.walk3
    [mk_ndarray [2; 2; 3]
       [16; 50; 120; 17; 52; 123; 18; 54; 126; 19; 56; 129]%Z]
  = Ok (mk_ndarray [2; 2] [-6313; -6556; -6805; -7060]%Z).
Proof.
  refine (joint_log_prob_consistent RandomWalk.split_seed RandomWalk.walk3
            [2] 5%Z 0 3 _ _ eq_refl _ _).
  - discriminate.
  - intros steps w'' E. vm_compute in E. injection E as <- <-.
    vm_compute. repeat split; reflexivity.
Defined.

(** ** The log-density ratio (C3) *)

Section Ratio.
Context {R : Type} `{Scalar R} `{!ExactScalar R} {Seed W : Type}.


Lemma broadcast2_well_formed (f : R -> R -> R) (x y z : ndarray R) :
  broadcast2 f x y = Ok z ->
  well_formed x = true /\ well_formed y = true.
Proof.
  unfold broadcast2.
  destruct (well_formed x), (well_formed y); cbn [andb negb];
    try discriminate; auto.
Qed.






End Ratio.



(** ** The shape of a sampled trajectory *)

Section SampleShape.
Context {R : Type} `{Scalar R} {Seed W : Type}.
Variable split_seed : Seed -> option string -> M W (Seed * Seed).
Variable self : MarkovChain R Seed W.

Lemma chain_steps_length (attr : sample_attr_t) (k : nat) :
  forall t seed x w outs w',
    chain_steps split_seed self attr k t seed x w = Ok (outs, w') ->
    length outs = k.
Proof.
  induction k as [|k IH]; intros t seed x w outs w' E; cbn [chain_steps] in E.
  - invert_steps. reflexivity.
  - invert_steps. cbn [length]. f_equal. eapply IH; eassumption.
Qed.

(** What a successful run of the sampler has done: the prior's draw, the
    draws of the loop, their stack, and the movement of the step axis. *)
Lemma sample_n_run (sample_shape : list nat) (seed : Seed) (w w' : W)
    (x : state R) :
  _sample_n split_seed self sample_shape seed w = Ok (x, w') ->
  exists prior_seed loop_seed w0 x0 w1 outs X,
    split_seed seed (Some "markov_chain_sample") w
      = Ok ((prior_seed, loop_seed), w0)
    /\ sample (initial_state_prior self) sample_shape prior_seed w0
       = Ok (x0, w1)
    /\ chain_steps split_seed self attr_sample
         (Z.to_nat (steps_value (num_steps self) - 1)) 1%Z loop_seed x0 w1
       = Ok (outs, w')
    /\ stack_states x0 (x0 :: map fst outs) = Ok X
    /\ map_structure2 (fun x axis => move_dimension x 0 axis) X
         (_step_axes self) = Ok x.
Proof.
  unfold _sample_n, _sample_and_log_prob_helper, tf_scan.
  intros E. invert_steps.
  match goal with
  | E : tf_range _ _ = Ok _ |- _ => apply tf_range_inv in E as [_ ->]
  end.
  match goal with
  | E : scan_loop _ _ _ _ _ = Ok _ |- _ =>
      rewrite range_tensor_data in E;
      apply scan_loop_steps in E as [Esteps _]
  end.
  pose proof Esteps as Hnone. apply chain_steps_sample_only in Hnone.
  match goal with
  | E : call_sample_attr _ _ _ _ _ = Ok (?r, _) |- _ =>
      pose proof E as Hr0; apply call_sample_attr_sample in Hr0;
      destruct r as [x0 o]; simpl in Hr0; subst o;
      unfold call_sample_attr in E
  end.
  invert_steps.
  cbn [fst snd] in *.
  match goal with
  | E : stack_results _ _ = Ok _ |- _ =>
      rewrite (stack_results_sample _ _ Hnone) in E
  end.
  invert_steps.
  match goal with
  | E : map_result2 cons0 _ _ = Ok _ |- _ =>
      unfold map_result2 in E; simpl in E
  end.
  invert_steps.
  do 7 eexists. repeat split; try eassumption.
  cbn [stack_states].
  match goal with
  | E : stack_states _ _ = Ok _ |- _ => rewrite E
  end.
  cbn [bind]. assumption.
Qed.

Lemma moved_extents (n : nat) (axes : list Z) :
  Forall (fun ax => (ax < 0)%Z) axes ->
  forall X x : state R,
    Forall (fun leaf => exists s, shape leaf = n :: s) X ->
    map_structure2 (fun x axis => move_dimension x 0 axis) X axes = Ok x ->
    map_structure2 shape_at x axes = Ok (map (fun _ => Z.of_nat n) x).
Proof.
  induction 1 as [|ax axes Hax Hneg IH]; intros [|a X] x HX;
    cbn [map_structure2]; try discriminate.
  - intros [= <-]. reflexivity.
  - intros E. apply bind_Ok in E as (c & Ec & E).
    apply bind_Ok in E as (cs & Ecs & [= <-]).
    inversion HX as [|? ? [s Hs] HX']; subst.
    cbn [map_structure2 map].
    pose proof (move_dimension_round_trip _ _ _ Hax Ec) as Hback.
    destruct (move_dimension_leading _ _ _ Hax Hback) as (n' & s' & Hs' & Hat).
    rewrite Hs in Hs'. injection Hs' as <- <-.
    rewrite Hat. cbn [bind]. rewrite (IH _ _ HX' Ecs). reflexivity.
Qed.

Lemma stacked_leading (like : state R) (xs : list (state R)) (X : state R) :
  stack_states like xs = Ok X ->
  Forall (fun leaf => exists s, shape leaf = length xs :: s) X.
Proof.
  intros E. apply stack_states_extent in E.
  induction E as [|l sl like X Hsl _ IH]; constructor; eauto.
Qed.

(** The stacked draws are the prior's and one per loop step; the step axis
    of the sample has their number as extent. *)
Lemma sample_n_extents (sample_shape : list nat) (seed : Seed) (w w' : W)
    (x : state R) :
  _sample_n split_seed self sample_shape seed w = Ok (x, w') ->
  map_structure2 shape_at x (_step_axes self)
  = Ok (map (fun _ =>
               Z.of_nat (S (Z.to_nat (steps_value (num_steps self) - 1))))
          x).
Proof.
  intros E.
  apply sample_n_run in E
    as (prior_seed & loop_seed & w0 & x0 & w1 & outs & X
        & _ & _ & Hsteps & Hstack & Hmove).
  apply chain_steps_length in Hsteps.
  apply stacked_leading in Hstack.
  rewrite (moved_extents _ _ (step_axes_all_negative self) _ _ Hstack Hmove).
  f_equal. apply map_ext. intros _.
  cbn [length]. rewrite length_map. unfold sample_result, state in *.
  now rewrite Hsteps.
Qed.

(** The sampler returns only after [tf.range(1, num_steps)] has. *)
Lemma sample_n_positive (sample_shape : list nat) (seed : Seed) (w w' : W)
    (x : state R) :
  _sample_n split_seed self sample_shape seed w = Ok (x, w') ->
  (1 <= steps_value (num_steps self))%Z.
Proof.
  unfold _sample_n, _sample_and_log_prob_helper.
  intros E. invert_steps.
  match goal with
  | E : tf_range _ _ = Ok _ |- _ => now apply tf_range_inv in E as [Hle _]
  end.
Qed.

(** X1: whenever sampling returns, the chain has at least one step and
    every leaf of the sampled trajectory has extent [num_steps] along its
    step axis [-(1 + event rank)]. *)
Theorem sample_step_extent (sample_shape : list nat) (seed : Seed) (w w' : W)
    (x : state R) :
  _sample_n split_seed self sample_shape seed w = Ok (x, w') ->
  (1 <= steps_value (num_steps self))%Z
  /\ map_structure2 shape_at x (_step_axes self)
     = Ok (map (fun _ => steps_value (num_steps self)) x).
Proof.
  intros E. pose proof (sample_n_positive _ _ _ _ _ E) as Hn.
  split; [exact Hn |].
  rewrite (sample_n_extents _ _ _ _ _ E).
  f_equal. apply map_ext. intros _. lia.
Qed.

(** X18: a chain configured (without validation) with a step count below
    1 draws no sample: once the seed is split and the prior has drawn,
    [tf.range(1, num_steps)] raises, and [_sample_n] raises with it. *)
Theorem sample_below_one_step_raises (sample_shape : list nat) (seed : Seed)
    (w : W) (prior_seed loop_seed : Seed) (w0 w1 : W) (x0 : state R) :
  (steps_value (num_steps self) < 1)%Z ->
  split_seed seed (Some "markov_chain_sample") w
    = Ok ((prior_seed, loop_seed), w0) ->
  sample (initial_state_prior self) sample_shape prior_seed w0
    = Ok (x0, w1) ->
  _sample_n split_seed self sample_shape seed w
  = Err (InvalidArgumentError
           (range_message 1 (steps_value (num_steps self)))).
Proof.
  intros Hn Hsplit Hdraw.
  unfold _sample_n, _sample_and_log_prob_helper, bindM, call_sample_attr,
    liftM.
  rewrite Hsplit. cbn beta iota. unfold bindM. rewrite Hdraw.
  cbn beta iota. rewrite (tf_range_Err _ _ Hn). reflexivity.
Qed.

(** X2: what [sample] returns passes the chain's own validation of a
    trajectory: with [validate_args] set and [num_steps >= 1],
    [_sample_control_dependencies] builds one assertion per leaf of the
    sample and all of them hold. *)
Theorem sample_passes_validation (sample_shape : list nat) (seed : Seed)
    (w w' : W) (x : state R) :
  validate_args self = true ->
  (1 <= steps_value (num_steps self))%Z ->
  _sample_n split_seed self sample_shape seed w = Ok (x, w') ->
  exists deps,
    _sample_control_dependencies self x = Ok deps
    /\ length deps = length x
    /\ control_dependencies deps = Ok tt.
Proof.
  intros Hv Hn E. apply sample_n_extents in E.
  unfold _sample_control_dependencies. rewrite Hv, E. cbn [negb bind].
  eexists. split; [reflexivity |]. split.
  - now rewrite !length_map.
  - rewrite control_dependencies_assert_equal.
    replace (forallb _ _) with true; [reflexivity |].
    symmetry. apply forallb_forall. intros e He.
    apply in_map_iff in He as (? & <- & _). apply Z.eqb_eq. lia.
Qed.

(** The stacked draws, seen from the moved trajectory. *)
Lemma sample_n_leftmost (sample_shape : list nat) (seed : Seed) (w w' : W)
    (x : state R) :
  _sample_n split_seed self sample_shape seed w = Ok (x, w') ->
  exists prior_seed loop_seed w0 x0 w1 outs X,
    split_seed seed (Some "markov_chain_sample") w
      = Ok ((prior_seed, loop_seed), w0)
    /\ sample (initial_state_prior self) sample_shape prior_seed w0
       = Ok (x0, w1)
    /\ chain_steps split_seed self attr_sample
         (Z.to_nat (steps_value (num_steps self) - 1)) 1%Z loop_seed x0 w1
       = Ok (outs, w')
    /\ stack_states x0 (x0 :: map fst outs) = Ok X
    /\ steps_leftmost self x = Ok X.
Proof.
  intros E.
  apply sample_n_run in E
    as (prior_seed & loop_seed & w0 & x0 & w1 & outs & X
        & Hsplit & Hprior & Hsteps & Hstack & Hmove).
  exists prior_seed, loop_seed, w0, x0, w1, outs, X.
  repeat split; try assumption.
  unfold steps_leftmost.
  apply steps_leftmost_round_trip; [apply step_axes_all_negative | exact Hmove].
Qed.

(** X3: step 0 of a sampled trajectory is the prior's draw, made with the
    prior seed of the first split: with the step axis moved back to the
    front, row 0 of every leaf is the leaf the prior drew. *)
Theorem sample_starts_at_prior (sample_shape : list nat) (seed : Seed)
    (w w' : W) (x : state R) :
  _sample_n split_seed self sample_shape seed w = Ok (x, w') ->
  exists prior_seed loop_seed w0 x0 w1 X,
    split_seed seed (Some "markov_chain_sample") w
      = Ok ((prior_seed, loop_seed), w0)
    /\ sample (initial_state_prior self) sample_shape prior_seed w0
       = Ok (x0, w1)
    /\ steps_leftmost self x = Ok X
    /\ map_structure (fun state_part => index0 state_part 0) X = Ok x0.
Proof.
  intros E.
  apply sample_n_leftmost in E
    as (prior_seed & loop_seed & w0 & x0 & w1 & outs & X
        & Hsplit & Hprior & _ & Hstack & Hmove).
  exists prior_seed, loop_seed, w0, x0, w1, X.
  repeat split; try assumption.
  cbn [stack_states] in Hstack. apply bind_Ok in Hstack as (rest & _ & Hc).
  eapply index0_stack; eassumption.
Qed.

Lemma move_to_step_axis (m : nat) (pre ev : list nat) (X y : ndarray R) :
  shape X = m :: pre ++ ev ->
  move_dimension X 0 (- (1 + Z.of_nat (length ev)))%Z = Ok y ->
  shape y = pre ++ m :: ev.
Proof.
  destruct X as [s dat]. cbn [shape]. intros -> E.
  apply move_dimension_from_front in E; [| lia].
  rewrite length_app in E.
  destruct E as [[Hz ->] | (Hd & _ & _ & ->)]; cbn [shape].
  - destruct pre; [reflexivity |]. cbn [length] in Hz. lia.
  - replace (Z.to_nat _) with (length pre) by lia.
    rewrite firstn_app, Nat.sub_diag, firstn_all. cbn [firstn].
    rewrite app_nil_r, skipn_app, Nat.sub_diag, skipn_all. reflexivity.
Qed.

Lemma moved_shapes (k : nat) (pre : list nat) (est : list (list nat)) :
  forall x0 X x : state R,
    Forall2 (fun leaf ev => shape leaf = pre ++ ev) x0 est ->
    Forall2 (fun l sl => shape sl = k :: shape l) x0 X ->
    map_structure2 (fun x axis => move_dimension x 0 axis) X
      (map (fun nd : nat => (- (1 + Z.of_nat nd))%Z) (map (@length nat) est))
    = Ok x ->
    Forall2 (fun leaf ev => shape leaf = pre ++ k :: ev) x est.
Proof.
  induction est as [|ev est IH]; intros x0 X x H0 HX E.
  - inversion H0; subst. inversion HX; subst. cbn in E. injection E as <-.
    constructor.
  - inversion H0 as [|l ? x0' ? Hl H0']; subst.
    inversion HX as [|? sl ? X' Hsl HX']; subst.
    cbn [map map_structure2] in E.
    apply bind_Ok in E as (c & Ec & E).
    apply bind_Ok in E as (cs & Ecs & [= <-]).
    constructor; [| eauto].
    eapply move_to_step_axis; [| exact Ec]. now rewrite Hsl, Hl.
Qed.

(** X4: the shape of a sample is sample shape + batch shape + event shape:
    when the prior's draws have the shape its contract gives them (sample
    shape, batch shape, then the leaf's event shape), every leaf of the
    chain's sample has the dimensions of the sample shape and the batch
    shape followed by the leaf's entry of [_event_shape_tensor], the step
    count in front of the prior's event shape. *)
Theorem sample_shape_is_event_shape (sample_shape : list nat) (seed : Seed)
    (w w' : W) (x : state R) :
  (1 <= steps_value (num_steps self))%Z ->
  (forall prior_seed w0 x0 w1,
      sample (initial_state_prior self) sample_shape prior_seed w0
        = Ok (x0, w1) ->
      Forall2 (fun leaf event_shape =>
                 shape leaf
                 = sample_shape
                     ++ batch_shape_tensor (initial_state_prior self)
                     ++ event_shape)
        x0 (event_shape_tensor (initial_state_prior self))) ->
  _sample_n split_seed self sample_shape seed w = Ok (x, w') ->
  Forall2 (fun leaf event_shape =>
             map Z.of_nat (shape leaf)
             = map Z.of_nat (sample_shape ++ _batch_shape_tensor self)
                 ++ event_shape)
    x (_event_shape_tensor self).
Proof.
  intros Hn Hprior E.
  apply sample_n_run in E
    as (prior_seed & loop_seed & w0 & x0 & w1 & outs & X
        & _ & Hdraw & Hsteps & Hstack & Hmove).
  apply Hprior in Hdraw. apply chain_steps_length in Hsteps.
  apply stack_states_extent in Hstack.
  unfold _step_axes in Hmove.
  assert (F := moved_shapes _ (sample_shape ++ _batch_shape_tensor self) _ _ _ _
                 ltac:(eapply Forall2_impl; [| exact Hdraw];
                       cbv beta; intros ? ? ->; unfold _batch_shape_tensor;
                       now rewrite app_assoc)
                 Hstack Hmove).
  unfold _event_shape_tensor.
  clear - F Hn Hsteps. induction F as [|leaf ev x est Hleaf _ IH];
    cbn [map]; constructor; [| exact IH].
  rewrite Hleaf, map_app. cbn [map length]. do 2 f_equal.
  rewrite length_map. unfold sample_result, state in *. rewrite Hsteps. lia.
Qed.

End SampleShape.

Lemma sample_step_extent_witness :
  (1 <= steps_value (num_steps RandomWalk.walk3))%Z
  /\ map_structure2 shape_at
       [mk_ndarray [2; 2; 3]
          [16; 50; 120; 17; 52; 123; 18; 54; 126; 19; 56; 129]%Z]
       (_step_axes RandomWalk.walk3)
     = Ok [3%Z].
Proof.
  exact (sample_step_extent RandomWalk.split_seed RandomWalk.walk3
           [2] 5%Z 0 3 _ eq_refl).
Defined.

Lemma sample_below_one_step_raises_witness :
  _sample_n RandomWalk.split_seed
    (RandomWalk.chain (StaticSteps 0) false false) [2] 5%Z 0
  = Err (InvalidArgumentError
           "Requires start <= limit when delta > 0: 1/0").
Proof.
  refine (sample_below_one_step_raises RandomWalk.split_seed
            (RandomWalk.chain (StaticSteps 0) false false) [2] 5%Z 0
            _ _ _ _ _ _ eq_refl eq_refl).
  simpl. lia.
Defined.

Lemma sample_passes_validation_witness :
  exists deps,
    _sample_control_dependencies RandomWalk.walk3
      [mk_ndarray [2; 2; 3]
         [16; 50; 120; 17; 52; 123; 18; 54; 126; 19; 56; 129]%Z] = Ok deps
    /\ length deps = 1
    /\ control_dependencies deps = Ok tt.
Proof.
  refine (sample_passes_validation RandomWalk.split_seed RandomWalk.walk3
            [2] 5%Z 0 3 _ eq_refl _ eq_refl).
  simpl. lia.
Defined.

Lemma sample_starts_at_prior_witness :
  exists prior_seed loop_seed w0 x0 w1 X,
    RandomWalk.split_seed 5%Z (Some "markov_chain_sample") 0
      = Ok ((prior_seed, loop_seed), w0)
    /\ sample RandomWalk.prior [2] prior_seed w0 = Ok (x0, w1)
    /\ steps_leftmost RandomWalk.walk3
         [mk_ndarray [2; 2; 3]
            [16; 50; 120; 17; 52; 123; 18; 54; 126; 19; 56; 129]%Z] = Ok X
    /\ map_structure (fun state_part => index0 state_part 0) X = Ok x0.
Proof.
  exact (sample_starts_at_prior RandomWalk.split_seed RandomWalk.walk3
           [2] 5%Z 0 3 _ eq_refl).
Defined.

Lemma sample_shape_is_event_shape_witness :
  Forall2 (fun leaf event_shape =>
             map Z.of_nat (shape leaf)
             = map Z.of_nat ([2] ++ _batch_shape_tensor RandomWalk.walk3)
                 ++ event_shape)
    [mk_ndarray [2; 2; 3]
       [16; 50; 120; 17; 52; 123; 18; 54; 126; 19; 56; 129]%Z]
    (_event_shape_tensor RandomWalk.walk3).
Proof.
  refine (sample_shape_is_event_shape RandomWalk.split_seed RandomWalk.walk3
            [2] 5%Z 0 3 _ _ _ eq_refl).
  - simpl. lia.
  - intros prior_seed w0 x0 w1 E. cbv in E. injection E as <- _.
    repeat constructor.
Defined.

(** ** The joint path *)

Section JointPath.
Context {R : Type} `{Scalar R} {Seed W : Type}.
Variable split_seed : Seed -> option string -> M W (Seed * Seed).
Variable self : MarkovChain R Seed W.

(** What a successful run of the joint path has done. *)
Lemma sample_and_log_prob_run (sample_shape : list nat) (seed : Seed)
    (w w' : W) (x : state R) (lp : ndarray R) :
  _sample_and_log_prob split_seed self sample_shape seed w
    = Ok ((x, lp), w') ->
  exists prior_seed loop_seed w0 x0 lp0 w1 outs X L,
    split_seed seed (Some "markov_chain_sample") w
      = Ok ((prior_seed, loop_seed), w0)
    /\ experimental_sample_and_log_prob (initial_state_prior self)
         sample_shape prior_seed w0 = Ok ((x0, lp0), w1)
    /\ chain_steps split_seed self attr_experimental_sample_and_log_prob
         (Z.to_nat (steps_value (num_steps self) - 1)) 1%Z loop_seed x0 w1
       = Ok (outs, w')
    /\ Forall (fits (x0, Some lp0)) outs
    /\ stack_states x0 (x0 :: map fst outs) = Ok X
    /\ stack_arrays (shape lp0) (lp0 :: step_lps outs) = Ok L
    /\ _sum_fn self L = Ok lp
    /\ map_structure2 (fun x axis => move_dimension x 0 axis) X
         (_step_axes self) = Ok x.
Proof.
  unfold _sample_and_log_prob, _sample_and_log_prob_helper, tf_scan.
  intros E. invert_steps.
  match goal with
  | E : tf_range _ _ = Ok _ |- _ => apply tf_range_inv in E as [_ ->]
  end.
  cbn [fst snd] in *.
  match goal with
  | E : call_sample_attr _ _ _ _ _ = Ok (?r, _) |- _ =>
      destruct (call_sample_attr_lp _ _ _ _ _ _ E) as [lp0 Hr0];
      destruct r as [x0 o]; cbn [snd] in Hr0; subst o;
      unfold call_sample_attr in E
  end.
  invert_steps.
  match goal with
  | E : scan_loop _ _ _ _ _ = Ok _ |- _ =>
      rewrite range_tensor_data in E;
      apply scan_loop_steps in E as [Esteps Hfits]
  end.
  cbn [fst snd] in *.
  pose proof (chain_steps_lp _ _ _ _ _ _ _ _ _ Esteps) as Hsome.
  match goal with
  | E : stack_results _ _ = Ok _ |- _ =>
      destruct (stack_results_lp _ _ _ Hsome _ E)
        as (Xr & Lr & -> & EXr & ELr)
  end.
  match goal with
  | E : map_result2 cons0 _ _ = Ok _ |- _ =>
      unfold map_result2 in E; cbn [fst snd] in E;
      apply bind_Ok in E as (X & EX & E);
      apply bind_Ok in E as (LPS & ELPS & E);
      injection E as <-
  end.
  cbn [fst snd] in *.
  do 9 eexists. repeat split; try eassumption.
  - cbn [stack_states]. rewrite EXr. exact EX.
  - cbn [stack_arrays]. rewrite ELr. exact ELPS.
Qed.

(** The joint path returns only after [tf.range(1, num_steps)] has. *)
Lemma sample_and_log_prob_positive (sample_shape : list nat) (seed : Seed)
    (w w' : W) (r : state R * ndarray R) :
  _sample_and_log_prob split_seed self sample_shape seed w = Ok (r, w') ->
  (1 <= steps_value (num_steps self))%Z.
Proof.
  unfold _sample_and_log_prob, _sample_and_log_prob_helper.
  intros E. invert_steps.
  match goal with
  | E : tf_range _ _ = Ok _ |- _ => now apply tf_range_inv in E as [Hle _]
  end.
Qed.

Lemma chain_steps_sample_of_joint (k : nat) :
  (forall step previous dist,
      transition_fn self step previous = Ok dist -> joint_draws_sample dist) ->
  forall t seed x w outs w',
    chain_steps split_seed self attr_experimental_sample_and_log_prob k t
      seed x w = Ok (outs, w') ->
    chain_steps split_seed self attr_sample k t seed x w
    = Ok (map sample_only outs, w').
Proof.
  intros Htrans.
  induction k as [|k IH]; intros t seed x w outs w' E;
    cbn [chain_steps] in E |- *.
  - invert_steps. reflexivity.
  - invert_steps.
    match goal with
    | E : call_sample_attr _ _ _ _ _ = Ok _ |- _ =>
        unfold call_sample_attr in E
    end.
    invert_steps.
    match goal with
    | E : transition_fn self _ _ = Ok _,
      E' : experimental_sample_and_log_prob _ _ _ _ = Ok _ |- _ =>
        apply (Htrans _ _ _ E) in E'
    end.
    match goal with
    | E : chain_steps _ _ _ _ _ _ _ _ = Ok _ |- _ => apply IH in E
    end.
    cbn [fst] in *.
    build_run.
Qed.

Lemma fits_sample_only (x0 : state R) (lp0 : ndarray R)
    (outs : list (sample_result R)) :
  Forall (fits (x0, Some lp0)) outs ->
  Forall (fits (x0, None)) (map sample_only outs).
Proof.
  induction 1 as [|r outs [r' Hr] _ IH]; cbn [map]; constructor; [| exact IH].
  unfold fits, map_result2 in *. cbn [fst snd sample_only] in *.
  apply bind_Ok in Hr as (xs & -> & _). cbn [bind]. eauto.
Qed.

(** X5: the joint path and plain sampling draw the same trajectory from
    the same seed, and leave the same ambient state behind, when every
    distribution involved (the prior, and what the transition function
    returns) draws in its joint call what its [sample] draws: both paths
    split the seeds in the same way and in the same order. *)
Theorem joint_path_draws_sample (sample_shape : list nat) (seed : Seed)
    (w w' : W) (x : state R) (lp : ndarray R) :
  joint_draws_sample (initial_state_prior self) ->
  (forall step previous dist,
      transition_fn self step previous = Ok dist -> joint_draws_sample dist) ->
  _sample_and_log_prob split_seed self sample_shape seed w
    = Ok ((x, lp), w') ->
  _sample_n split_seed self sample_shape seed w = Ok (x, w').
Proof.
  intros Hprior Htrans E.
  pose proof (tf_range_Ok 1 _ (sample_and_log_prob_positive _ _ _ _ _ E))
    as Hrange.
  apply sample_and_log_prob_run in E
    as (prior_seed & loop_seed & w0 & x0 & lp0 & w1 & outs & X & L
        & Hsplit & Hdraw & Hsteps & Hfits & Hstack & _ & _ & Hmove).
  apply Hprior in Hdraw.
  apply (chain_steps_sample_of_joint _ Htrans) in Hsteps.
  apply fits_sample_only in Hfits.
  assert (Hscan :
    scan_loop
      (_make_sample_loop_body split_seed (transition_fn self) attr_sample fst)
      (x0, None)
      (data (range_tensor 1 (steps_value (num_steps self))))
      (loop_seed, (x0, None)) w1 = Ok (map sample_only outs, w'))
    by (rewrite range_tensor_data; apply scan_loop_steps; split; assumption).
  assert (Hnone : Forall (fun r : sample_result R => snd r = None)
                    (map sample_only outs))
    by (apply Forall_forall; intros r Hr;
        apply in_map_iff in Hr as (? & <- & _); reflexivity).
  cbn [stack_states] in Hstack. apply bind_Ok in Hstack as (Xr & EXr & EX).
  unfold _sample_n, _sample_and_log_prob_helper, tf_scan.
  build_run; cbn [fst snd].
  - rewrite (stack_results_sample _ _ Hnone), map_map. cbn [sample_only fst].
    change (map (fun r : sample_result R => fst r) outs) with (map fst outs).
    rewrite EXr. reflexivity.
  - exact EX.
  - reflexivity.
  - exact Hmove.
Qed.

Lemma sum_fn_shape (x t : ndarray R) (n : nat) (s : list nat) :
  shape x = n :: s -> _sum_fn self x = Ok t -> shape t = s.
Proof.
  intros Hs E. apply sum_fn_returns in E as [_ E].
  unfold reduce_sum in E. rewrite Hs in E.
  destruct (negb (well_formed x)); [discriminate |].
  injection E as <-. reflexivity.
Qed.

(** X6: the log-density the joint path returns is the reduction
    [_sum_fn], over the step axis, of the stack of the log-densities its
    draws came with (the prior's first), and it has the shape of the
    prior's. *)
Theorem joint_log_prob_is_sum (sample_shape : list nat) (seed : Seed)
    (w w' : W) (x : state R) (lp : ndarray R) :
  _sample_and_log_prob split_seed self sample_shape seed w
    = Ok ((x, lp), w') ->
  exists x0 lp0 rest L,
    realized_steps split_seed self attr_experimental_sample_and_log_prob
      sample_shape seed w = Ok ((x0, Some lp0) :: rest, w')
    /\ length rest = Z.to_nat (steps_value (num_steps self) - 1)
    /\ stack_arrays (shape lp0) (lp0 :: step_lps rest) = Ok L
    /\ _sum_fn self L = Ok lp
    /\ shape lp = shape lp0.
Proof.
  intros E.
  apply sample_and_log_prob_run in E
    as (prior_seed & loop_seed & w0 & x0 & lp0 & w1 & outs & X & L
        & Hsplit & Hdraw & Hsteps & _ & _ & HL & Hsum & _).
  exists x0, lp0, outs, L. repeat split; try assumption.
  - unfold realized_steps. build_run.
  - eapply chain_steps_length; eassumption.
  - eapply sum_fn_shape; [| exact Hsum].
    apply stack_arrays_shape in HL. exact HL.
Qed.

End JointPath.

Lemma walk_joint_draws_sample (steps loc : ndarray Z) :
  joint_draws_sample (RandomWalk.walk steps loc).
Proof.
  intros sample_shape seed w x lp w'. cbn [RandomWalk.walk sample
    experimental_sample_and_log_prob].
  intros E. apply bind_Ok in E as ([x1 w1] & E1 & E).
  apply bind_Ok in E as (l & _ & [= <- _ <-]). exact E1.
Qed.

Lemma joint_path_draws_sample_witness :
  _sample_n RandomWalk.split_seed RandomWalk.walk3 [2] 5%Z 0
  = Ok ([mk_ndarray [2; 2; 3]
           [16; 50; 120; 17; 52; 123; 18; 54; 126; 19; 56; 129]%Z], 3).
Proof.
  refine (joint_path_draws_sample RandomWalk.split_seed RandomWalk.walk3
            [2] 5%Z 0 3 _ (mk_ndarray [2; 2] [-6313; -6556; -6805; -7060]%Z)
            (walk_joint_draws_sample _ _) _ eq_refl).
  intros step previous dist E. unfold RandomWalk.walk3 in E.
  cbn [transition_fn RandomWalk.chain RandomWalk.transition] in E.
  destruct previous as [|loc [|]]; try discriminate.
  injection E as <-. apply walk_joint_draws_sample.
Defined.

Lemma joint_log_prob_is_sum_witness :
  exists x0 lp0 rest L,
    realized_steps RandomWalk.split_seed RandomWalk.walk3
      attr_experimental_sample_and_log_prob [2] 5%Z 0
    = Ok ((x0, Some lp0) :: rest, 3)
    /\ length rest = 2
    /\ stack_arrays (shape lp0) (lp0 :: step_lps rest) = Ok L
    /\ _sum_fn RandomWalk.walk3 L
       = Ok (mk_ndarray [2; 2] [-6313; -6556; -6805; -7060]%Z)
    /\ [2; 2] = shape lp0.
Proof.
  exact (joint_log_prob_is_sum RandomWalk.split_seed RandomWalk.walk3
           [2] 5%Z 0 3 _ _ eq_refl).
Defined.

(** ** Which trajectories density evaluation accepts *)

Section Accepted.
Context {R : Type} `{Scalar R} {Seed W : Type}.

Lemma moved_has_step_axis (axes : list Z) :
  Forall (fun ax => (ax < 0)%Z) axes ->
  forall x xm : state R,
    map_structure2 (fun t ax => move_dimension t ax 0) x axes = Ok xm ->
    map_structure2 shape_at x axes
    = Ok (map (fun leaf => Z.of_nat (leading_dim leaf)) xm).
Proof.
  induction 1 as [|ax axes Hax _ IH]; intros [|t x] xm;
    cbn [map_structure2]; try discriminate.
  - intros [= <-]. reflexivity.
  - intros E. apply bind_Ok in E as (c & Ec & E).
    apply bind_Ok in E as (cs & Ecs & [= <-]).
    destruct (move_dimension_leading _ _ _ Hax Ec) as (n & s & Hs & Hat).
    rewrite Hat, (IH _ _ Ecs). cbn [bind map]. unfold leading_dim.
    rewrite Hs. reflexivity.
Qed.

Lemma rows_have_extent (xm x0 : list (ndarray R)) :
  map_structure (fun state_part => index0 state_part 0) xm = Ok x0 ->
  Forall (fun leaf => 1 <= leading_dim leaf) xm.
Proof.
  revert x0; induction xm as [|t xm IH]; intros x0 E; [constructor |].
  cbn [map_structure] in E.
  apply bind_Ok in E as (b & Eb & E). apply bind_Ok in E as (bs & Ebs & _).
  constructor; [| eauto].
  unfold index0 in Eb. unfold leading_dim.
  destruct (shape t) as [|n s]; [discriminate |].
  destruct (negb (well_formed t)); [discriminate |].
  destruct (0 <? n) eqn:Hn; [| discriminate].
  apply Nat.ltb_lt in Hn. cbn [hd]. lia.
Qed.

(** X7: density evaluation returns its parts only for a trajectory of at
    least one step: the structure has a leaf, every leaf has the step axis
    [-(1 + event rank)] of its part (as many leaves as the prior's event
    shape has parts, each of rank above the event rank), and its extent
    along that axis is at least 1.  This holds without validation: an
    empty trajectory fails at [state_part[0]]. *)
Theorem log_prob_needs_a_step (self : MarkovChain R Seed W) (x : state R)
    (parts : Tensor R * Tensor R) :
  _log_prob_parts self x = Ok parts ->
  x <> []
  /\ exists extents,
       map_structure2 shape_at x (_step_axes self) = Ok extents
       /\ length extents = length (event_shape_tensor (initial_state_prior self))
       /\ Forall (fun extent => (1 <= extent)%Z) extents.
Proof.
  unfold _log_prob_parts. intros E.
  apply bind_Ok in E as (xm & Hmove & E).
  apply bind_Ok in E as (x0 & Hx0 & E).
  apply bind_Ok in E as (prior_lp & _ & E).
  apply bind_Ok in E as (n & Hn & _).
  split.
  - intros ->. destruct (_step_axes self); [| discriminate].
    injection Hmove as <-. discriminate.
  - pose proof (moved_has_step_axis _ (step_axes_all_negative self) _ _ Hmove)
      as Hat.
    eexists. split; [exact Hat |]. split.
    + rewrite length_map.
      clear - Hmove. unfold _step_axes in Hmove.
      rewrite <- (length_map (@length nat)),
        <- (length_map (fun nd : nat => (- (1 + Z.of_nat nd))%Z)).
      revert Hmove. generalize (map (fun nd : nat => (- (1 + Z.of_nat nd))%Z)
                  (map (@length nat)
                     (event_shape_tensor (initial_state_prior self)))).
      intros axes. revert xm axes.
      induction x as [|t x IH]; intros xm [|ax axes];
        cbn [map_structure2]; try discriminate.
      * intros [= <-]. reflexivity.
      * intros E. apply bind_Ok in E as (c & _ & E).
        apply bind_Ok in E as (cs & Ecs & [= <-]).
        cbn [length]. f_equal. eauto.
    + apply rows_have_extent in Hx0. apply Forall_map.
      eapply Forall_impl; [| exact Hx0]. cbv beta. intros leaf Hl. lia.
Qed.

(** X8: [_assert_same_shape] raises no false alarm: for two tensors of the
    same shape whose static shapes are sound, it raises nothing, whatever
    [validate_args] is, and every assertion it returns holds. *)
Theorem assert_same_shape_accepts (x y : Tensor R) (message : string)
    (validate : bool) :
  shape_sound (static_shape x) (shape (value x)) = true ->
  shape_sound (static_shape y) (shape (value y)) = true ->
  shape (value x) = shape (value y) ->
  exists deps,
    _assert_same_shape x y message validate = Ok deps
    /\ control_dependencies deps = Ok tt.
Proof.
  intros Sx Sy Heq. unfold _assert_same_shape.
  rewrite <- Heq in Sy.
  rewrite (shape_sound_compatible _ _ _ Sx Sy). cbn [negb].
  eexists. split; [reflexivity |].
  destruct (validate && _); [| reflexivity].
  cbn [control_dependencies run_assertion]. rewrite <- Heq.
  rewrite broadcast_all_equal_refl. reflexivity.
Qed.

End Accepted.

Lemma log_prob_needs_a_step_witness :
  RandomWalk.trajectory <> []
  /\ exists extents,
       map_structure2 shape_at RandomWalk.trajectory
         (_step_axes RandomWalk.walk3) = Ok extents
       /\ length extents = 1
       /\ Forall (fun extent => (1 <= extent)%Z) extents.
Proof.
  exact (log_prob_needs_a_step RandomWalk.walk3 RandomWalk.trajectory _
           eq_refl).
Defined.

Lemma assert_same_shape_accepts_witness :
  exists deps,
    _assert_same_shape
      (mk_Tensor None (mk_ndarray [2] [1; 2]%Z))
      (mk_Tensor (Some [None]) (mk_ndarray [2] [3; 4]%Z))
      shapes_message true = Ok deps
    /\ control_dependencies deps = Ok tt.
Proof.
  exact (assert_same_shape_accepts
           (mk_Tensor None (mk_ndarray [2] [1; 2]%Z))
           (mk_Tensor (Some [None]) (mk_ndarray [2] [3; 4]%Z))
           shapes_message true eq_refl eq_refl eq_refl).
Defined.

(** ** The compensated-sum flag *)

Section KahanFlag.
Context {R : Type} `{Scalar R} {Seed W : Type}.
Variable split_seed : Seed -> option string -> M W (Seed * Seed).

(** X9: a chain constructed with [experimental_use_kahan_sum] returns no
    log-density: [_log_prob], the joint sample-and-log-prob path and the
    log-density ratio (with the chain in either position) all reach the
    access to [value] on the result of [reduce_kahan_sum], which has no
    such attribute.  Where the parts are computed and the reduction itself
    succeeds, the failure of [_log_prob] and of the ratio is that
    [AttributeError]. *)
Theorem kahan_flag_raises (self : MarkovChain R Seed W) :
  experimental_use_kahan_sum self = true ->
  (forall x lp, _log_prob self x <> Ok lp)
  /\ (forall sample_shape seed w r,
         _sample_and_log_prob split_seed self sample_shape seed w <> Ok r)
  /\ (forall x q y r,
         _markov_chain_log_prob_ratio self x q y <> Ok r
         /\ _markov_chain_log_prob_ratio q y self x <> Ok r)
  /\ (forall x prior_lp lps k,
         _log_prob_parts self x = Ok (prior_lp, lps) ->
         reduce_kahan_sum (value lps) = Ok k ->
         _log_prob self x = Err (AttributeError no_value_message))
  /\ (forall x q y p_prior_lp p_lps q_prior_lp q_lps prior_lp_ratio
         lp_ratios k,
         _log_prob_parts self x = Ok (p_prior_lp, p_lps) ->
         _log_prob_parts q y = Ok (q_prior_lp, q_lps) ->
         tensor_sub (value p_prior_lp) (value q_prior_lp)
           = Ok prior_lp_ratio ->
         tensor_sub (value p_lps) (value q_lps) = Ok lp_ratios ->
         reduce_kahan_sum lp_ratios = Ok k ->
         _markov_chain_log_prob_ratio self x q y
         = Err (AttributeError no_value_message)).
Proof.
  intros Hflag. repeat split.
  - intros x lp E. unfold _log_prob in E.
    apply bind_Ok in E as ([prior_lp lps] & _ & E).
    apply bind_Ok in E as (tl & Hsum & _).
    apply sum_fn_returns in Hsum as [Hoff _]. congruence.
  - intros sample_shape seed w [[x lp] w'] E.
    unfold _sample_and_log_prob, _sample_and_log_prob_helper in E.
    invert_steps.
    match goal with
    | E : match snd ?r with _ => _ end = Ok _ |- _ =>
        destruct (snd r); [| discriminate];
        apply sum_fn_returns in E as [Hoff _]
    end.
    congruence.
  - intros E. unfold _markov_chain_log_prob_ratio in E.
    apply bind_Ok in E as ([p_prior_lp p_lps] & _ & E).
    apply bind_Ok in E as ([q_prior_lp q_lps] & _ & E).
    apply bind_Ok in E as (prior_lp_ratio & _ & E).
    apply bind_Ok in E as (lp_ratios & _ & E).
    apply bind_Ok in E as (lp_ratio & E & _).
    rewrite Hflag in E. cbn [orb] in E.
    destruct (reduce_kahan_sum lp_ratios); discriminate.
  - intros E. unfold _markov_chain_log_prob_ratio in E.
    apply bind_Ok in E as ([q_prior_lp q_lps] & _ & E).
    apply bind_Ok in E as ([p_prior_lp p_lps] & _ & E).
    apply bind_Ok in E as (prior_lp_ratio & _ & E).
    apply bind_Ok in E as (lp_ratios & _ & E).
    apply bind_Ok in E as (lp_ratio & E & _).
    rewrite Hflag, orb_true_r in E.
    destruct (reduce_kahan_sum lp_ratios); discriminate.
  - intros x prior_lp lps k Hparts Hsum. unfold _log_prob.
    rewrite Hparts. cbn [bind].
    rewrite (sum_fn_flagged _ _ Hflag), Hsum. reflexivity.
  - intros x q y p_prior_lp p_lps q_prior_lp q_lps prior_lp_ratio lp_ratios k
      Hp Hq Hprior Hlps Hsum.
    unfold _markov_chain_log_prob_ratio.
    rewrite Hp. cbn [bind]. rewrite Hq. cbn [bind].
    rewrite Hprior. cbn [bind]. rewrite Hlps. cbn [bind].
    rewrite Hflag. cbn [orb]. rewrite Hsum. reflexivity.
Qed.

End KahanFlag.

Lemma kahan_flag_raises_witness :
  let self := RandomWalk.chain (StaticSteps 3) true true in
  (forall x lp, _log_prob self x <> Ok lp)
  /\ (forall sample_shape seed w r,
         _sample_and_log_prob RandomWalk.split_seed self sample_shape seed w
         <> Ok r)
  /\ (forall x q y r,
         _markov_chain_log_prob_ratio self x q y <> Ok r
         /\ _markov_chain_log_prob_ratio q y self x <> Ok r)
  /\ _log_prob self RandomWalk.trajectory
     = Err (AttributeError no_value_message)
  /\ _markov_chain_log_prob_ratio self RandomWalk.trajectory
       RandomWalk.walk3 RandomWalk.trajectory'
     = Err (AttributeError no_value_message).
Proof.
  intros self.
  destruct (kahan_flag_raises RandomWalk.split_seed self eq_refl)
    as (Hlp & Hjoint & Hratio & Hlp_error & Hratio_error).
  split; [exact Hlp |]. split; [exact Hjoint |]. split; [exact Hratio |].
  split.
  - exact (Hlp_error RandomWalk.trajectory _ _ _ eq_refl eq_refl).
  - exact (Hratio_error RandomWalk.trajectory RandomWalk.walk3
             RandomWalk.trajectory' _ _ _ _ _ _ _
             eq_refl eq_refl eq_refl eq_refl eq_refl).
Defined.

(** ** The ratio of a chain to itself *)

Section SelfRatio.
Context {R : Type} `{Scalar R} {Seed W : Type}.
Hypothesis add_zero : add zero zero = zero.

Lemma map2_sub_self (l : list R) :
  Forall finite l -> map2 sub l l = repeat zero (length l).
Proof.
  induction 1 as [|a l Ha _ IH]; cbn [map2 length repeat]; [reflexivity |].
  now rewrite Ha, IH.
Qed.

Lemma well_formed_zeros (s : list nat) : well_formed (zeros (R := R) s) = true.
Proof.
  unfold well_formed, zeros. cbn [shape data]. rewrite repeat_length.
  apply Nat.eqb_refl.
Qed.

Lemma tensor_sub_self (x : ndarray R) :
  well_formed x = true ->
  Forall finite (data x) ->
  tensor_sub x x = Ok (zeros (shape x)).
Proof.
  intros Wx Fx. unfold tensor_sub.
  rewrite broadcast2_same_shape by auto.
  rewrite map2_sub_self by exact Fx. unfold zeros. do 3 f_equal.
  now apply Nat.eqb_eq in Wx.
Qed.

Lemma column_zeros (k n m j : nat) :
  column k n (repeat zero m) j = repeat zero n.
Proof.
  unfold column. rewrite <- (map_const_seq zero 0 n).
  apply map_ext. intros i. apply nth_repeat.
Qed.

Lemma fold_add_zeros (n : nat) : fold_left add (repeat zero n) zero = zero.
Proof.
  induction n as [|n IH]; cbn [repeat fold_left]; [reflexivity |].
  now rewrite add_zero.
Qed.

Lemma reduce_zeros (n : nat) (s : list nat) :
  reduce_sum (zeros (n :: s)) = Ok (zeros s).
Proof.
  unfold reduce_sum.
  change (shape (zeros (n :: s))) with (n :: s).
  rewrite well_formed_zeros. cbn [negb].
  unfold zeros. cbn [data].
  do 2 f_equal. rewrite <- (map_const_seq zero 0 (numel s)).
  apply map_ext. intros j. now rewrite column_zeros, fold_add_zeros.
Qed.

Lemma numel_rev (s : list nat) : numel (rev s) = numel s.
Proof.
  induction s as [|a s IH]; [reflexivity |].
  cbn [rev]. rewrite numel_app, IH. unfold numel. cbn [fold_right]. nia.
Qed.

Lemma map2_add_zero (n : nat) :
  map2 add (repeat zero n) (repeat zero n) = repeat (zero : R) n.
Proof.
  induction n as [|n IH]; cbn [repeat map2]; [reflexivity |].
  now rewrite add_zero, IH.
Qed.

(** Adding arrays of zeros, with whatever broadcasting the shapes ask
    for. *)
Lemma tensor_add_zeros_shapes (x y z : ndarray R) :
  tensor_add x y = Ok z ->
  tensor_add (zeros (shape x)) (zeros (shape y)) = Ok (zeros (shape z)).
Proof.
  unfold tensor_add, broadcast2.
  rewrite !well_formed_zeros.
  destruct (negb (well_formed x && well_formed y)); [discriminate |].
  cbn [andb negb]. change (shape (zeros ?s)) with s.
  destruct (list_eq_dec Nat.eq_dec (shape x) (shape y)).
  - intros [= <-]. cbn [shape]. unfold zeros at 1 2. cbn [data].
    rewrite <- e, map2_add_zero. reflexivity.
  - destruct (broadcast_shapes_rev _ _) as [out_rev|]; [| discriminate].
    intros [= <-]. cbn [shape]. unfold zeros. cbn [data].
    do 2 f_equal. rewrite numel_rev, <- (map_const_seq zero 0 (numel out_rev)).
    apply map_ext. intros i. now rewrite !nth_repeat, add_zero.
Qed.

(** X10: the log-density ratio of a chain to itself at one trajectory is
    zero where the log-densities are finite: when [log_prob p x] returns
    and every entry of the prior's and of the transitions' log-densities is
    finite, [log_prob_ratio p x p x] returns zeros of the shape of
    [log_prob p x].  Of the scalars only [0 + 0 = 0] is asked, not the
    rounding-free laws; an entry of minus infinity is left out (its
    difference with itself is NaN). *)
Theorem log_prob_ratio_self (p : MarkovChain R Seed W) (x : state R)
    (prior_lp lps : Tensor R) (lp : ndarray R) :
  _log_prob_parts p x = Ok (prior_lp, lps) ->
  Forall finite (data (value prior_lp)) ->
  Forall finite (data (value lps)) ->
  _log_prob p x = Ok lp ->
  _markov_chain_log_prob_ratio p x p x = Ok (zeros (shape lp)).
Proof.
  unfold _log_prob, _markov_chain_log_prob_ratio. intros Hparts Fp Fl E.
  rewrite Hparts in E |- *. cbn [bind] in E |- *.
  apply bind_Ok in E as (tl & Hsum & E).
  apply bind_Ok in E as (deps & _ & E).
  apply bind_Ok in E as (? & _ & Hadd). cbn [value] in Hadd.
  destruct (broadcast2_well_formed _ _ _ _ Hadd) as [Wp _].
  apply sum_fn_returns in Hsum as [Hflag Hsum].
  assert (Hlps : exists n s, shape (value lps) = n :: s
                             /\ well_formed (value lps) = true
                             /\ shape tl = s).
  { unfold reduce_sum in Hsum.
    destruct (shape (value lps)) as [|n s]; [discriminate |].
    exists n, s.
    destruct (well_formed (value lps)); cbn [negb] in Hsum;
      [| discriminate].
    injection Hsum as <-; auto. }
  destruct Hlps as (n & s & Hs & Wl & Htl).
  rewrite (tensor_sub_self _ Wp Fp), (tensor_sub_self _ Wl Fl), Hs.
  cbn [bind]. rewrite Hflag. cbn [orb].
  rewrite reduce_zeros. cbn [bind]. rewrite <- Htl.
  apply tensor_add_zeros_shapes. exact Hadd.
Qed.

End SelfRatio.

Lemma log_prob_ratio_self_witness :
  _markov_chain_log_prob_ratio RandomWalk.walk3 RandomWalk.trajectory
    RandomWalk.walk3 RandomWalk.trajectory
  = Ok (zeros [2]).
Proof.
  refine (log_prob_ratio_self eq_refl RandomWalk.walk3
            RandomWalk.trajectory
            (mk_Tensor (known_shape [2]) (mk_ndarray [2] [-256; -289]%Z))
            (mk_Tensor (known_shape [2; 2])
               (mk_ndarray [2; 2] [-1156; -1225; -4901; -5042]%Z))
            _ eq_refl _ _ eq_refl);
    repeat constructor.
Defined.

(** ** A longer chain extends the shorter one *)

Section Prefix.
Context {R : Type} `{Scalar R} {Seed W : Type}.
Variable split_seed : Seed -> option string -> M W (Seed * Seed).

(** The draws of the loop do not depend on how many more will follow. *)
Lemma chain_steps_prefix (self1 self2 : MarkovChain R Seed W)
    (attr : sample_attr_t) :
  transition_fn self1 = transition_fn self2 ->
  forall k1 k2 t seed x w outs1 w1 outs2 w2,
    k1 <= k2 ->
    chain_steps split_seed self1 attr k1 t seed x w = Ok (outs1, w1) ->
    chain_steps split_seed self2 attr k2 t seed x w = Ok (outs2, w2) ->
    exists rest, outs2 = outs1 ++ rest.
Proof.
  intros Htf.
  induction k1 as [|k1 IH]; intros k2 t seed x w outs1 w1 outs2 w2 Hk E1 E2.
  - cbn [chain_steps] in E1. apply retM_Ok in E1. injection E1 as -> _.
    exists outs2. reflexivity.
  - destruct k2 as [|k2]; [lia |]. cbn [chain_steps] in E1, E2.
    apply bindM_Ok in E1 as ([s1 l1] & wa & Ea & E1).
    apply bindM_Ok in E2 as ([s2 l2] & wb & Eb & E2).
    rewrite Ea in Eb. injection Eb as <- <- <-.
    apply bindM_Ok in E1 as (d1 & wa1 & Ea1 & E1).
    apply bindM_Ok in E2 as (d2 & wb1 & Eb1 & E2).
    rewrite Htf in Ea1. rewrite Ea1 in Eb1. injection Eb1 as <- <-.
    apply bindM_Ok in E1 as (r1 & wa2 & Ea2 & E1).
    apply bindM_Ok in E2 as (r2 & wb2 & Eb2 & E2).
    rewrite Ea2 in Eb2. injection Eb2 as <- <-.
    apply bindM_Ok in E1 as (rest1 & wa3 & Ea'' & E1).
    apply bindM_Ok in E2 as (rest2 & wb3 & Eb'' & E2).
    apply retM_Ok in E1, E2. injection E1 as -> ->. injection E2 as -> ->.
    destruct (IH k2 _ _ _ _ _ _ _ _ ltac:(lia) Ea'' Eb'') as [rest ->].
    exists rest. reflexivity.
Qed.

Lemma well_formed_cons0 (a t c : ndarray R) :
  cons0 a t = Ok c -> well_formed c = true.
Proof.
  intros E. apply cons0_inv in E as (nb & St & Wa & Wt & ->).
  unfold well_formed in *. cbn [shape data numel fold_right].
  fold (numel (shape a)). apply Nat.eqb_eq in Wa, Wt. rewrite St in Wt.
  cbn [numel fold_right] in Wt. fold (numel (shape a)) in Wt.
  rewrite length_app, Wa, Wt. apply Nat.eqb_eq. lia.
Qed.

Lemma stack_states_well_formed (like : state R) (xs : list (state R)) :
  forall X,
    stack_states like xs = Ok X ->
    Forall (fun leaf => well_formed leaf = true) X.
Proof.
  induction xs as [|x xs IH]; cbn [stack_states]; intros X E.
  - injection E as <-. apply Forall_map, Forall_forall. reflexivity.
  - apply bind_Ok in E as (rest & _ & E). clear IH.
    revert rest X E. induction x as [|a x IHx]; intros [|t rest] X;
      cbn [map_structure2]; try discriminate.
    + intros [= <-]. constructor.
    + intros E. apply bind_Ok in E as (c & Ec & E).
      apply bind_Ok in E as (cs & Ecs & [= <-]).
      constructor; [eapply well_formed_cons0; eassumption | eauto].
Qed.

(** Stacking one more array in front of a stack and of its first [k]
    rows. *)
Lemma slice0_cons0 (a t1 t2 c1 c2 : ndarray R) (k : nat) :
  leading_dim t1 = k ->
  cons0 a t1 = Ok c1 ->
  cons0 a t2 = Ok c2 ->
  slice0 t2 0 (Z.of_nat k) = Ok t1 ->
  slice0 c2 0 (Z.of_nat (S k)) = Ok c1.
Proof.
  intros Hk E1 E2 Hs.
  pose proof (well_formed_cons0 _ _ _ E2) as Wc2.
  apply cons0_inv in E1 as (nb1 & St1 & Wa & Wt1 & ->).
  apply cons0_inv in E2 as (nb2 & St2 & _ & Wt2 & ->).
  unfold leading_dim in Hk. rewrite St1 in Hk. cbn [hd] in Hk. subst nb1.
  unfold slice0 in Hs |- *. rewrite St2, Wt2 in Hs. cbn [negb] in Hs.
  cbn [shape data]. rewrite Wc2. cbn [negb].
  rewrite clamp_index_0 in Hs |- *. rewrite Nat.sub_0_r in Hs |- *.
  cbn [Nat.mul skipn] in Hs |- *.
  destruct t1 as [s1 d1]. cbn [shape data] in St1. subst s1.
  injection Hs as Hlen Hdat.
  assert (Hle : k <= nb2)
    by (rewrite <- Hlen at 1; apply clamp_index_le).
  rewrite (clamp_index_nat (S nb2) (S k)) by lia.
  rewrite Hlen in Hdat. cbn [data].
  apply Nat.eqb_eq in Wa.
  f_equal. f_equal.
  rewrite firstn_app, firstn_all2 by (rewrite Wa; cbn [Nat.mul]; lia).
  f_equal. rewrite Wa. rewrite <- Hdat. f_equal. cbn [Nat.mul]. lia.
Qed.

Lemma stack_states_prefix (like : state R) (xs ys : list (state R)) :
  forall X1 X2,
    stack_states like xs = Ok X1 ->
    stack_states like (xs ++ ys) = Ok X2 ->
    Forall2 (fun l2 l1 =>
               leading_dim l1 = length xs
               /\ slice0 l2 0 (Z.of_nat (length xs)) = Ok l1)
      X2 X1.
Proof.
  induction xs as [|x xs IH]; intros X1 X2 E1 E2.
  - cbn [stack_states app length] in *. injection E1 as <-.
    pose proof (stack_states_well_formed _ _ _ E2) as Wf.
    apply stack_states_extent in E2.
    induction E2 as [|l sl like X2 Hsl _ IHF]; cbn [map]; constructor.
    + split; [reflexivity |].
      inversion Wf; subst. eapply slice0_empty; eassumption.
    + inversion Wf; subst. auto.
  - cbn [stack_states app length] in *.
    apply bind_Ok in E1 as (r1 & Er1 & E1).
    apply bind_Ok in E2 as (r2 & Er2 & E2).
    specialize (IH _ _ Er1 Er2). clear Er1 Er2.
    revert x X1 X2 E1 E2.
    induction IH as [|t2 t1 r2 r1 [Hk Hs] _ IHF]; intros [|a x] X1 X2;
      cbn [map_structure2]; try discriminate.
    + intros [= <-] [= <-]. constructor.
    + intros E1 E2.
      apply bind_Ok in E1 as (c1 & Ec1 & E1).
      apply bind_Ok in E1 as (cs1 & Ecs1 & [= <-]).
      apply bind_Ok in E2 as (c2 & Ec2 & E2).
      apply bind_Ok in E2 as (cs2 & Ecs2 & [= <-]).
      constructor; [| eauto]. split.
      * apply cons0_inv in Ec1 as (nb & St & _ & _ & ->).
        unfold leading_dim in *. rewrite St in Hk. cbn [shape hd] in *.
        now subst nb.
      * eapply slice0_cons0; eassumption.
Qed.

Lemma Forall2_map_structure {A B} (f : A -> result B) (xs : list A)
    (ys : list B) :
  Forall2 (fun x y => f x = Ok y) xs ys -> map_structure f xs = Ok ys.
Proof.
  induction 1 as [|x y xs ys Hxy _ IH]; cbn [map_structure];
    [reflexivity |].
  now rewrite Hxy, IH.
Qed.

(** X11: a longer chain extends the shorter one.  Two chains that differ
    in their step count only, sampled with the same seed (and in the same
    ambient state), agree on the steps they both have: the first [n1]
    steps of the longer trajectory are the shorter trajectory.  The loop
    splits the seed step after step, so a draw does not depend on how many
    will follow. *)
Theorem sample_prefix (self : MarkovChain R Seed W) (ns1 ns2 : NumSteps)
    (sample_shape : list nat) (seed : Seed) (w w1 w2 : W)
    (x1 x2 : state R) :
  (1 <= steps_value ns1 <= steps_value ns2)%Z ->
  _sample_n split_seed (with_num_steps self ns1) sample_shape seed w
    = Ok (x1, w1) ->
  _sample_n split_seed (with_num_steps self ns2) sample_shape seed w
    = Ok (x2, w2) ->
  exists X1 X2,
    steps_leftmost self x1 = Ok X1
    /\ steps_leftmost self x2 = Ok X2
    /\ map_structure
         (fun state_part => slice0 state_part 0 (steps_value ns1)) X2
       = Ok X1.
Proof.
  intros Hn E1 E2.
  apply sample_n_leftmost in E1
    as (ps1 & ls1 & wa & x0 & wa1 & outs1 & X1
        & Hsplit1 & Hprior1 & Hsteps1 & Hstack1 & Hmove1).
  apply sample_n_leftmost in E2
    as (ps2 & ls2 & wb & x0' & wb1 & outs2 & X2
        & Hsplit2 & Hprior2 & Hsteps2 & Hstack2 & Hmove2).
  rewrite Hsplit1 in Hsplit2. injection Hsplit2 as <- <- <-.
  cbn [with_num_steps initial_state_prior num_steps] in *.
  rewrite Hprior1 in Hprior2. injection Hprior2 as <- <-.
  exists X1, X2. split; [exact Hmove1 |]. split; [exact Hmove2 |].
  assert (Hk : Z.to_nat (steps_value ns1 - 1)
               <= Z.to_nat (steps_value ns2 - 1)) by lia.
  destruct (chain_steps_prefix (with_num_steps self ns1)
              (with_num_steps self ns2) attr_sample eq_refl _ _ _ _ _ _ _ _ _ _
              Hk Hsteps1 Hsteps2) as [rest ->].
  apply chain_steps_length in Hsteps1.
  rewrite map_app, app_comm_cons in Hstack2.
  pose proof (stack_states_prefix _ _ _ _ _ Hstack1 Hstack2) as F.
  apply Forall2_map_structure.
  eapply Forall2_impl; [| exact F]. cbv beta. intros l2 l1 [_ Hs].
  rewrite <- Hs. f_equal. cbn [length]. rewrite length_map.
  unfold sample_result, state in *. rewrite Hsteps1. lia.
Qed.

End Prefix.

Lemma sample_prefix_witness :
  exists X1 X2,
    steps_leftmost RandomWalk.walk3
      [mk_ndarray [2; 2; 2] [16; 50; 17; 52; 18; 54; 19; 56]%Z] = Ok X1
    /\ steps_leftmost RandomWalk.walk3
         [mk_ndarray [2; 2; 3]
            [16; 50; 120; 17; 52; 123; 18; 54; 126; 19; 56; 129]%Z] = Ok X2
    /\ map_structure (fun state_part => slice0 state_part 0 2) X2 = Ok X1.
Proof.
  refine (sample_prefix RandomWalk.split_seed RandomWalk.walk3
            (StaticSteps 2) (StaticSteps 3) [2] 5%Z 0 2 3 _ _ _ eq_refl
            eq_refl).
  simpl. lia.
Defined.

(** ** The statically inferred event shape *)

Section StaticEventShape.
Context {R : Type} `{Scalar R} {Seed W : Type}.

(** X12: the static event shape agrees with the dynamic one.  When the
    prior's static event shape is sound for its [event_shape_tensor], part
    by part, and the step count is not negative, [_event_shape] returns
    shapes that are sound for [_event_shape_tensor]; a part of unknown rank
    stays of unknown rank, and the leading dimension of the others is the
    step count, or unknown when [num_steps] is a reference. *)
Theorem event_shape_sound (self : MarkovChain R Seed W)
    (prior_event_shape : list TensorShape) :
  (0 <= steps_value (num_steps self))%Z ->
  Forall2 (fun st event_shape => shape_sound st event_shape = true)
    prior_event_shape (event_shape_tensor (initial_state_prior self)) ->
  exists shapes,
    _event_shape self prior_event_shape = Ok shapes
    /\ Forall2 (fun st event_shape =>
                  shape_sound st (map Z.to_nat event_shape) = true)
         shapes (_event_shape_tensor self)
    /\ Forall2 (fun prior_st st =>
                  match prior_st with
                  | None => st = None
                  | Some dims =>
                      st = Some ((if is_ref (num_steps self) then None
                                  else Some (Z.to_nat
                                               (steps_value (num_steps self))))
                                 :: dims)
                  end)
         prior_event_shape shapes.
Proof.
  intros Hn F. unfold _event_shape, _event_shape_tensor.
  assert (Hd : as_dimension (get_static_value (num_steps self))
               = Ok (if is_ref (num_steps self) then None
                     else Some (Z.to_nat (steps_value (num_steps self))))).
  { destruct (num_steps self) as [n|n]; cbn in *; [| reflexivity].
    destruct (n <? 0)%Z eqn:E; [apply Z.ltb_lt in E; lia | reflexivity]. }
  rewrite Hd. clear Hd.
  induction F as [|st ev sts evs Hst _ (shapes & E & F1 & F2)];
    cbn [map_structure map].
  - exists []. repeat split; constructor.
  - rewrite E. destruct st as [dims|]; cbn [bind].
    + eexists. split; [reflexivity |]. split; constructor; auto.
      cbn [map]. rewrite map_map.
      rewrite (map_ext _ (fun x => x)) by (intros; apply Nat2Z.id).
      rewrite map_id.
      unfold shape_sound, known_shape, is_compatible_with in *.
      cbn [map dims_compatible]. rewrite Hst.
      destruct (is_ref (num_steps self)); cbn [dim_compatible];
        [reflexivity |].
      now rewrite Nat.eqb_refl.
    + eexists. split; [reflexivity |]. split; constructor; auto.
Qed.

End StaticEventShape.

Lemma event_shape_sound_witness :
  exists shapes,
    _event_shape RandomWalk.walk3 [Some []] = Ok shapes
    /\ Forall2 (fun st event_shape =>
                  shape_sound st (map Z.to_nat event_shape) = true)
         shapes (_event_shape_tensor RandomWalk.walk3)
    /\ Forall2 (fun prior_st st =>
                  match prior_st with
                  | None => st = None
                  | Some dims => st = Some (Some 3 :: dims)
                  end)
         [Some []] shapes.
Proof.
  refine (event_shape_sound RandomWalk.walk3 [Some []] _ _).
  - simpl. lia.
  - repeat constructor.
Defined.

(** ** What validation changes *)

Section Validation.
Context {R : Type} `{Scalar R} {Seed W : Type}.
Variable split_seed : Seed -> option string -> M W (Seed * Seed).

(** X13: validation only ever adds failures.  A log-density returned by a
    chain is returned, the same, by the chain with [validate_args]
    switched off, by [_log_prob] and by the public [log_prob] with its
    assertions; and sampling does not read the flag. *)
Theorem validation_changes_no_value (self : MarkovChain R Seed W)
    (x : state R) (lp : ndarray R) :
  let unchecked :=
    mk_MarkovChain (initial_state_prior self) (transition_fn self)
      (num_steps self) (experimental_use_kahan_sum self) false in
  (_log_prob self x = Ok lp -> _log_prob unchecked x = Ok lp)
  /\ (chain_log_prob self x = Ok lp -> chain_log_prob unchecked x = Ok lp)
  /\ (forall sample_shape seed w,
         _sample_n split_seed unchecked sample_shape seed w
         = _sample_n split_seed self sample_shape seed w).
Proof.
  intros unchecked.
  assert (Hlp : _log_prob self x = Ok lp -> _log_prob unchecked x = Ok lp).
  { unfold _log_prob.
    change (_log_prob_parts unchecked x) with (_log_prob_parts self x).
    intros E. apply bind_Ok in E as ([prior_lp lps] & -> & E). cbn [bind].
    change (_sum_fn unchecked (value lps)) with (_sum_fn self (value lps)).
    apply bind_Ok in E as (tl & -> & E). cbn [bind].
    apply bind_Ok in E as (deps & Hdeps & E).
    apply bind_Ok in E as (? & _ & E).
    unfold _assert_same_shape in Hdeps |- *.
    destruct (negb (is_compatible_with _ _)); [discriminate |].
    cbn [validate_args unchecked andb bind control_dependencies]. exact E. }
  split; [exact Hlp |]. split; [| reflexivity].
  unfold chain_log_prob. intros E.
  apply bind_Ok in E as (? & _ & E). apply bind_Ok in E as (deps & _ & E).
  apply bind_Ok in E as (? & _ & E).
  unfold _parameter_control_dependencies, _sample_control_dependencies.
  cbn [validate_args unchecked negb control_dependencies bind].
  apply Hlp. exact E.
Qed.

End Validation.

Lemma validation_changes_no_value_witness :
  _log_prob (RandomWalk.chain (StaticSteps 3) false false)
    RandomWalk.trajectory
  = Ok (mk_ndarray [2] [-6313; -6556]%Z).
Proof.
  exact (proj1 (validation_changes_no_value RandomWalk.split_seed
                  RandomWalk.walk3 RandomWalk.trajectory
                  (mk_ndarray [2] [-6313; -6556]%Z))
           eq_refl).
Defined.

(** ** Density evaluation at a sample *)

Section LogProbOfSample.
Context {R : Type} `{Scalar R} {Seed W : Type}.
Variable split_seed : Seed -> option string -> M W (Seed * Seed).
Variable self : MarkovChain R Seed W.

(** A slice of well-formed arrays of rank at least 1 is there to take. *)
Lemma slices_succeed (b e : Z) (X : state R) :
  Forall (fun leaf => well_formed leaf = true) X ->
  Forall (fun leaf => exists n s, shape leaf = n :: s) X ->
  exists out, map_structure (fun p => slice0 p b e) X = Ok out.
Proof.
  induction 1 as [|leaf X Wl _ IH]; intros Hs.
  - exists []. reflexivity.
  - inversion Hs as [|? ? (n & s & Hl) Hs']; subst.
    destruct (IH Hs') as [out Hout].
    cbn [map_structure]. unfold slice0 at 1. rewrite Hl, Wl. cbn [negb bind].
    rewrite Hout. cbn [bind]. eauto.
Qed.

(** X14: density evaluation at a sample fails only where a collaborator
    fails.  For a sample [x] (of a state with at least one leaf), the array
    operations of [_log_prob_parts] all succeed: the step axis moves back
    to the front, row 0 is the prior's draw, the step count read off the
    first leaf is max(1, num_steps) (which is [num_steps], the sample having
    been returned), its range and both slices exist; what remains is
    the prior's [log_prob], the one call of the transition function and
    its distribution's [log_prob]. *)
Theorem log_prob_parts_of_sample (sample_shape : list nat) (seed : Seed)
    (w w' : W) (x : state R) :
  _sample_n split_seed self sample_shape seed w = Ok (x, w') ->
  x <> [] ->
  let n := Z.max 1 (steps_value (num_steps self)) in
  exists X x0 previous current,
    steps_leftmost self x = Ok X
    /\ map_structure (fun state_part => index0 state_part 0) X = Ok x0
    /\ map_structure (fun state_part => slice0 state_part 0 (n - 1)) X
       = Ok previous
    /\ map_structure (fun state_part => slice0 state_part 1 n) X
       = Ok current
    /\ _log_prob_parts self x
       = (prior_lp <- log_prob (initial_state_prior self) x0 ;;
          dist <- transition_fn self (range_tensor 0 (n - 1)) previous ;;
          transition_lps <- log_prob dist current ;;
          Ok (prior_lp, transition_lps)).
Proof.
  intros E Hleaf n.
  apply sample_n_leftmost in E
    as (prior_seed & loop_seed & w0 & x0 & w1 & outs & X
        & _ & _ & Hsteps & Hstack & Hmove).
  apply chain_steps_length in Hsteps.
  pose proof (stack_states_well_formed _ _ _ Hstack) as Wf.
  pose proof (stacked_leading _ _ _ Hstack) as Hext.
  assert (Hn : Z.of_nat (length (x0 :: map fst outs)) = n).
  { cbn [length]. rewrite length_map.
    unfold sample_result, state in *. rewrite Hsteps. lia. }
  assert (Hx0 : map_structure (fun p => index0 p 0) X = Ok x0).
  { cbn [stack_states] in Hstack.
    apply bind_Ok in Hstack as (rest & _ & Hc).
    eapply index0_stack; eassumption. }
  assert (Hlead : leading_extent X = Ok n).
  { destruct Hext as [|leaf X' (s & Hs) _].
    - exfalso. apply Hleaf. unfold steps_leftmost in Hmove.
      destruct x as [|leaf x]; [reflexivity |].
      cbn [map_structure2] in Hmove.
      destruct (_step_axes self); [discriminate |].
      apply bind_Ok in Hmove as (? & _ & Hmove).
      apply bind_Ok in Hmove as (? & _ & Hmove). discriminate.
    - unfold leading_extent. rewrite Hs, Hn. reflexivity. }
  assert (Hrank : Forall (fun leaf : ndarray R =>
                            exists n s, shape leaf = n :: s) X)
    by (eapply Forall_impl; [| exact Hext]; cbv beta;
        intros leaf [s Hs]; eauto).
  destruct (slices_succeed 0 (n - 1) X Wf Hrank) as [previous Hprev].
  destruct (slices_succeed 1 n X Wf Hrank) as [current Hcur].
  exists X, x0, previous, current. repeat split; try assumption.
  unfold _log_prob_parts. unfold steps_leftmost in Hmove.
  rewrite Hmove. cbn [bind]. rewrite Hx0. cbn [bind].
  destruct (log_prob (initial_state_prior self) x0) as [prior_lp|];
    [| reflexivity].
  cbn [bind]. rewrite Hlead. cbn [bind].
  rewrite (tf_range_Ok 0 (n - 1)) by lia.
  cbn [bind]. rewrite Hprev. cbn [bind].
  destruct (transition_fn self _ previous) as [dist|]; [| reflexivity].
  cbn [bind]. rewrite Hcur. reflexivity.
Qed.

End LogProbOfSample.

Lemma log_prob_parts_of_sample_witness :
  exists X x0 previous current,
    steps_leftmost RandomWalk.walk3
      [mk_ndarray [2; 2; 3]
         [16; 50; 120; 17; 52; 123; 18; 54; 126; 19; 56; 129]%Z] = Ok X
    /\ map_structure (fun state_part => index0 state_part 0) X = Ok x0
    /\ map_structure (fun state_part => slice0 state_part 0 (3 - 1)) X
       = Ok previous
    /\ map_structure (fun state_part => slice0 state_part 1 3) X
       = Ok current
    /\ _log_prob_parts RandomWalk.walk3
         [mk_ndarray [2; 2; 3]
            [16; 50; 120; 17; 52; 123; 18; 54; 126; 19; 56; 129]%Z]
       = (prior_lp <- log_prob RandomWalk.prior x0 ;;
          dist <- RandomWalk.transition (range_tensor 0 (3 - 1)) previous ;;
          transition_lps <- log_prob dist current ;;
          Ok (prior_lp, transition_lps)).
Proof.
  refine (log_prob_parts_of_sample RandomWalk.split_seed RandomWalk.walk3
            [2] 5%Z 0 3 _ eq_refl _).
  discriminate.
Defined.
